(** * libmata: the AFA antichain engine and the NFA product construction

    A shallow embedding of [src/afa/afa.cc] and [nfa-intersection.cc]
    together with the properties stated about them.

    Conventions of the embedding:
    - [State] and [Symbol] are natural numbers ([unsigned long] in the
      source).  The wrap-around is written out where the source computes
      with the word size: [transRelation.size()-1] in [Afa.max_state] and
      the sum of [Afa.trans_size]; the counter of [Afa.construct] counts
      the names of one section and is taken not to wrap.
    - [std::vector] is a [list], indexed with [!!]; an unchecked
      out-of-range index is the outcome [Undefined].
    - [assert] is the outcome [AssertionFailed], [throw] is [Thrown].
    - [OrdVector<T>] is a list kept sorted by the element order; the
      sortedness is a hypothesis of the lemmas that need it, never built
      into the operations. *)

From stdpp Require Import base option list sorting gmap strings pretty.

#[local] Set Warnings "-clear-no-such-hyp".

(** * The program *)


Abbreviation State := nat.
Abbreviation Symbol := nat.

(** ** Outcomes of a call *)

Inductive Outcome (A : Type) : Type :=
  | Ok (a : A)
  | AssertionFailed              (* an [assert] fired *)
  | Undefined                    (* unchecked access outside a container *)
  | Thrown (msg : string)        (* [std::runtime_error] *)
  | OutOfFuel.                   (* model only: the loop bound ran out *)
Arguments Ok {A} a.
Arguments AssertionFailed {A}.
Arguments Undefined {A}.
Arguments Thrown {A} msg.
Arguments OutOfFuel {A}.

Global Instance Outcome_ret : MRet Outcome := @Ok.
Global Instance Outcome_bind : MBind Outcome := λ A B f m,
  match m with
  | Ok a => f a
  | AssertionFailed => AssertionFailed
  | Undefined => Undefined
  | Thrown msg => Thrown msg
  | OutOfFuel => OutOfFuel
  end.
Global Instance Outcome_fmap : FMap Outcome := λ A B f m,
  match m with
  | Ok a => Ok (f a)
  | AssertionFailed => AssertionFailed
  | Undefined => Undefined
  | Thrown msg => Thrown msg
  | OutOfFuel => OutOfFuel
  end.

(** [v[i]] on a [std::vector]: no bounds check. *)
Definition index {A} (v : list A) (i : nat) : Outcome A :=
  match v !! i with
  | Some x => Ok x
  | None => Undefined
  end.

(** [assert(b)] *)
Definition assert (b : bool) : Outcome unit :=
  if b then Ok tt else AssertionFailed.

(** ** The ordered-set primitive *)

Module OrdVector.
Section ord_vector.
Context {A : Type} (cmp : A → A → comparison).

(** Modelled from the spec: [Mata::Util::OrdVector] is not part of the
    sources at hand.  Section 4.1 describes it as a sorted, duplicate-free
    sequence with membership, insertion, union and intersection by merging,
    and a subset test by merge comparison ([std::includes]).  This and the
    following operations of the section are that primitive. *)
Fixpoint insert (x : A) (v : list A) : list A :=
  match v with
  | [] => [x]
  | y :: v' =>
      match cmp x y with
      | Lt => x :: v
      | Eq => v
      | Gt => y :: insert x v'
      end
  end.

Fixpoint remove (x : A) (v : list A) : list A :=
  match v with
  | [] => []
  | y :: v' =>
      match cmp x y with
      | Eq => v'
      | _ => y :: remove x v'
      end
  end.

Fixpoint count (x : A) (v : list A) : bool :=
  match v with
  | [] => false
  | y :: v' =>
      match cmp x y with
      | Eq => true
      | _ => count x v'
      end
  end.

(** [std::includes(big, small)] *)
Fixpoint includes (big small : list A) {struct big} : bool :=
  match small, big with
  | [], _ => true
  | _ :: _, [] => false
  | s :: small', b :: big' =>
      match cmp s b with
      | Lt => false
      | Eq => includes big' small'
      | Gt => includes big' small
      end
  end.

Definition IsSubsetOf (small big : list A) : bool := includes big small.

Fixpoint Union (l1 : list A) : list A → list A :=
  fix merge (l2 : list A) : list A :=
    match l1, l2 with
    | [], _ => l2
    | _, [] => l1
    | x :: l1', y :: l2' =>
        match cmp x y with
        | Lt => x :: Union l1' l2
        | Eq => x :: Union l1' l2'
        | Gt => y :: merge l2'
        end
    end.

Fixpoint intersection (l1 : list A) : list A → list A :=
  fix merge (l2 : list A) : list A :=
    match l1, l2 with
    | [], _ => []
    | _, [] => []
    | x :: l1', y :: l2' =>
        match cmp x y with
        | Lt => intersection l1' l2
        | Eq => x :: intersection l1' l2'
        | Gt => merge l2'
        end
    end.

Definition sorted (v : list A) : Prop :=
  StronglySorted (λ x y, cmp x y = Lt) v.

(** What the facts below need of the element order. *)
Record order_laws : Prop := {
  cmp_eq : ∀ x y, cmp x y = Eq ↔ x = y;
  cmp_opp : ∀ x y, cmp y x = CompOpp (cmp x y);
  cmp_lt_trans : ∀ x y z, cmp x y = Lt → cmp y z = Lt → cmp x z = Lt
}.

End ord_vector.
End OrdVector.

(** ** Nodes and their order *)

(** A node is an [OrdVector<State>], a set of nodes an [OrdVector<Node>];
    vectors are compared lexicographically. *)
Abbreviation Node := (list State).
Abbreviation Nodes := (list Node).

Definition state_cmp : State → State → comparison := Nat.compare.
Definition node_cmp : Node → Node → comparison := list_compare Nat.compare.

Definition node_sorted (n : Node) : Prop := OrdVector.sorted state_cmp n.
Definition nodes_sorted (ns : Nodes) : Prop := OrdVector.sorted node_cmp ns.

(** ** Closed sets stored as antichains *)

Module ClosedSet.

(** Modelled from the spec: [mata/closed_set.hh] is not part of the sources
    at hand.  The operations follow section 4.6: insertion with reduction,
    union by inserting the other antichain (the two directions are required
    to agree), intersection by pairwise union (upward) or pairwise
    intersection (downward), containment of a node, inclusion, and equality
    as mutual inclusion.  All the operations of this module are modelled
    this way. *)
Inductive ClosedSetType := upward_closed_set | downward_closed_set.

Record t := mk {
  type_ : ClosedSetType;
  min_val : N;
  max_val : N;
  antichain : Nodes
}.

(** [StateClosedSet()] *)
Definition default : t := mk upward_closed_set 0 0 [].

(** an existing [element] makes the new [node] redundant *)
Definition absorbs (ty : ClosedSetType) (node element : Node) : bool :=
  match ty with
  | upward_closed_set => OrdVector.IsSubsetOf state_cmp element node
  | downward_closed_set => OrdVector.IsSubsetOf state_cmp node element
  end.

(** the new [node] makes an existing [element] redundant *)
Definition evicts (ty : ClosedSetType) (node element : Node) : bool :=
  match ty with
  | upward_closed_set => OrdVector.IsSubsetOf state_cmp node element
  | downward_closed_set => OrdVector.IsSubsetOf state_cmp element node
  end.

Definition erase_all (to_erase : list Node) (ac : Nodes) : Nodes :=
  foldl (λ ac element, OrdVector.remove node_cmp element ac) ac to_erase.

Definition insert (cs : t) (node : Node) : t :=
  if existsb (absorbs (type_ cs) node) (antichain cs) then cs
  else
    let to_erase := List.filter (evicts (type_ cs) node) (antichain cs) in
    mk (type_ cs) (min_val cs) (max_val cs)
       (OrdVector.insert node_cmp node (erase_all to_erase (antichain cs))).

Definition insert_state (cs : t) (s : State) : t := insert cs [s].

Definition insert_nodes (cs : t) (nodes : Nodes) : t := foldl insert cs nodes.

(** the constructor taking a single node inserts it *)
Definition of_node (ty : ClosedSetType) (lo hi : N) (node : Node) : t :=
  insert (mk ty lo hi []) node.

Definition Union (cs rhs : t) : t := insert_nodes cs (antichain rhs).

Definition combine (ty : ClosedSetType) (a b : Node) : Node :=
  match ty with
  | upward_closed_set => OrdVector.Union state_cmp a b
  | downward_closed_set => OrdVector.intersection state_cmp a b
  end.

Definition intersection (cs rhs : t) : t :=
  insert_nodes (mk (type_ cs) (min_val cs) (max_val cs) [])
    (a ← antichain cs; b ← antichain rhs; [combine (type_ cs) a b]).

Definition contains (cs : t) (node : Node) : bool :=
  existsb (absorbs (type_ cs) node) (antichain cs).

Definition contains_nodes (cs : t) (nodes : Nodes) : bool :=
  forallb (contains cs) nodes.

(** [this <= other]: inclusion *)
Definition le (this other : t) : bool := contains_nodes other (antichain this).

(** [this == other]: mutual inclusion *)
Definition eqb (this other : t) : bool := le this other && le other this.

(** *** Vocabulary of the statements *)

(** [a] is a subset of [b], as decided by the merge comparison *)
Definition sub (a b : Node) : Prop := OrdVector.IsSubsetOf state_cmp a b = true.

(** every node of the antichain is an ordered vector *)
Definition sorted_nodes (ns : Nodes) : Prop := ∀ n, n ∈ ns → node_sorted n.

End ClosedSet.

Abbreviation upward_closed_set := ClosedSet.upward_closed_set.
Abbreviation downward_closed_set := ClosedSet.downward_closed_set.
Abbreviation StateClosedSet := ClosedSet.t.

(** ** Alternating automata: [src/afa/afa.cc] *)

Module Afa.

Record Trans := mkTrans { src : State; symb : Symbol; dst : Nodes }.

Record InverseResults := mkInverseResults {
  result_nodes : Node;
  sharing_list : Node
}.

Record InverseTrans := mkInverseTrans {
  inv_symb : Symbol;
  inverseResults : list InverseResults
}.

(** [initialstates] and [finalstates] are [std::set<State>]. *)
Record Afa := mkAfa {
  transRelation : list (list Trans);
  inverseTransRelation : list (list InverseTrans);
  initialstates : gset State;
  finalstates : gset State
}.

Definition has_initial (aut : Afa) (s : State) : bool :=
  bool_decide (s ∈ initialstates aut).
Definition has_final (aut : Afa) (s : State) : bool :=
  bool_decide (s ∈ finalstates aut).

(** [transRelation.size()-1] in [size_t] arithmetic: it wraps to
    [2^64-1] when the automaton has no state. *)
Definition max_state (aut : Afa) : N :=
  ((N.of_nat (length (transRelation aut)) + 2 ^ 64 - 1) mod 2 ^ 64)%N.

Definition with_transRelation (aut : Afa) (tr : list (list Trans)) : Afa :=
  mkAfa tr (inverseTransRelation aut) (initialstates aut) (finalstates aut).

Definition with_inverseTransRelation (aut : Afa)
    (itr : list (list InverseTrans)) : Afa :=
  mkAfa (transRelation aut) itr (initialstates aut) (finalstates aut).

(** *** Forward lookup *)

(** the loop of [perform_trans]: the destination of the first entry
    carrying [sy], the empty [Nodes] when there is none *)
Fixpoint first_dst (sy : Symbol) (row : list Trans) : Nodes :=
  match row with
  | [] => []
  | transVec :: row' =>
      if symb transVec =? sy then dst transVec else first_dst sy row'
  end.

(** The returned [unique_ptr] owns a fresh copy of the stored [Nodes]
    ([std::make_unique<Nodes>(transVec.dst)]), so the result is a value. *)
Definition perform_trans (aut : Afa) (s : State) (sy : Symbol)
    : Outcome Nodes :=
  _ ← assert (s <? length (transRelation aut));
  row ← index (transRelation aut) s;
  Ok (first_dst sy row).

(** [add_trans] together with the last content of the temporary
    [*nodesPtr].  In the branch of an existing entry the reduced antichain
    is assigned to that temporary, which is destroyed on return; the
    transition relation is not written. *)
Definition add_trans_run (aut : Afa) (trans : Trans)
    : Outcome (Afa * Nodes) :=
  nodesPtr ← perform_trans aut (src trans) (symb trans);
  if negb (bool_decide (nodesPtr = [])) then
    let cl := ClosedSet.mk upward_closed_set 0 (max_state aut) nodesPtr in
    let cl := ClosedSet.insert_nodes cl (dst trans) in
    let nodesPtr := ClosedSet.antichain cl in
    Ok (aut, nodesPtr)
  else
    row ← index (transRelation aut) (src trans);
    Ok (with_transRelation aut
          (<[src trans := row ++ [trans]]> (transRelation aut)),
        nodesPtr).

Definition add_trans (aut : Afa) (trans : Trans) : Outcome Afa :=
  fst <$> add_trans_run aut trans.

(** *** Inverse lookup *)

Fixpoint first_inverse (sy : Symbol) (bucket : list InverseTrans)
    : list InverseResults :=
  match bucket with
  | [] => []
  | element :: bucket' =>
      if inv_symb element =? sy then inverseResults element
      else first_inverse sy bucket'
  end.

(** No assertion guards the index. *)
Definition perform_inverse_trans (aut : Afa) (s : State) (sy : Symbol)
    : Outcome (list InverseResults) :=
  bucket ← index (inverseTransRelation aut) s;
  Ok (first_inverse sy bucket).

Fixpoint perform_inverse_trans_node (aut : Afa) (node : Node) (sy : Symbol)
    : Outcome (list InverseResults) :=
  match node with
  | [] => Ok []
  | state :: node' =>
      subresult ← perform_inverse_trans aut state sy;
      rest ← perform_inverse_trans_node aut node' sy;
      Ok (subresult ++ rest)
  end.

(** The first loop of [add_inverse_trans].  [inverseTransResults] is the
    vector returned by value and [result] a copy of its element, so the
    insertion of [src] lands in the local [result]; the function returns
    that local when the sharing list was found. *)
Fixpoint scan_sharing (s : State) (node : Node)
    (inverseTransResults : list InverseResults) : option InverseResults :=
  match inverseTransResults with
  | [] => None
  | result :: rest =>
      if bool_decide (sharing_list result = node) then
        Some (mkInverseResults
                (OrdVector.insert state_cmp s (result_nodes result))
                (sharing_list result))
      else scan_sharing s node rest
  end.

(** The last loop of [add_inverse_trans]: the first bucket entry carrying
    [sy] receives the new inverse result. *)
Fixpoint push_to_first (sy : Symbol) (r : InverseResults)
    (bucket : list InverseTrans) : list InverseTrans :=
  match bucket with
  | [] => []
  | transVec :: bucket' =>
      if inv_symb transVec =? sy then
        mkInverseTrans (inv_symb transVec) (inverseResults transVec ++ [r])
        :: bucket'
      else transVec :: push_to_first sy r bucket'
  end.

(** [InverseResults(state, node)] *)
Definition new_inverse_result (s : State) (node : Node) : InverseResults :=
  mkInverseResults [s] node.

(** one iteration of the loop over [trans.dst] *)
Definition add_inverse_node (s : State) (sy : Symbol) (aut : Afa)
    (node : Node) : Outcome Afa :=
  storeTo ← match node with [] => Undefined | m :: _ => Ok m end;
  inverseTransResults ← perform_inverse_trans aut storeTo sy;
  match scan_sharing s node inverseTransResults with
  | Some _ => Ok aut
  | None =>
      again ← perform_inverse_trans aut storeTo sy;
      bucket ← index (inverseTransRelation aut) storeTo;
      if bool_decide (again = []) then
        Ok (with_inverseTransRelation aut
              (<[storeTo :=
                   bucket ++ [mkInverseTrans sy [new_inverse_result s node]]]>
                 (inverseTransRelation aut)))
      else
        Ok (with_inverseTransRelation aut
              (<[storeTo := push_to_first sy (new_inverse_result s node) bucket]>
                 (inverseTransRelation aut)))
  end.

Fixpoint add_inverse_nodes (s : State) (sy : Symbol) (aut : Afa)
    (nodes : Nodes) : Outcome Afa :=
  match nodes with
  | [] => Ok aut
  | node :: nodes' =>
      aut' ← add_inverse_node s sy aut node;
      add_inverse_nodes s sy aut' nodes'
  end.

Definition add_inverse_trans (aut : Afa) (trans : Trans) : Outcome Afa :=
  add_inverse_nodes (src trans) (symb trans) aut (dst trans).

(** [result.size() && res.IsSubsetOf(trans.dst)] *)
Definition has_trans (aut : Afa) (trans : Trans) : Outcome bool :=
  res ← perform_trans aut (src trans) (symb trans);
  Ok (negb (Nat.eqb (length res) 0)
      && OrdVector.IsSubsetOf node_cmp res (dst trans)).

(** *** The forward predicate transformer *)

Definition empty_set (ty : ClosedSet.ClosedSetType) (aut : Afa)
    : StateClosedSet :=
  ClosedSet.mk ty 0 (max_state aut) [].

(** [post(State, Symbol)] *)
Definition post_state (aut : Afa) (state : State) (sy : Symbol)
    : Outcome StateClosedSet :=
  result ← perform_trans aut state sy;
  if negb (Nat.eqb (length result) 0) then
    Ok (ClosedSet.mk upward_closed_set 0 (max_state aut) result)
  else Ok (empty_set upward_closed_set aut).

(** the loop of [post(Node, Symbol)] with its flag [used] *)
Fixpoint post_node_symb_loop (aut : Afa) (sy : Symbol) (states : list State)
    (used : bool) (result : StateClosedSet) : Outcome StateClosedSet :=
  match states with
  | [] => Ok result
  | state :: states' =>
      p ← post_state aut state sy;
      if negb used then
        post_node_symb_loop aut sy states' true
          (ClosedSet.insert_nodes result (ClosedSet.antichain p))
      else
        post_node_symb_loop aut sy states' used
          (ClosedSet.intersection result p)
  end.

(** [post(Node, Symbol)] *)
Definition post_node_symb (aut : Afa) (node : Node) (sy : Symbol)
    : Outcome StateClosedSet :=
  let result := empty_set upward_closed_set aut in
  match node with
  | [] => Ok (ClosedSet.insert result node)
  | _ => post_node_symb_loop aut sy node false result
  end.

(** [post(Nodes, Symbol)] *)
Fixpoint post_nodes_symb_loop (aut : Afa) (sy : Symbol) (nodes : Nodes)
    (result : StateClosedSet) : Outcome StateClosedSet :=
  match nodes with
  | [] => Ok result
  | node :: nodes' =>
      p ← post_node_symb aut node sy;
      post_nodes_symb_loop aut sy nodes'
        (ClosedSet.insert_nodes result (ClosedSet.antichain p))
  end.

Definition post_nodes_symb (aut : Afa) (nodes : Nodes) (sy : Symbol)
    : Outcome StateClosedSet :=
  post_nodes_symb_loop aut sy nodes (empty_set upward_closed_set aut).

Definition is_upward (cs : StateClosedSet) : bool :=
  match ClosedSet.type_ cs with
  | upward_closed_set => true
  | downward_closed_set => false
  end.

(** [post(StateClosedSet, Symbol)] *)
Definition post_closed_symb (aut : Afa) (closed_set : StateClosedSet)
    (sy : Symbol) : Outcome StateClosedSet :=
  _ ← assert (is_upward closed_set);
  post_nodes_symb aut (ClosedSet.antichain closed_set) sy.

(** [post(Node)]: the symbols tried are those leaving the least state *)
Fixpoint post_node_loop (aut : Afa) (node : Node) (row : list Trans)
    (result : StateClosedSet) : Outcome StateClosedSet :=
  match row with
  | [] => Ok result
  | transVec :: row' =>
      p ← post_node_symb aut node (symb transVec);
      post_node_loop aut node row'
        (ClosedSet.insert_nodes result (ClosedSet.antichain p))
  end.

Definition post_node (aut : Afa) (node : Node) : Outcome StateClosedSet :=
  match node with
  | [] => Ok (ClosedSet.mk upward_closed_set 0 (max_state aut) [[]])
  | least :: _ =>
      row ← index (transRelation aut) least;
      post_node_loop aut node row (empty_set upward_closed_set aut)
  end.

(** [post(Nodes)] *)
Fixpoint post_nodes_loop (aut : Afa) (nodes : Nodes)
    (result : StateClosedSet) : Outcome StateClosedSet :=
  match nodes with
  | [] => Ok result
  | node :: nodes' =>
      p ← post_node aut node;
      post_nodes_loop aut nodes'
        (ClosedSet.insert_nodes result (ClosedSet.antichain p))
  end.

Definition post_nodes (aut : Afa) (nodes : Nodes) : Outcome StateClosedSet :=
  post_nodes_loop aut nodes (empty_set upward_closed_set aut).

(** Modelled from the spec: [post(StateClosedSet)] is defined in
    [mata/afa.hh], which is not part of the sources at hand; section 4.8
    lifts [post] to a closed set through its antichain. *)
Definition post_closed (aut : Afa) (closed_set : StateClosedSet)
    : Outcome StateClosedSet :=
  post_nodes aut (ClosedSet.antichain closed_set).

(** *** The backward predicate transformer *)

(** the loops of [pre(Node, Symbol)] *)
Fixpoint pre_collect (node : Node) (candidates : list InverseResults)
    (result : Node) : Node :=
  match candidates with
  | [] => result
  | candidate :: candidates' =>
      if OrdVector.IsSubsetOf state_cmp (sharing_list candidate) node then
        pre_collect node candidates'
          (foldl (λ acc el, OrdVector.insert state_cmp el acc)
                 result (result_nodes candidate))
      else pre_collect node candidates' result
  end.

(** [pre(Node, Symbol)] *)
Definition pre_node_symb (aut : Afa) (node : Node) (sy : Symbol)
    : Outcome StateClosedSet :=
  candidates ← perform_inverse_trans_node aut node sy;
  Ok (ClosedSet.of_node downward_closed_set 0 (max_state aut)
        (pre_collect node candidates [])).

(** [pre(Nodes, Symbol)] *)
Fixpoint pre_nodes_symb_loop (aut : Afa) (sy : Symbol) (nodes : Nodes)
    (result : StateClosedSet) : Outcome StateClosedSet :=
  match nodes with
  | [] => Ok result
  | node :: nodes' =>
      p ← pre_node_symb aut node sy;
      pre_nodes_symb_loop aut sy nodes' (ClosedSet.Union result p)
  end.

Definition pre_nodes_symb (aut : Afa) (nodes : Nodes) (sy : Symbol)
    : Outcome StateClosedSet :=
  pre_nodes_symb_loop aut sy nodes (empty_set downward_closed_set aut).

(** [pre(StateClosedSet, Symbol)] *)
Definition pre_closed_symb (aut : Afa) (closed_set : StateClosedSet)
    (sy : Symbol) : Outcome StateClosedSet :=
  _ ← assert (negb (is_upward closed_set));
  pre_nodes_symb aut (ClosedSet.antichain closed_set) sy.

(** [pre(Node)]: the symbols tried are those of the inverse bucket of the
    least state *)
Fixpoint pre_node_loop (aut : Afa) (node : Node) (bucket : list InverseTrans)
    (result : StateClosedSet) : Outcome StateClosedSet :=
  match bucket with
  | [] => Ok result
  | transVec :: bucket' =>
      p ← pre_node_symb aut node (inv_symb transVec);
      pre_node_loop aut node bucket'
        (ClosedSet.insert_nodes result (ClosedSet.antichain p))
  end.

Definition pre_node (aut : Afa) (node : Node) : Outcome StateClosedSet :=
  match node with
  | [] => Ok (ClosedSet.mk downward_closed_set 0 (max_state aut) [[]])
  | least :: _ =>
      bucket ← index (inverseTransRelation aut) least;
      pre_node_loop aut node bucket (empty_set downward_closed_set aut)
  end.

(** [pre(Nodes)] *)
Fixpoint pre_nodes_loop (aut : Afa) (nodes : Nodes)
    (result : StateClosedSet) : Outcome StateClosedSet :=
  match nodes with
  | [] => Ok result
  | node :: nodes' =>
      p ← pre_node aut node;
      pre_nodes_loop aut nodes'
        (ClosedSet.insert_nodes result (ClosedSet.antichain p))
  end.

Definition pre_nodes (aut : Afa) (nodes : Nodes) : Outcome StateClosedSet :=
  pre_nodes_loop aut nodes (empty_set downward_closed_set aut).

(** Modelled from the spec: [pre(StateClosedSet)] is defined in
    [mata/afa.hh], which is not part of the sources at hand; section 4.8
    lifts [pre] to a closed set through its antichain. *)
Definition pre_closed (aut : Afa) (closed_set : StateClosedSet)
    : Outcome StateClosedSet :=
  pre_nodes aut (ClosedSet.antichain closed_set).

(** *** Initial, final and goal regions *)

(** the states [0 .. size-1] in the order of the [for] loops *)
Definition states (aut : Afa) : list State := seq 0 (length (transRelation aut)).

Definition get_initial_nodes (aut : Afa) : StateClosedSet :=
  foldl (λ result state,
           if has_initial aut state then ClosedSet.insert_state result state
           else result)
        (empty_set upward_closed_set aut) (states aut).

Definition get_non_initial_nodes (aut : Afa) : StateClosedSet :=
  let subresult :=
    foldl (λ subresult state,
             if negb (has_initial aut state)
             then OrdVector.insert state_cmp state subresult
             else subresult)
          [] (states aut) in
  ClosedSet.of_node downward_closed_set 0 (max_state aut) subresult.

Definition get_final_nodes (aut : Afa) : StateClosedSet :=
  let subresult :=
    foldl (λ subresult state,
             if has_final aut state
             then OrdVector.insert state_cmp state subresult
             else subresult)
          [] (states aut) in
  ClosedSet.of_node downward_closed_set 0 (max_state aut) subresult.

Definition get_non_final_nodes (aut : Afa) : StateClosedSet :=
  foldl (λ result state,
           if negb (has_final aut state) then ClosedSet.insert_state result state
           else result)
        (empty_set upward_closed_set aut) (states aut).

(** *** Emptiness tests *)

(** The [while] loops are bounded by [fuel]; [OutOfFuel] is returned when
    the bound is reached before the loop exits. *)

Fixpoint forward_old_loop (fuel : nat) (aut : Afa)
    (goal current next : StateClosedSet) : Outcome bool :=
  if ClosedSet.eqb current next then Ok true
  else
    match fuel with
    | 0 => OutOfFuel
    | S fuel' =>
        let current := next in
        p ← post_closed aut current;
        let next := ClosedSet.Union current p in
        if negb (ClosedSet.le next goal) then Ok false
        else forward_old_loop fuel' aut goal current next
    end.

Definition antichain_concrete_forward_emptiness_test_old
    (fuel : nat) (aut : Afa) : Outcome bool :=
  let goal := get_non_final_nodes aut in
  let current := ClosedSet.default in
  let next := get_initial_nodes aut in
  forward_old_loop fuel aut goal current next.

Fixpoint backward_old_loop (fuel : nat) (aut : Afa)
    (goal current next : StateClosedSet) : Outcome bool :=
  if ClosedSet.eqb current next then Ok true
  else
    match fuel with
    | 0 => OutOfFuel
    | S fuel' =>
        let current := next in
        p ← pre_closed aut current;
        let next := ClosedSet.Union current p in
        if negb (ClosedSet.le next goal) then Ok false
        else backward_old_loop fuel' aut goal current next
    end.

Definition antichain_concrete_backward_emptiness_test_old
    (fuel : nat) (aut : Afa) : Outcome bool :=
  let goal := get_non_initial_nodes aut in
  let current := ClosedSet.default in
  let next := get_final_nodes aut in
  backward_old_loop fuel aut goal current next.

(** [worklist.back()] with [worklist.pop_back()] *)
Definition pop_back (worklist : list Node) : option (Node * list Node) :=
  match reverse worklist with
  | [] => None
  | current :: rest => Some (current, reverse rest)
  end.

(** the inner [for] loop of the worklist variants; [None] stands for the
    [return false] inside it *)
Fixpoint scan_successors (goal : StateClosedSet) (processed : gset Node)
    (nodes : Nodes) (worklist : list Node) : option (list Node) :=
  match nodes with
  | [] => Some worklist
  | node :: nodes' =>
      if negb (ClosedSet.contains goal node) then None
      else if negb (bool_decide (node ∈ processed)) then
        scan_successors goal processed nodes' (worklist ++ [node])
      else scan_successors goal processed nodes' worklist
  end.

Fixpoint forward_new_loop (fuel : nat) (aut : Afa)
    (goal result : StateClosedSet) (processed : gset Node)
    (worklist : list Node) : Outcome bool :=
  match pop_back worklist with
  | None => Ok true
  | Some (current, worklist) =>
      match fuel with
      | 0 => OutOfFuel
      | S fuel' =>
          post_current ← post_node aut current;
          let result := ClosedSet.Union result post_current in
          match scan_successors goal processed
                  (ClosedSet.antichain post_current) worklist with
          | None => Ok false
          | Some worklist =>
              forward_new_loop fuel' aut goal result
                ({[current]} ∪ processed) worklist
          end
      end
  end.

Definition antichain_concrete_forward_emptiness_test_new
    (fuel : nat) (aut : Afa) : Outcome bool :=
  let goal := get_non_final_nodes aut in
  let result := get_initial_nodes aut in
  let processed : gset Node := ∅ in
  let worklist := ClosedSet.antichain (get_initial_nodes aut) in
  if negb (ClosedSet.le result goal) then Ok false
  else forward_new_loop fuel aut goal result processed worklist.

Fixpoint backward_new_loop (fuel : nat) (aut : Afa)
    (goal result : StateClosedSet) (processed : gset Node)
    (worklist : list Node) : Outcome bool :=
  match pop_back worklist with
  | None => Ok true
  | Some (current, worklist) =>
      match fuel with
      | 0 => OutOfFuel
      | S fuel' =>
          pre_current ← pre_node aut current;
          let result := ClosedSet.Union result pre_current in
          match scan_successors goal processed
                  (ClosedSet.antichain pre_current) worklist with
          | None => Ok false
          | Some worklist =>
              backward_new_loop fuel' aut goal result
                ({[current]} ∪ processed) worklist
          end
      end
  end.

Definition antichain_concrete_backward_emptiness_test_new
    (fuel : nat) (aut : Afa) : Outcome bool :=
  let goal := get_non_initial_nodes aut in
  let result := get_final_nodes aut in
  let processed : gset Node := ∅ in
  let worklist := ClosedSet.antichain (get_final_nodes aut) in
  if negb (ClosedSet.le result goal) then Ok false
  else backward_new_loop fuel aut goal result processed worklist.

(** *** Counting and the empty word *)

(** [trans_size]: the sum is taken in [size_t] *)
Definition trans_size (aut : Afa) : N :=
  foldl (λ result state, ((result + N.of_nat (length state)) mod 2 ^ 64)%N)
        0%N (transRelation aut).

(** [accepts_epsilon]: [haskey] is membership in the set *)
Definition accepts_epsilon (aut : Afa) : bool :=
  existsb (λ st, bool_decide (st ∈ finalstates aut))
          (merge_sort (≤) (elements (initialstates aut))).

(** *** Serialization *)

(** [Mata::Parser::ParsedSection]: a type tag, a dictionary of string
    lists and a body of token lines *)
Record ParsedSection := mkParsedSection {
  type : string;
  dict : gmap string (list string);
  body : list (list string)
}.

Definition TYPE_AFA : string := "AFA".

(** [std::to_string] on an unsigned number *)
Definition to_string (n : nat) : string := pretty n.

(** the two lambdas bound to [state_namer]; [None] is the null pointer *)
Definition state_namer (state_map : option (gmap State string)) (st : State)
    : bool * string :=
  match state_map with
  | None => (true, "q" +:+ to_string st)
  | Some m =>
      match m !! st with
      | Some name => (true, name)
      | None => (false, "")
      end
  end.

(** the two lambdas bound to [symbol_namer] *)
Definition symbol_namer (symbol_map : option (gmap Symbol string)) (sym : Symbol)
    : bool * string :=
  match symbol_map with
  | None => (true, "a" +:+ to_string sym)
  | Some m =>
      match m !! sym with
      | Some name => (true, name)
      | None => (false, "")
      end
  end.

(** the loops filling [init_states] and [fin_states] *)
Fixpoint name_states (namer : State → bool * string) (sts : list State)
    (names : list string) : Outcome (list string) :=
  match sts with
  | [] => Ok names
  | s :: sts' =>
      let bsp := namer s in
      if negb (fst bsp) then Thrown ("cannot translate state " +:+ to_string s)
      else name_states namer sts' (names ++ [snd bsp])
  end.

(** a [std::set<State>] is traversed in increasing order *)
Definition in_order (s : gset State) : list State := merge_sort (≤) (elements s).

(** [symbol_namer] is set up and never called: the body of the section is
    left empty where the source says "TODO: transitions serialization". *)
Definition serialize (aut : Afa) (symbol_map : option (gmap Symbol string))
    (state_map : option (gmap State string)) : Outcome ParsedSection :=
  let parsec := mkParsedSection TYPE_AFA ∅ [] in
  let _unused := symbol_namer symbol_map in
  init_states ← name_states (state_namer state_map) (in_order (initialstates aut)) [];
  let parsec :=
    mkParsedSection (type parsec) (<["Initial" := init_states]> (dict parsec))
                    (body parsec) in
  fin_states ← name_states (state_namer state_map) (in_order (finalstates aut)) [];
  let parsec :=
    mkParsedSection (type parsec) (<["Final" := fin_states]> (dict parsec))
                    (body parsec) in
  Ok parsec.

(** *** Reading a section: [construct] *)

(** the quotation mark of the message of [construct] *)
Definition quote : string := String (Ascii.ascii_of_nat 34) EmptyString.

(** The objects [construct] updates in place: the automaton behind [aut],
    the map behind [state_map] and the counter [cnt_state]. *)
Record Parse := mkParse {
  parsed : Afa;
  state_names : gmap string State;
  cnt_state : State
}.

(** the lambda [get_state_name]: [insert] leaves a name that is in the map
    alone, and the counter moves only when the name is new *)
Definition get_state_name (ps : Parse) (str : string) : State * Parse :=
  match state_names ps !! str with
  | None =>
      (cnt_state ps,
       mkParse (parsed ps) (<[str := cnt_state ps]> (state_names ps))
               (S (cnt_state ps)))
  | Some st => (st, ps)
  end.

(** [aut->initialstates.insert(state)] and [aut->finalstates.insert(state)] *)
Definition insert_initial (aut : Afa) (state : State) : Afa :=
  mkAfa (transRelation aut) (inverseTransRelation aut)
        ({[state]} ∪ initialstates aut) (finalstates aut).
Definition insert_final (aut : Afa) (state : State) : Afa :=
  mkAfa (transRelation aut) (inverseTransRelation aut)
        (initialstates aut) ({[state]} ∪ finalstates aut).

(** the bodies of the loops over the lists under Initial and Final *)
Definition enter_initial (ps : Parse) (str : string) : Parse :=
  let '(state, ps) := get_state_name ps str in
  mkParse (insert_initial (parsed ps) state) (state_names ps) (cnt_state ps).
Definition enter_final (ps : Parse) (str : string) : Parse :=
  let '(state, ps) := get_state_name ps str in
  mkParse (insert_final (parsed ps) state) (state_names ps) (cnt_state ps).

Section construct.
(** [std::to_string] on a vector of strings is declared in a header that
    is not part of the sources at hand; it is kept as a parameter. *)
Variable line_to_string : list string → string.

(** The loop over the body.  The formula of a line is put together and
    dropped: only the name of the source state is looked up. *)
Fixpoint body_loop (ps : Parse) (body : list (list string))
    : Parse * Outcome unit :=
  match body with
  | [] => (ps, Ok tt)
  | body_line :: body' =>
      if length body_line <? 2 then
        (ps, Thrown ("Invalid transition: " +:+ line_to_string body_line))
      else
        match body_line !! 0 with
        | None => (ps, Undefined)
        | Some name =>
            let '(src_state, ps) := get_state_name ps name in
            let formula :=
              foldl (λ formula tok, formula +:+ tok +:+ " ") ""
                    (drop 1 body_line) in
            body_loop ps body'
        end
  end.

(** [construct] with an alphabet, which it never uses.  [aut] and
    [alphabet] are taken to be valid pointers; [state_map] is [None] for
    the null pointer, and then the map made by [construct] is deleted
    before it returns or throws.  The result is the automaton and the
    caller's map as the call leaves them, and the outcome. *)
Definition construct (aut : Afa) (parsec : ParsedSection)
    (state_map : option (gmap string State))
    : Afa * option (gmap string State) * Outcome unit :=
  if bool_decide (type parsec ≠ TYPE_AFA) then
    (aut, state_map,
     Thrown ("construct: expecting type " +:+ quote +:+ TYPE_AFA +:+ quote))
  else
    let ps := mkParse aut (default ∅ state_map) 0 in
    let ps :=
      match dict parsec !! "Initial" with
      | Some strs => foldl enter_initial ps strs
      | None => ps
      end in
    let ps :=
      match dict parsec !! "Final" with
      | Some strs => foldl enter_final ps strs
      | None => ps
      end in
    let '(ps, out) := body_loop ps (body parsec) in
    (parsed ps, (λ _, state_names ps) <$> state_map, out).

End construct.

(** *** Vocabulary of the statements *)

(** the names listed under a key of the dictionary *)
Definition listed (parsec : ParsedSection) (key : string) : list string :=
  default [] (dict parsec !! key).

(** the map and the counter number the names without gaps *)
Record numbered (ps : Parse) : Prop := mk_numbered {
  numbered_inj : ∀ n1 n2 st,
    state_names ps !! n1 = Some st → state_names ps !! n2 = Some st → n1 = n2;
  numbered_onto : ∀ st,
    st < cnt_state ps ↔ ∃ name, state_names ps !! name = Some st
}.

(** what a part of [construct] may change: the names only grow, the
    transitions stay *)
Record grows (ps ps' : Parse) : Prop := mk_grows {
  grows_names : state_names ps ⊆ state_names ps';
  grows_trans : transRelation (parsed ps') = transRelation (parsed ps);
  grows_inverse :
    inverseTransRelation (parsed ps') = inverseTransRelation (parsed ps);
  grows_initial : initialstates (parsed ps) ⊆ initialstates (parsed ps');
  grows_final : finalstates (parsed ps) ⊆ finalstates (parsed ps');
  grows_numbered : numbered ps → numbered ps'
}.

(** the first entry stored for a state and a symbol, if any *)
Definition entry (aut : Afa) (s : State) (sy : Symbol) : option Trans :=
  row ← transRelation aut !! s;
  List.find (λ t, symb t =? sy) row.

(** the first entry of the inverse bucket of a state for a symbol, if any *)
Definition inverse_entry (aut : Afa) (s : State) (sy : Symbol)
    : option InverseTrans :=
  bucket ← inverseTransRelation aut !! s;
  List.find (λ e, inv_symb e =? sy) bucket.

(** every node stored in the transition relation is an ordered vector *)
Definition stored_sorted (aut : Afa) : Prop :=
  ∀ row t, row ∈ transRelation aut → t ∈ row → ClosedSet.sorted_nodes (dst t).

(** *** Small automata used by the examples *)

(** states 0, 1, 2; state 0 initial; states 1 and 2 final; the only
    transition is 0 -a-> {{2}} (with [a] the symbol 0), entered in both
    relations *)
Definition three_states : Afa := mkAfa [[]; []; []] [[]; []; []] {[0]} {[1; 2]}.

Definition one_step : Outcome Afa :=
  aut ← add_trans three_states (mkTrans 0 0 [[2]]);
  add_inverse_trans aut (mkTrans 0 0 [[2]]).

(** states 0, 1, 2; state 1 initial; state 2 final; the transitions
    0 -a-> {{2}} and 1 -a-> {{2}}, each entered in both relations *)
Definition two_sources : Outcome Afa :=
  let aut := mkAfa [[]; []; []] [[]; []; []] {[1]} {[2]} in
  aut ← add_trans aut (mkTrans 0 0 [[2]]);
  aut ← add_inverse_trans aut (mkTrans 0 0 [[2]]);
  aut ← add_trans aut (mkTrans 1 0 [[2]]);
  add_inverse_trans aut (mkTrans 1 0 [[2]]).

(** a way of writing a line: its tokens in a row *)
Definition concat_line (line : list string) : string :=
  foldr (λ tok acc, tok +:+ " " +:+ acc) "" line.

(** one state, both initial and final, and no transition *)
Definition one_accepting : Afa := mkAfa [[]] [[]] {[0]} {[0]}.

(** an automaton with two states and nothing else *)
Definition two_states : Afa := mkAfa [[]; []] [[]; []] ∅ ∅.

(** an automaton with the transitions 0 -a-> {{0},{1}} and 1 -a-> {{1}} *)
Definition two_moves : Afa :=
  mkAfa [[mkTrans 0 0 [[0]; [1]]]; [mkTrans 1 0 [[1]]]] [[]; []] ∅ ∅.

End Afa.

(** ** Product of two NFAs: [nfa-intersection.cc] *)

Module Nfa.

Record Move := mkMove { symbol : Symbol; states_to : list State }.

(** [initial_states], [final_states] and [states_to] are [StateSet]s,
    that is [OrdVector<State>]. *)
Record Nfa := mkNfa {
  transition_relation : list (list Move);
  initial_states : list State;
  final_states : list State
}.

(** [Nfa product{}] *)
Definition empty_nfa : Nfa := mkNfa [] [] [].

(** Modelled from the spec: [Nfa::add_state], [Nfa::add_final] and
    [Nfa::has_final] are defined in [mata/nfa.hh], which is not part of the
    sources at hand.  By section 4.3 [add_state] appends a fresh state id,
    [add_final] and [has_final] insert into and test the final set. *)
Definition add_state (aut : Nfa) : Nfa * State :=
  (mkNfa (transition_relation aut ++ [[]]) (initial_states aut) (final_states aut),
   length (transition_relation aut)).

Definition add_final (aut : Nfa) (s : State) : Nfa :=
  mkNfa (transition_relation aut) (initial_states aut)
        (OrdVector.insert state_cmp s (final_states aut)).

Definition has_final (aut : Nfa) (s : State) : bool :=
  OrdVector.count state_cmp s (final_states aut).

(** [initial_states.push_back] and [final_states.push_back] *)
Definition push_initial (aut : Nfa) (s : State) : Nfa :=
  mkNfa (transition_relation aut) (initial_states aut ++ [s]) (final_states aut).
Definition push_final (aut : Nfa) (s : State) : Nfa :=
  mkNfa (transition_relation aut) (initial_states aut) (final_states aut ++ [s]).

Definition with_row (aut : Nfa) (r : State) (row : list Move) : Nfa :=
  mkNfa (<[r := row]> (transition_relation aut)) (initial_states aut)
        (final_states aut).

(** Modelled from the spec: [Mata::Util::SynchronizedUniverzalIterator] is
    not part of the sources at hand.  By section 4.2 it walks the move lists
    in lockstep and yields, in increasing symbol order, the entries whose
    symbol is present in every list. *)
Fixpoint synchronize (l1 : list Move) : list Move → list (Move * Move) :=
  fix advance (l2 : list Move) : list (Move * Move) :=
    match l1, l2 with
    | [], _ => []
    | _, [] => []
    | m1 :: l1', m2 :: l2' =>
        match Nat.compare (symbol m1) (symbol m2) with
        | Lt => synchronize l1' l2
        | Eq => (m1, m2) :: synchronize l1' l2'
        | Gt => advance l2'
        end
    end.

(** the three objects the construction updates in place *)
Record Build := mkBuild {
  product : Nfa;
  product_map : gmap (State * State) State;
  pairs_to_process : gset (State * State)
}.

(** [product_map[key]] on a [std::unordered_map]: a missing key is entered
    with the value 0 *)
Definition map_index (m : gmap (State * State) State) (key : State * State)
    : State * gmap (State * State) State :=
  match m !! key with
  | Some v => (v, m)
  | None => (0, <[key := 0]> m)
  end.

Definition union_to_left (receivingSet addedSet : list State) : list State :=
  OrdVector.Union state_cmp receivingSet addedSet.

(** Modelled from the spec: [find] on a move list looks an entry up by its
    symbol (section 4.2).  [union_into] is the [else] branch of
    [add_product_transition] applied to the entry found, and [None] when
    [find] returns [end()]. *)
Fixpoint union_into (mv : Move) (row : list Move) : option (list Move) :=
  match row with
  | [] => None
  | m :: row' =>
      if symbol m =? symbol mv then
        Some (mkMove (symbol m) (union_to_left (states_to m) (states_to mv))
              :: row')
      else (m ::.) <$> union_into mv row'
  end.

Definition add_product_transition (b : Build) (pair_to_process : State * State)
    (intersection_transition : Move) : Outcome Build :=
  match states_to intersection_transition with
  | [] => Ok b
  | _ =>
      let '(r, pm) := map_index (product_map b) pair_to_process in
      intersect_state_transitions ← index (transition_relation (product b)) r;
      let row :=
        match union_into intersection_transition intersect_state_transitions with
        | None => intersect_state_transitions ++ [intersection_transition]
        | Some row => row
        end in
      Ok (mkBuild (with_row (product b) r row) pm (pairs_to_process b))
  end.

Definition create_product_state_and_trans (lhs rhs : Nfa) (b : Build)
    (lhs_state_to rhs_state_to : State) (intersect_transitions : Move)
    : Build * Move :=
  let intersect_state_pair_to := (lhs_state_to, rhs_state_to) in
  let '(b, intersect_state_to) :=
    match product_map b !! intersect_state_pair_to with
    | None =>
        let '(prod, intersect_state_to) := add_state (product b) in
        let pm := <[intersect_state_pair_to := intersect_state_to]> (product_map b) in
        let pairs := {[intersect_state_pair_to]} ∪ pairs_to_process b in
        let prod :=
          if has_final lhs lhs_state_to && has_final rhs rhs_state_to
          then add_final prod intersect_state_to else prod in
        (mkBuild prod pm pairs, intersect_state_to)
    | Some intersect_state_to => (b, intersect_state_to)
    end in
  (b, mkMove (symbol intersect_transitions)
             (OrdVector.insert state_cmp intersect_state_to
                (states_to intersect_transitions))).

(** a transition [r -sy-> r'] of an automaton *)
Definition has_transition (aut : Nfa) (r : State) (sy : Symbol) (r' : State)
    : Prop :=
  ∃ row mv, transition_relation aut !! r = Some row ∧ mv ∈ row ∧
            symbol mv = sy ∧ r' ∈ states_to mv.

(** [b'] extends [b]: the map and the transitions only grow, and the keys
    that are new are exactly the pairs that became pending *)
Record ext (b b' : Build) : Prop := mk_ext {
  ext_map : ∀ k v, product_map b !! k = Some v → product_map b' !! k = Some v;
  ext_transition : ∀ r sy r',
    has_transition (product b) r sy r' → has_transition (product b') r sy r';
  ext_pending : pairs_to_process b ⊆ pairs_to_process b';
  ext_new : ∀ k, product_map b !! k = None → is_Some (product_map b' !! k) →
                 k ∈ pairs_to_process b';
  ext_old : ∀ k, k ∈ pairs_to_process b' →
                 k ∈ pairs_to_process b ∨ product_map b !! k = None
}.

(** a move list ordered by symbol, each symbol at most once *)
Definition sorted_moves (row : list Move) : Prop :=
  StronglySorted (λ m1 m2, symbol m1 < symbol m2) row.

(** the states an automaton refers to are states of the automaton *)
Definition well_formed (aut : Nfa) : Prop :=
  (∀ s, s ∈ initial_states aut → s < length (transition_relation aut)) ∧
  (∀ row mv s, row ∈ transition_relation aut → mv ∈ row → s ∈ states_to mv →
               s < length (transition_relation aut)).

Section intersection.
(** [EPSILON] is declared in [mata/nfa.hh], which is not part of the
    sources at hand; it is kept as a parameter. *)
Variable EPSILON : Symbol.
Variables lhs rhs : Nfa.

(** the initialisation loops *)
Definition init_pair (b : Build) (pair : State * State) : Build :=
  let '(prod, new_intersection_state) := add_state (product b) in
  let pm := <[pair := new_intersection_state]> (product_map b) in
  let pairs := {[pair]} ∪ pairs_to_process b in
  let prod := push_initial prod new_intersection_state in
  let prod :=
    if has_final lhs (fst pair) && has_final rhs (snd pair)
    then push_final prod new_intersection_state else prod in
  mkBuild prod pm pairs.

Definition initial_pairs : list (State * State) :=
  lhs_initial_state ← initial_states lhs;
  rhs_initial_state ← initial_states rhs;
  [(lhs_initial_state, rhs_initial_state)].

Definition init_build : Build :=
  foldl init_pair (mkBuild empty_nfa ∅ ∅) initial_pairs.

(** the loops calling [create_product_state_and_trans] for a list of
    target pairs *)
Definition create_all (b : Build) (targets : list (State * State))
    (intersection_transition : Move) : Build * Move :=
  foldl (λ acc target,
           create_product_state_and_trans lhs rhs (fst acc)
             (fst target) (snd target) (snd acc))
        (b, intersection_transition) targets.

(** the body of [while (sui.advance())] *)
Definition classic_step (pair_to_process : State * State) (b : Build)
    (moves : Move * Move) : Outcome Build :=
  let targets :=
    this_state_to ← states_to (fst moves);
    other_state_to ← states_to (snd moves);
    [(this_state_to, other_state_to)] in
  let '(b, intersection_transition) :=
    create_all b targets (mkMove (symbol (fst moves)) []) in
  add_product_transition b pair_to_process intersection_transition.

Fixpoint classic_steps (pair_to_process : State * State) (b : Build)
    (groups : list (Move * Move)) : Outcome Build :=
  match groups with
  | [] => Ok b
  | moves :: groups' =>
      b' ← classic_step pair_to_process b moves;
      classic_steps pair_to_process b' groups'
  end.

(** one of the two blocks under [if (preserve_epsilon)]; [targets_of]
    pairs a target of the epsilon move with the other component *)
Definition epsilon_step (pair_to_process : State * State) (b : Build)
    (state_symbol_transitions : list Move)
    (targets_of : State → State * State) : Outcome Build :=
  match last state_symbol_transitions with
  | None => Ok b
  | Some state_last_transitions =>
      if symbol state_last_transitions =? EPSILON then
        let '(b, intersection_transition) :=
          create_all b (targets_of <$> states_to state_last_transitions)
                     (mkMove EPSILON []) in
        add_product_transition b pair_to_process intersection_transition
      else Ok b
  end.

(** the body of the worklist loop for the pair taken from
    [pairs_to_process] *)
Definition process_pair (preserve_epsilon : bool)
    (pair_to_process : State * State) (b : Build) : Outcome Build :=
  let b := mkBuild (product b) (product_map b)
                   (pairs_to_process b ∖ {[pair_to_process]}) in
  lhs_moves ← index (transition_relation lhs) (fst pair_to_process);
  rhs_moves ← index (transition_relation rhs) (snd pair_to_process);
  b ← classic_steps pair_to_process b (synchronize lhs_moves rhs_moves);
  if preserve_epsilon then
    b ← epsilon_step pair_to_process b lhs_moves
          (λ lhs_state_to, (lhs_state_to, snd pair_to_process));
    epsilon_step pair_to_process b rhs_moves
          (λ rhs_state_to, (fst pair_to_process, rhs_state_to))
  else Ok b.

(** [*pairs_to_process.cbegin()] yields some element of the unordered set;
    a step of the construction processes any pending pair. *)
Definition step (preserve_epsilon : bool) (b b' : Build) : Prop :=
  ∃ pair_to_process,
    pair_to_process ∈ pairs_to_process b ∧
    process_pair preserve_epsilon pair_to_process b = Ok b'.

(** the states of the construction *)
Definition reachable (preserve_epsilon : bool) (b : Build) : Prop :=
  rtc (step preserve_epsilon) init_build b.

(** The construction run with a bounded number of iterations, taking the
    first pending pair of the enumeration of the set. *)
Fixpoint worklist_loop (fuel : nat) (preserve_epsilon : bool) (b : Build)
    : Outcome Build :=
  match elements (pairs_to_process b) with
  | [] => Ok b
  | pair_to_process :: _ =>
      match fuel with
      | 0 => OutOfFuel
      | S fuel' =>
          b' ← process_pair preserve_epsilon pair_to_process b;
          worklist_loop fuel' preserve_epsilon b'
      end
  end.

Definition intersection (fuel : nat) (preserve_epsilon : bool)
    : Outcome (Nfa * gmap (State * State) State) :=
  b ← worklist_loop fuel preserve_epsilon init_build;
  Ok (product b, product_map b).

(** *** Vocabulary of the statements *)

(** the pairs of a state of [lhs] and a state of [rhs] *)
Definition in_range (k : State * State) : Prop :=
  k.1 < length (transition_relation lhs) ∧
  k.2 < length (transition_relation rhs).

Definition universe : gset (State * State) :=
  list_to_set (p ← seq 0 (length (transition_relation lhs));
               q ← seq 0 (length (transition_relation rhs));
               [(p, q)]).

(** the keys of the map are such pairs *)
Definition ranged (b : Build) : Prop :=
  ∀ k, is_Some (product_map b !! k) → in_range k.

(** the pairs that have been taken from the pending set *)
Definition processed (b : Build) : gset (State * State) :=
  dom (product_map b) ∖ pairs_to_process b.

(** what holds of every state of the construction *)
Record inv (b : Build) : Prop := mk_inv {
  inv_pending : ∀ k, k ∈ pairs_to_process b → is_Some (product_map b !! k);
  inv_map_bound : ∀ k r,
    product_map b !! k = Some r → r < length (transition_relation (product b));
  inv_final_bound : ∀ r,
    r ∈ final_states (product b) → r < length (transition_relation (product b));
  inv_final : ∀ p q r,
    product_map b !! (p, q) = Some r →
    r ∈ final_states (product b) ↔
      has_final lhs p = true ∧ has_final rhs q = true
}.

(** the build once the pair taken has been erased from the pending set *)
Definition erased (b : Build) (pair : State * State) : Build :=
  mkBuild (product b) (product_map b) (pairs_to_process b ∖ {[pair]}).

(** the epsilon moves of the left (right) component of a pair are in the
    product *)
Definition eps_lhs (b : Build) (p q : State) : Prop :=
  ∀ row mv p',
    transition_relation lhs !! p = Some row → last row = Some mv →
    symbol mv = EPSILON → p' ∈ states_to mv →
    ∃ r r', product_map b !! (p, q) = Some r ∧
            product_map b !! (p', q) = Some r' ∧
            has_transition (product b) r EPSILON r'.

Definition eps_rhs (b : Build) (p q : State) : Prop :=
  ∀ row mv q',
    transition_relation rhs !! q = Some row → last row = Some mv →
    symbol mv = EPSILON → q' ∈ states_to mv →
    ∃ r r', product_map b !! (p, q) = Some r ∧
            product_map b !! (p, q') = Some r' ∧
            has_transition (product b) r EPSILON r'.

(** the processed pairs have their epsilon moves in the product *)
Definition inv_eps (b : Build) : Prop :=
  ∀ p q, is_Some (product_map b !! (p, q)) → (p, q) ∉ pairs_to_process b →
         eps_lhs b p q ∧ eps_rhs b p q.

(** the two kinds of updates the construction is made of: entering a
    pair, and writing a move of a pair that is in the map *)
Inductive micro : Build → Build → Prop :=
  | micro_create b l r it :
      micro b (create_product_state_and_trans lhs rhs b l r it).1
  | micro_add b pair it b' :
      is_Some (product_map b !! pair) →
      add_product_transition b pair it = Ok b' →
      micro b b'.

(** the shape of the product and of the map *)
Record shape (b : Build) : Prop := mk_shape {
  shape_unique : ∀ r row,
    transition_relation (product b) !! r = Some row → NoDup (symbol <$> row);
  shape_inj : ∀ k1 k2 r,
    product_map b !! k1 = Some r → product_map b !! k2 = Some r → k1 = k2;
  shape_bound : ∀ k r,
    product_map b !! k = Some r → r < length (transition_relation (product b));
  shape_initial_bound : ∀ r,
    r ∈ initial_states (product b) → r < length (transition_relation (product b));
  shape_initial : ∀ p q r,
    product_map b !! (p, q) = Some r →
    r ∈ initial_states (product b) ↔
      p ∈ initial_states lhs ∧ q ∈ initial_states rhs
}.

(** the pairs of initial states are in the map *)
Definition initial_mapped (b : Build) : Prop :=
  ∀ p q, p ∈ initial_states lhs → q ∈ initial_states rhs →
         is_Some (product_map b !! (p, q)).

(** every state of the product is the state of a pair *)
Definition onto (b : Build) : Prop :=
  ∀ r, r < length (transition_relation (product b)) →
       ∃ k, product_map b !! k = Some r.

(** a synchronous move of the two automata, and an epsilon move of one *)
Definition classic_move (p q : State) (sy : Symbol) (p' q' : State) : Prop :=
  ∃ lrow rrow m1 m2,
    transition_relation lhs !! p = Some lrow ∧
    transition_relation rhs !! q = Some rrow ∧
    m1 ∈ lrow ∧ m2 ∈ rrow ∧ symbol m1 = sy ∧ symbol m2 = sy ∧
    p' ∈ states_to m1 ∧ q' ∈ states_to m2.

Definition epsilon_move_lhs (p q : State) (sy : Symbol) (p' q' : State)
    : Prop :=
  sy = EPSILON ∧ q' = q ∧
  ∃ row mv, transition_relation lhs !! p = Some row ∧ last row = Some mv ∧
            symbol mv = EPSILON ∧ p' ∈ states_to mv.

Definition epsilon_move_rhs (p q : State) (sy : Symbol) (p' q' : State)
    : Prop :=
  sy = EPSILON ∧ p' = p ∧
  ∃ row mv, transition_relation rhs !! q = Some row ∧ last row = Some mv ∧
            symbol mv = EPSILON ∧ q' ∈ states_to mv.

(** what may label a transition from the state of (p, q) to the state of
    (p', q') *)
Definition justified (preserve_epsilon : bool) (p q : State) (sy : Symbol)
    (p' q' : State) : Prop :=
  classic_move p q sy p' q' ∨
  preserve_epsilon = true ∧
    (epsilon_move_lhs p q sy p' q' ∨ epsilon_move_rhs p q sy p' q').

(** every transition of the product is one of a pair and is justified *)
Definition sound (preserve_epsilon : bool) (b : Build) : Prop :=
  ∀ r sy r',
    has_transition (product b) r sy r' →
    ∃ p q p' q',
      product_map b !! (p, q) = Some r ∧ product_map b !! (p', q') = Some r' ∧
      justified preserve_epsilon p q sy p' q'.

(** the synchronous moves of a pair are in the product *)
Definition classic_done (b : Build) (p q : State) : Prop :=
  ∀ sy p' q',
    classic_move p q sy p' q' →
    ∃ r r', product_map b !! (p, q) = Some r ∧
            product_map b !! (p', q') = Some r' ∧
            has_transition (product b) r sy r'.

End intersection.

(** *** Small automata used by the examples *)

(** the epsilon symbol of the examples *)
Definition eps : Symbol := 100.

(** two states, 0 initial, 1 final, one move 0 -a-> {1} with [a] = 5 *)
Definition one_move : Nfa := mkNfa [[mkMove 5 [1]]; []] [0] [1].

(** two states, 0 initial, 1 final, one epsilon move 0 -> {1} *)
Definition one_epsilon : Nfa := mkNfa [[mkMove eps [1]]; []] [0] [1].

(** one state, initial and final, no move *)
Definition one_state : Nfa := mkNfa [[]] [0] [0].

End Nfa.

(** * Properties *)

(** ** Outcomes *)

Lemma bind_Ok {A B} (m : Outcome A) (f : A → Outcome B) (b : B) :
  m ≫= f = Ok b ↔ ∃ a, m = Ok a ∧ f a = Ok b.
Proof.
  destruct m; simpl; split; try (intros [? [? ?]]); try discriminate; eauto.
  intros; simplify_eq; done.
Qed.

Lemma index_Ok {A} (v : list A) i x : index v i = Ok x ↔ v !! i = Some x.
Proof. unfold index. destruct (v !! i); split; intros; simplify_eq; done. Qed.

Lemma index_Undefined {A} (v : list A) i :
  index v i = Undefined ↔ length v ≤ i.
Proof.
  unfold index. destruct (v !! i) eqn:E; split; intros H; try done.
  - apply lookup_lt_Some in E. lia.
  - by apply lookup_ge_None.
Qed.

(** ** Ordered vectors as sets *)

Module OrdVectorFacts.
Section facts.
Context {A : Type} (cmp : A → A → comparison).
Hypothesis laws : OrdVector.order_laws cmp.

#[local] Abbreviation insert := (OrdVector.insert cmp).
#[local] Abbreviation remove := (OrdVector.remove cmp).
#[local] Abbreviation count := (OrdVector.count cmp).
#[local] Abbreviation includes := (OrdVector.includes cmp).
#[local] Abbreviation IsSubsetOf := (OrdVector.IsSubsetOf cmp).
#[local] Abbreviation Union := (OrdVector.Union cmp).
#[local] Abbreviation sorted := (OrdVector.sorted cmp).
#[local] Abbreviation cmp_eq := (OrdVector.cmp_eq cmp).
#[local] Abbreviation cmp_opp := (OrdVector.cmp_opp cmp).
#[local] Abbreviation cmp_lt_trans := (OrdVector.cmp_lt_trans cmp).


Lemma cmp_refl x : cmp x x = Eq.
Proof. by apply (cmp_eq laws). Qed.

Lemma cmp_lt_neq x y : cmp x y = Lt → x ≠ y.
Proof. intros H ->. rewrite cmp_refl in H. done. Qed.

Lemma cmp_gt_lt x y : cmp x y = Gt → cmp y x = Lt.
Proof. intros H. rewrite (cmp_opp laws), H. done. Qed.

Lemma cmp_lt_asym x y : cmp x y = Lt → cmp y x = Lt → False.
Proof. intros H1 H2. rewrite (cmp_opp laws), H1 in H2. done. Qed.

Lemma elem_of_insert x v z : z ∈ insert x v ↔ z = x ∨ z ∈ v.
Proof.
  induction v as [|y v IH]; simpl.
  - set_solver.
  - destruct (cmp x y) eqn:E.
    + apply (cmp_eq laws) in E as ->. set_solver.
    + set_solver.
    + rewrite !elem_of_cons, IH. tauto.
Qed.

Lemma elem_of_remove x v z : z ∈ remove x v → z ∈ v.
Proof.
  induction v as [|y v IH]; simpl; [done|].
  destruct (cmp x y); set_solver.
Qed.

Lemma elem_of_remove_ne x v z : z ∈ v → z ≠ x → z ∈ remove x v.
Proof.
  induction v as [|y v IH]; simpl; [done|].
  intros Hz Hne. destruct (cmp x y) eqn:E.
  - apply (cmp_eq laws) in E as ->. set_solver.
  - set_solver.
  - set_solver.
Qed.

Lemma count_spec x v : count x v = true ↔ x ∈ v.
Proof.
  induction v as [|y v IH]; simpl.
  - split; [done|]. by intros ?%elem_of_nil.
  - rewrite elem_of_cons. destruct (cmp x y) eqn:E.
    + apply (cmp_eq laws) in E. tauto.
    + rewrite IH. split; [tauto|]. intros [->|?]; [|done].
      rewrite cmp_refl in E. done.
    + rewrite IH. split; [tauto|]. intros [->|?]; [|done].
      rewrite cmp_refl in E. done.
Qed.

Lemma sorted_cons x v :
  sorted (x :: v) ↔ (∀ y, y ∈ v → cmp x y = Lt) ∧ sorted v.
Proof.
  unfold sorted. rewrite StronglySorted_cons, Forall_forall. tauto.
Qed.

Lemma sorted_nil : sorted [].
Proof. constructor. Qed.

Lemma includes_spec big small :
  sorted big → sorted small →
  includes big small = true ↔ (∀ x, x ∈ small → x ∈ big).
Proof.
  revert small. induction big as [|b big IH]; intros small Hb Hs.
  - destruct small as [|s small]; simpl.
    + split; [|done]. by intros _ x ?%elem_of_nil.
    + split; [done|]. intros H. specialize (H s). set_solver.
  - destruct small as [|s small]; simpl.
    + split; [|done]. by intros _ x ?%elem_of_nil.
    + apply sorted_cons in Hb as [Hb1 Hb2].
      pose proof Hs as Hs'. apply sorted_cons in Hs' as [Hs1 Hs2].
      destruct (cmp s b) eqn:E.
      * apply (cmp_eq laws) in E as ->. rewrite (IH small Hb2 Hs2).
        split.
        -- intros H x [->|Hx]%elem_of_cons; [left|right; auto].
        -- intros H x Hx. specialize (H x).
           rewrite !elem_of_cons in H. destruct H as [->|H]; [by right| |done].
           apply Hs1 in Hx. rewrite cmp_refl in Hx. done.
      * split; [done|]. intros H. specialize (H s).
        rewrite !elem_of_cons in H. destruct H as [->|H]; [by left| |].
        -- rewrite cmp_refl in E. done.
        -- apply Hb1 in H. destruct (cmp_lt_asym _ _ E H).
      * apply cmp_gt_lt in E. rewrite (IH (s :: small) Hb2 Hs).
        split.
        -- intros H x Hx. right. auto.
        -- intros H x Hx. pose proof (H x Hx) as [->|?]%elem_of_cons; [|done].
           apply elem_of_cons in Hx as [->|Hx].
           ++ rewrite cmp_refl in E. done.
           ++ apply Hs1 in Hx. destruct (cmp_lt_asym _ _ E Hx).
Qed.

Lemma IsSubsetOf_spec small big :
  sorted small → sorted big →
  IsSubsetOf small big = true ↔ (∀ x, x ∈ small → x ∈ big).
Proof. intros. by apply includes_spec. Qed.

Lemma elem_of_Union l1 l2 z : z ∈ Union l1 l2 ↔ z ∈ l1 ∨ z ∈ l2.
Proof.
  revert l2. induction l1 as [|x l1 IH]; intros l2.
  - destruct l2; simpl; set_solver.
  - induction l2 as [|y l2 IH2].
    + simpl. set_solver.
    + simpl. destruct (cmp x y) eqn:E.
      * apply (cmp_eq laws) in E as ->.
        rewrite !elem_of_cons, IH. tauto.
      * rewrite !elem_of_cons, IH, !elem_of_cons. tauto.
      * rewrite !elem_of_cons. simpl in IH2. rewrite IH2.
        rewrite !elem_of_cons. tauto.
Qed.

Lemma sorted_Union l1 l2 : sorted l1 → sorted l2 → sorted (Union l1 l2).
Proof.
  revert l2. induction l1 as [|x l1 IH]; intros l2 H1 H2.
  - destruct l2; simpl; done.
  - induction l2 as [|y l2 IH2].
    + simpl. done.
    + pose proof H1 as H1'. pose proof H2 as H2'.
      apply sorted_cons in H1' as [H1a H1b].
      apply sorted_cons in H2' as [H2a H2b].
      simpl. destruct (cmp x y) eqn:E.
      * apply (cmp_eq laws) in E as ->.
        apply sorted_cons. split; [|by apply IH].
        intros z [?|?]%elem_of_Union; auto.
      * apply sorted_cons. split; [|by apply IH].
        intros z [?|Hz]%elem_of_Union; [auto|].
        apply elem_of_cons in Hz as [->|Hz]; [done|].
        eapply (cmp_lt_trans laws); eauto.
      * apply cmp_gt_lt in E.
        apply sorted_cons. split; [|by apply IH2].
        intros z Hz.
        assert (z ∈ Union (x :: l1) l2) as Hz' by exact Hz.
        apply elem_of_Union in Hz' as [Hz'|Hz']; [|auto].
        apply elem_of_cons in Hz' as [->|Hz']; [done|].
        eapply (cmp_lt_trans laws); eauto.
Qed.

Lemma sorted_insert x v : sorted v → sorted (insert x v).
Proof.
  induction v as [|y v IH]; simpl; intros Hv.
  - apply sorted_cons. split; [by intros ? ?%elem_of_nil|done].
  - destruct (cmp x y) eqn:E; [done| |].
    + apply sorted_cons. split; [|done].
      apply sorted_cons in Hv as [Hv1 Hv2].
      intros z [->|Hz]%elem_of_cons; [done|].
      eapply (cmp_lt_trans laws); eauto.
    + apply cmp_gt_lt in E. apply sorted_cons in Hv as [Hv1 Hv2].
      apply sorted_cons. split; [|auto].
      intros z [->|Hz]%elem_of_insert; auto.
Qed.

End facts.
End OrdVectorFacts.

(** ** The orders on states and nodes *)

Lemma state_laws : OrdVector.order_laws state_cmp.
Proof.
  split; unfold state_cmp.
  - apply Nat.compare_eq_iff.
  - intros x y. apply Nat.compare_antisym.
  - intros x y z. rewrite !Nat.compare_lt_iff. lia.
Qed.

Lemma nat_compare_trans (x y z : nat) (c : comparison) :
  Nat.compare x y = c → Nat.compare y z = c → Nat.compare x z = c.
Proof.
  destruct c; rewrite ?Nat.compare_eq_iff, ?Nat.compare_lt_iff, ?Nat.compare_gt_iff;
    lia.
Qed.

Lemma node_laws : OrdVector.order_laws node_cmp.
Proof.
  split; unfold node_cmp.
  - intros x y. apply list_compare_refl, Nat.compare_eq_iff.
  - intros x y. apply list_compare_antisym.
    + apply Nat.compare_eq_iff.
    + intros a b. apply Nat.compare_antisym.
  - intros x y z. apply list_compare_trans.
    + apply Nat.compare_eq_iff.
    + apply nat_compare_trans.
    + intros a b. apply Nat.compare_antisym.
Qed.

(** ** Closed sets as sets of nodes *)

Module ClosedSetFacts.
Import ClosedSet.

Lemma sub_spec a b :
  node_sorted a → node_sorted b → sub a b ↔ ∀ x, x ∈ a → x ∈ b.
Proof. apply OrdVectorFacts.IsSubsetOf_spec, state_laws. Qed.

Lemma sub_nil b : sub [] b.
Proof. unfold sub, OrdVector.IsSubsetOf. by destruct b. Qed.

Lemma sub_trans a b c :
  node_sorted a → node_sorted b → node_sorted c → sub a b → sub b c → sub a c.
Proof.
  intros Ha Hb Hc. rewrite !sub_spec by done. auto.
Qed.

Lemma sub_Union a b c :
  node_sorted a → node_sorted b → node_sorted c →
  sub (OrdVector.Union state_cmp a b) c ↔ sub a c ∧ sub b c.
Proof.
  intros Ha Hb Hc.
  pose proof (OrdVectorFacts.sorted_Union state_cmp state_laws a b Ha Hb) as Hu.
  rewrite !sub_spec by done.
  setoid_rewrite (OrdVectorFacts.elem_of_Union state_cmp state_laws).
  naive_solver.
Qed.

Lemma existsb_elem_of {A} (f : A → bool) (l : list A) :
  existsb f l = true ↔ ∃ x, x ∈ l ∧ f x = true.
Proof.
  rewrite existsb_exists. by setoid_rewrite list_elem_of_In.
Qed.

Lemma existsb_false_elem_of {A} (f : A → bool) (l : list A) x :
  existsb f l = false → x ∈ l → f x = false.
Proof.
  intros H Hx. destruct (f x) eqn:E; [|done].
  assert (existsb f l = true) by (apply existsb_elem_of; eauto). congruence.
Qed.

Lemma elem_of_erase_all to_erase ac z :
  z ∈ erase_all to_erase ac → z ∈ ac.
Proof.
  revert ac. induction to_erase as [|e to_erase IH]; intros ac; simpl; [done|].
  intros H%IH. by eapply (OrdVectorFacts.elem_of_remove node_cmp node_laws).
Qed.

Lemma elem_of_erase_all_keep to_erase ac z :
  z ∈ ac → z ∉ to_erase → z ∈ erase_all to_erase ac.
Proof.
  revert ac. induction to_erase as [|e to_erase IH]; intros ac; simpl; [done|].
  intros Hz Hn. apply not_elem_of_cons in Hn as [Hne Hn].
  apply IH; [|done].
  by apply (OrdVectorFacts.elem_of_remove_ne node_cmp node_laws).
Qed.

Lemma elem_of_insert_antichain cs node z :
  z ∈ antichain (insert cs node) → z = node ∨ z ∈ antichain cs.
Proof.
  unfold insert. destruct (existsb _ _); [by right|]. simpl.
  intros [->|H]%(OrdVectorFacts.elem_of_insert node_cmp node_laws); [by left|].
  right. by eapply elem_of_erase_all.
Qed.

Lemma type_insert cs node : type_ (insert cs node) = type_ cs.
Proof. unfold insert. by destruct (existsb _ _). Qed.

Lemma type_insert_nodes cs nodes : type_ (insert_nodes cs nodes) = type_ cs.
Proof.
  revert cs. induction nodes as [|n nodes IH]; intros cs; simpl; [done|].
  unfold insert_nodes in IH. rewrite IH. apply type_insert.
Qed.

Lemma sorted_nodes_insert cs node :
  sorted_nodes (antichain cs) → node_sorted node →
  sorted_nodes (antichain (insert cs node)).
Proof.
  intros Hcs Hn z [->|Hz]%elem_of_insert_antichain; auto.
Qed.

Lemma sorted_nodes_insert_nodes cs nodes :
  sorted_nodes (antichain cs) → sorted_nodes nodes →
  sorted_nodes (antichain (insert_nodes cs nodes)).
Proof.
  revert cs. induction nodes as [|n nodes IH]; intros cs Hcs Hns; simpl; [done|].
  apply IH.
  - apply sorted_nodes_insert; [done|]. apply Hns. by left.
  - intros z Hz. apply Hns. by right.
Qed.

Section upward.

(** membership in an upward closed set *)
Lemma contains_upward cs M :
  type_ cs = upward_closed_set →
  contains cs M = true ↔ ∃ A, A ∈ antichain cs ∧ sub A M.
Proof.
  intros Hty. unfold contains. rewrite Hty. simpl.
  by rewrite existsb_elem_of.
Qed.

Lemma contains_insert cs node M :
  type_ cs = upward_closed_set →
  sorted_nodes (antichain cs) → node_sorted node → node_sorted M →
  contains (insert cs node) M = true ↔ contains cs M = true ∨ sub node M.
Proof.
  intros Hty Hcs Hn HM.
  rewrite !contains_upward by (by rewrite ?type_insert).
  unfold insert. rewrite Hty. simpl.
  destruct (existsb _ _) eqn:E.
  - split; [by left|]. intros [H|H]; [done|].
    apply existsb_elem_of in E as (A & HA & HAn).
    exists A. split; [done|]. apply (sub_trans A node M); auto.
  - simpl. split.
    + intros (A & HA & HAM).
      apply (OrdVectorFacts.elem_of_insert node_cmp node_laws) in HA as [->|HA];
        [by right|].
      left. exists A. split; [|done]. by eapply elem_of_erase_all.
    + intros [(A & HA & HAM)|H].
      * destruct (OrdVector.IsSubsetOf state_cmp node A) eqn:Ev.
        -- exists node. split.
           ++ apply (OrdVectorFacts.elem_of_insert node_cmp node_laws). by left.
           ++ apply (sub_trans node A M); auto.
        -- exists A. split; [|done].
           apply (OrdVectorFacts.elem_of_insert node_cmp node_laws). right.
           apply elem_of_erase_all_keep; [done|].
           rewrite list_elem_of_In, filter_In. intros [_ H]. simpl in H. congruence.
      * exists node. split; [|done].
        apply (OrdVectorFacts.elem_of_insert node_cmp node_laws). by left.
Qed.

Lemma contains_insert_nodes cs nodes M :
  type_ cs = upward_closed_set →
  sorted_nodes (antichain cs) → sorted_nodes nodes → node_sorted M →
  contains (insert_nodes cs nodes) M = true ↔
    contains cs M = true ∨ ∃ A, A ∈ nodes ∧ sub A M.
Proof.
  revert cs. induction nodes as [|n nodes IH]; intros cs Hty Hcs Hns HM; simpl.
  - split; [by left|]. intros [H|(A & HA & _)]; [done|]. by apply elem_of_nil in HA.
  - assert (node_sorted n) as Hn by (apply Hns; by left).
    assert (sorted_nodes nodes) as Hns' by (intros z Hz; apply Hns; by right).
    unfold insert_nodes in IH. rewrite IH; try done.
    + rewrite contains_insert by done.
      setoid_rewrite elem_of_cons. naive_solver.
    + by rewrite type_insert.
    + by apply sorted_nodes_insert.
Qed.

Lemma contains_intersection cs rhs M :
  type_ cs = upward_closed_set →
  type_ rhs = upward_closed_set →
  sorted_nodes (antichain cs) → sorted_nodes (antichain rhs) → node_sorted M →
  contains (intersection cs rhs) M = true ↔
    contains cs M = true ∧ contains rhs M = true.
Proof.
  intros Hty Hty' Hcs Hrhs HM. unfold intersection.
  assert (∀ z, z ∈ (a ← antichain cs; b ← antichain rhs; [combine (type_ cs) a b])
            ↔ ∃ a b, a ∈ antichain cs ∧ b ∈ antichain rhs ∧
                     z = OrdVector.Union state_cmp a b) as Hpairs.
  { intros z. rewrite Hty. simpl. rewrite list_elem_of_bind.
    setoid_rewrite list_elem_of_bind. setoid_rewrite list_elem_of_singleton.
    naive_solver. }
  assert (sorted_nodes
            (a ← antichain cs; b ← antichain rhs; [combine (type_ cs) a b]))
    as Hsorted.
  { intros z (a & b & Ha & Hb & ->)%Hpairs.
    apply (OrdVectorFacts.sorted_Union state_cmp state_laws);
      [by apply Hcs|by apply Hrhs]. }
  rewrite contains_insert_nodes;
    [|done|simpl; by intros z ?%elem_of_nil|exact Hsorted|done].
  rewrite !contains_upward by done. simpl. split.
  - intros [(A & HA & _)|(A & HA & HAM)]; [by apply elem_of_nil in HA|].
    apply Hpairs in HA as (a & b & Ha & Hb & ->).
    apply sub_Union in HAM as [? ?]; auto. split; eauto.
  - intros [(a & Ha & HaM) (b & Hb & HbM)]. right.
    exists (OrdVector.Union state_cmp a b). split.
    + apply Hpairs. eauto.
    + apply sub_Union; auto.
Qed.

Lemma sorted_nodes_intersection cs rhs :
  type_ cs = upward_closed_set →
  sorted_nodes (antichain cs) → sorted_nodes (antichain rhs) →
  sorted_nodes (antichain (intersection cs rhs)).
Proof.
  intros Hty Hcs Hrhs. unfold intersection.
  apply sorted_nodes_insert_nodes.
  - simpl. by intros z ?%elem_of_nil.
  - rewrite Hty. simpl. intros z. rewrite list_elem_of_bind.
    setoid_rewrite list_elem_of_bind. setoid_rewrite list_elem_of_singleton.
    intros (a & (b & -> & Hb) & Ha).
    apply (OrdVectorFacts.sorted_Union state_cmp state_laws);
      [by apply Hcs|by apply Hrhs].
Qed.

End upward.
End ClosedSetFacts.

(** ** The transition store of an AFA *)

Module AfaFacts.
Import Afa.

Lemma first_dst_find sy row :
  first_dst sy row =
    match List.find (λ t, symb t =? sy) row with
    | Some e => dst e
    | None => []
    end.
Proof.
  induction row as [|t row IH]; simpl; [done|].
  destruct (symb t =? sy); done.
Qed.

Lemma first_dst_app sy row t :
  List.find (λ t, symb t =? sy) row = None →
  first_dst sy (row ++ [t]) = first_dst sy [t].
Proof.
  induction row as [|t' row IH]; simpl; [done|].
  destruct (symb t' =? sy); [done|]. exact IH.
Qed.

Lemma perform_trans_Ok aut s sy :
  s < length (transRelation aut) →
  ∃ row, transRelation aut !! s = Some row ∧
         perform_trans aut s sy = Ok (first_dst sy row).
Proof.
  intros Hs. destruct (lookup_lt_is_Some_2 _ _ Hs) as [row Hrow].
  exists row. split; [done|]. unfold perform_trans.
  apply Nat.ltb_lt in Hs. rewrite Hs. simpl.
  unfold index. rewrite Hrow. done.
Qed.

Lemma perform_trans_entry aut s sy :
  s < length (transRelation aut) →
  perform_trans aut s sy =
    Ok (match entry aut s sy with Some e => dst e | None => [] end).
Proof.
  intros Hs. destruct (perform_trans_Ok aut s sy Hs) as (row & Hrow & ->).
  unfold entry. rewrite Hrow. simpl. by rewrite first_dst_find.
Qed.

Lemma perform_trans_out_of_bounds aut s sy :
  length (transRelation aut) ≤ s → perform_trans aut s sy = AssertionFailed.
Proof.
  intros Hs. unfold perform_trans.
  apply Nat.ltb_ge in Hs. rewrite Hs. done.
Qed.

(** An entry that is present and not empty makes [add_trans] leave the
    automaton as it is. *)
Lemma add_trans_existing aut t nodes :
  perform_trans aut (src t) (symb t) = Ok nodes → nodes ≠ [] →
  add_trans aut t = Ok aut.
Proof.
  intros Hp Hne. unfold add_trans, add_trans_run. rewrite Hp. simpl.
  rewrite bool_decide_eq_false_2 by done. done.
Qed.

Lemma add_trans_absent aut t row :
  transRelation aut !! src t = Some row →
  first_dst (symb t) row = [] →
  add_trans aut t =
    Ok (with_transRelation aut (<[src t := row ++ [t]]> (transRelation aut))).
Proof.
  intros Hrow Hd. unfold add_trans, add_trans_run, perform_trans.
  assert (src t < length (transRelation aut)) as Hs by by eapply lookup_lt_Some.
  apply Nat.ltb_lt in Hs. rewrite Hs. simpl.
  unfold index. rewrite Hrow. simpl. rewrite Hd. done.
Qed.

(** C10: for a transition whose source is a state of the automaton,
    [has_trans] answers true exactly when a first entry is stored for the
    source and the symbol, its destination is not empty and every node of
    it occurs in the destination asked for; it answers false when no entry
    is stored.  Both destinations are ordered vectors of nodes. *)
Theorem has_trans_subset (aut : Afa) (t : Trans) :
  src t < length (transRelation aut) →
  nodes_sorted (dst t) →
  (∀ e, entry aut (src t) (symb t) = Some e → nodes_sorted (dst e)) →
  (has_trans aut t = Ok true ↔
     ∃ e, entry aut (src t) (symb t) = Some e ∧ dst e ≠ [] ∧
          ∀ n, n ∈ dst e → n ∈ dst t) ∧
  (has_trans aut t = Ok true ∨ has_trans aut t = Ok false) ∧
  (entry aut (src t) (symb t) = None → has_trans aut t = Ok false).
Proof.
  intros Hs Ht He. unfold has_trans.
  rewrite (perform_trans_entry aut _ _ Hs). simpl.
  destruct (entry aut (src t) (symb t)) as [e|] eqn:E.
  - specialize (He e eq_refl).
    pose proof (OrdVectorFacts.IsSubsetOf_spec node_cmp node_laws _ _ He Ht) as Hsub.
    split; [|split; [|done]].
    + destruct (dst e) as [|n ns] eqn:Ed; simpl.
      * split; [done|]. intros (e' & [= <-] & Hne & _). done.
      * split.
        -- intros [= Hi]. exists e. rewrite Ed. split; [done|]. split; [done|].
           by apply Hsub.
        -- intros (e' & [= <-] & _ & Hall). rewrite Ed in Hall.
           apply Hsub in Hall. by rewrite Hall.
    + destruct (negb _ && _); auto.
  - simpl. split; [|auto]. split; [done|]. by intros (e' & [=] & _).
Qed.

(** [has_trans] does not test the membership of one node: the stored
    destination has to be included as a whole. *)
Example has_trans_not_membership :
  has_trans (mkAfa [[mkTrans 0 0 [[0]; [1]]]] [[]] ∅ ∅) (mkTrans 0 0 [[0]])
  = Ok false.
Proof. reflexivity. Qed.

Lemma has_trans_subset_witness :
  has_trans (mkAfa [[mkTrans 0 0 [[0]]]] [[]] ∅ ∅) (mkTrans 0 0 [[0]; [1]])
  = Ok true ↔
  ∃ e, entry (mkAfa [[mkTrans 0 0 [[0]]]] [[]] ∅ ∅) 0 0 = Some e ∧
       dst e ≠ [] ∧ ∀ n, n ∈ dst e → n ∈ [[0]; [1]].
Proof.
  apply (has_trans_subset (mkAfa [[mkTrans 0 0 [[0]]]] [[]] ∅ ∅)
                          (mkTrans 0 0 [[0]; [1]])).
  - simpl. lia.
  - simpl. repeat constructor.
  - intros e [= <-]. simpl. repeat constructor.
Defined.

(** C2: adding 0 -a-> {{0}} and then 0 -a-> {{1}} (with [a] the symbol 0)
    leaves only {{0}} stored: the antichain {{0},{1}} is computed in the
    temporary returned by [perform_trans] and dropped, so the upward
    closure of what [perform_trans] returns afterwards does not contain
    {1}. *)
Theorem add_trans_second_disjunct_lost :
  ∃ aut1 aut2,
    add_trans two_states (mkTrans 0 0 [[0]]) = Ok aut1 ∧
    add_trans_run aut1 (mkTrans 0 0 [[1]]) = Ok (aut2, [[0]; [1]]) ∧
    aut2 = aut1 ∧
    perform_trans aut2 0 0 = Ok [[0]] ∧
    ClosedSet.contains
      (ClosedSet.mk upward_closed_set 0 (max_state aut2) [[0]]) [1] = false.
Proof.
  eexists _, _. split; [reflexivity|]. split; [reflexivity|].
  split; [reflexivity|]. split; reflexivity.
Qed.

(** An inverse result whose sharing list is already stored makes the
    iteration of [add_inverse_trans] leave the automaton as it is. *)
Lemma add_inverse_node_found aut s sy node m rest results r :
  node = m :: rest →
  perform_inverse_trans aut m sy = Ok results →
  scan_sharing s node results = Some r →
  add_inverse_node s sy aut node = Ok aut.
Proof.
  intros -> Hp Hscan. unfold add_inverse_node. simpl.
  rewrite Hp. simpl. rewrite Hscan. done.
Qed.

(** C3: after 0 -a-> {{0,1}} has been entered in the inverse relation,
    entering 1 -a-> {{0,1}} finds the sharing list {0,1} in the bucket of
    state 0 and inserts the source 1 into a copy of the inverse result:
    the stored result nodes are still {0}. *)
Theorem add_inverse_trans_source_lost :
  ∃ aut1 aut2,
    add_inverse_trans two_states (mkTrans 0 0 [[0; 1]]) = Ok aut1 ∧
    perform_inverse_trans aut1 0 0 = Ok [mkInverseResults [0] [0; 1]] ∧
    scan_sharing 1 [0; 1] [mkInverseResults [0] [0; 1]]
      = Some (mkInverseResults [0; 1] [0; 1]) ∧
    add_inverse_trans aut1 (mkTrans 1 0 [[0; 1]]) = Ok aut2 ∧
    perform_inverse_trans aut2 0 0 = Ok [mkInverseResults [0] [0; 1]].
Proof.
  eexists _, _. split; [reflexivity|]. split; [reflexivity|].
  split; [reflexivity|]. split; reflexivity.
Qed.

(** C7 as stated fails: when the entry stored for the source and the symbol
    has an empty destination, [perform_trans] cannot tell it from a missing
    entry and every call appends one more entry. *)
Lemma add_trans_twice_differs :
  ∃ aut once twice,
    add_trans two_states (mkTrans 0 0 []) = Ok aut ∧
    add_trans aut (mkTrans 0 0 [[1]]) = Ok once ∧
    add_trans once (mkTrans 0 0 [[1]]) = Ok twice ∧
    transRelation once = [[mkTrans 0 0 []; mkTrans 0 0 [[1]]]; []] ∧
    transRelation twice ≠ transRelation once.
Proof.
  eexists _, _, _. split; [reflexivity|]. split; [reflexivity|].
  split; [reflexivity|]. split; [reflexivity|]. simpl. discriminate.
Qed.

(** C7, amended: when the first entry stored for the source and the symbol,
    if there is one, has a destination that is not empty, a second
    [add_trans] of the same one-node transition returns the automaton the
    first call returned. *)
Theorem add_trans_idempotent (aut : Afa) (s : State) (sy : Symbol) (A : Node) :
  s < length (transRelation aut) →
  (∀ e, entry aut s sy = Some e → dst e ≠ []) →
  ∃ once,
    add_trans aut (mkTrans s sy [A]) = Ok once ∧
    add_trans once (mkTrans s sy [A]) = Ok once.
Proof.
  intros Hs Hne.
  pose proof (perform_trans_entry aut s sy Hs) as Hp.
  destruct (entry aut s sy) as [e|] eqn:E.
  - exists aut.
    assert (add_trans aut (mkTrans s sy [A]) = Ok aut) as H.
    { eapply add_trans_existing; [exact Hp|]. by apply Hne. }
    done.
  - unfold entry in E.
    destruct (lookup_lt_is_Some_2 _ _ Hs) as [row Hrow].
    rewrite Hrow in E. simpl in E.
    eexists. split.
    + apply (add_trans_absent aut (mkTrans s sy [A]) row); [done|].
      simpl. by rewrite first_dst_find, E.
    + eapply (add_trans_existing _ (mkTrans s sy [A]) [A]); [|done].
      simpl. unfold perform_trans. simpl.
      rewrite length_insert. apply Nat.ltb_lt in Hs. rewrite Hs. simpl.
      unfold index. rewrite list_lookup_insert_eq by by apply Nat.ltb_lt.
      simpl. rewrite (first_dst_app _ _ _ E). simpl.
      by rewrite Nat.eqb_refl.
Qed.

Lemma add_trans_idempotent_witness :
  ∃ once,
    add_trans two_states (mkTrans 0 0 [[1]]) = Ok once ∧
    add_trans once (mkTrans 0 0 [[1]]) = Ok once.
Proof.
  apply (add_trans_idempotent two_states 0 0 [1]).
  - simpl. lia.
  - intros e. simpl. discriminate.
Defined.

Lemma post_state_out_of_bounds aut s sy :
  length (transRelation aut) ≤ s → post_state aut s sy = AssertionFailed.
Proof.
  intros Hs. unfold post_state. by rewrite perform_trans_out_of_bounds.
Qed.

Lemma post_state_Ok aut s sy :
  s < length (transRelation aut) →
  ∃ row, transRelation aut !! s = Some row ∧
    post_state aut s sy
    = Ok (ClosedSet.mk upward_closed_set 0 (max_state aut) (first_dst sy row)).
Proof.
  intros Hs. destruct (perform_trans_Ok aut s sy Hs) as (row & Hrow & Hp).
  exists row. split; [done|]. unfold post_state. rewrite Hp. simpl.
  destruct (first_dst sy row); done.
Qed.

(** C8: a state beyond the last one stops [perform_trans] and [post] on
    their assertion, whereas the inverse lookup and [pre] index the
    inverse relation with it unchecked. *)
Theorem out_of_bounds_state (aut : Afa) (s : State) (sy : Symbol) :
  length (transRelation aut) ≤ s →
  length (inverseTransRelation aut) ≤ s →
  perform_trans aut s sy = AssertionFailed ∧
  post_state aut s sy = AssertionFailed ∧
  perform_inverse_trans aut s sy = Undefined ∧
  pre_node_symb aut [s] sy = Undefined.
Proof.
  intros Hs Hi. split; [by apply perform_trans_out_of_bounds|].
  split; [by apply post_state_out_of_bounds|].
  assert (perform_inverse_trans aut s sy = Undefined) as H.
  { unfold perform_inverse_trans.
    apply index_Undefined in Hi. rewrite Hi. done. }
  split; [done|]. unfold pre_node_symb. simpl. rewrite H. done.
Qed.

Lemma out_of_bounds_state_witness :
  perform_trans two_states 5 0 = AssertionFailed ∧
  post_state two_states 5 0 = AssertionFailed ∧
  perform_inverse_trans two_states 5 0 = Undefined ∧
  pre_node_symb two_states [5] 0 = Undefined.
Proof.
  apply (out_of_bounds_state two_states 5 0); simpl; lia.
Defined.

(** the lookups succeed on the states of the automaton *)
Lemma in_bounds_state aut s sy :
  s < length (transRelation aut) →
  (∃ nodes, perform_trans aut s sy = Ok nodes) ∧
  (∃ cs, post_state aut s sy = Ok cs).
Proof.
  intros Hs. split.
  - destruct (perform_trans_Ok aut s sy Hs) as (row & _ & ->). eauto.
  - destruct (post_state_Ok aut s sy Hs) as (row & _ & ->). eauto.
Qed.

Lemma name_states_cases namer sts names :
  (∃ out, name_states namer sts names = Ok out ∧
          ∀ s, s ∈ sts → (namer s).1 = true) ∨
  (∃ s, s ∈ sts ∧ (namer s).1 = false ∧
        name_states namer sts names
        = Thrown ("cannot translate state " +:+ to_string s)).
Proof.
  revert names. induction sts as [|s sts IH]; intros names; simpl.
  - left. exists names. split; [done|]. by intros s ?%elem_of_nil.
  - destruct (namer s).1 eqn:E; simpl.
    + destruct (IH (names ++ [(namer s).2])) as [(out & -> & Hall)|(s' & ? & ? & ->)].
      * left. exists out. split; [done|].
        intros s' [->|?]%elem_of_cons; auto.
      * right. exists s'. split; [by right|done].
    + right. exists s. split; [by left|done].
Qed.

Lemma elem_of_in_order (s : gset State) x : x ∈ in_order s ↔ x ∈ s.
Proof.
  unfold in_order. rewrite merge_sort_Permutation. apply elem_of_elements.
Qed.

(** [serialize] returns a section exactly when every initial and every
    final state is named by the state map; the symbol map plays no part. *)
Lemma serialize_returns aut symbol_map state_map :
  (∃ parsec, serialize aut symbol_map state_map = Ok parsec) ↔
  ∀ s, s ∈ initialstates aut ∨ s ∈ finalstates aut →
       (state_namer state_map s).1 = true.
Proof.
  unfold serialize.
  destruct (name_states_cases (state_namer state_map)
              (in_order (initialstates aut)) [])
    as [(init & -> & Hinit)|(s & Hs & Hn & ->)]; simpl.
  - destruct (name_states_cases (state_namer state_map)
                (in_order (finalstates aut)) [])
      as [(fin & -> & Hfin)|(s & Hs & Hn & ->)]; simpl.
    + split; [|eauto]. intros _ s [Hs|Hs].
      * by apply Hinit, elem_of_in_order.
      * by apply Hfin, elem_of_in_order.
    + split; [by intros [? [=]]|]. intros H.
      rewrite H in Hn; [done|]. right. by apply elem_of_in_order.
  - split; [by intros [? [=]]|]. intros H.
    rewrite H in Hn; [done|]. left. by apply elem_of_in_order.
Qed.

(** C9: whatever the maps, a section returned by [serialize] has the type
    tag AFA, the two keys Initial and Final and an empty body: no
    transition is written and no symbol is looked up. *)
Theorem serialize_no_transitions (aut : Afa)
    (symbol_map : option (gmap Symbol string))
    (state_map : option (gmap State string)) (parsec : ParsedSection) :
  serialize aut symbol_map state_map = Ok parsec →
  type parsec = TYPE_AFA ∧ body parsec = [] ∧
  is_Some (dict parsec !! "Initial") ∧ is_Some (dict parsec !! "Final") ∧
  serialize aut None state_map = Ok parsec.
Proof.
  unfold serialize. intros H.
  apply bind_Ok in H as (init & Hinit & H).
  apply bind_Ok in H as (fin & Hfin & H).
  injection H as <-. simpl. split; [done|]. split; [done|].
  split.
  - rewrite lookup_insert_ne by done. rewrite lookup_insert_eq. eauto.
  - split; [rewrite lookup_insert_eq; eauto|].
    rewrite Hinit. simpl. rewrite Hfin. done.
Qed.

(** the automaton [one_step] has the transition 0 -a-> {{2}}, the symbol
    map names no symbol, and the call succeeds with an empty body *)
Lemma serialize_no_transitions_witness :
  ∃ aut parsec,
    one_step = Ok aut ∧
    transRelation aut = [[mkTrans 0 0 [[2]]]; []; []] ∧
    serialize aut (Some ∅) None = Ok parsec ∧
    type parsec = TYPE_AFA ∧ body parsec = [] ∧
    is_Some (dict parsec !! "Initial") ∧ is_Some (dict parsec !! "Final") ∧
    serialize aut None None = Ok parsec.
Proof.
  eexists _, _. split; [reflexivity|]. split; [reflexivity|].
  split; [reflexivity|].
  eapply (serialize_no_transitions _ (Some ∅) None). reflexivity.
Defined.

(** C1: on the automaton [one_step] (0 initial, 1 and 2 final, one
    transition 0 -a-> {{2}} entered in both relations) the forward tests
    answer "not empty" and the backward tests answer "empty", for every
    loop bound of at least three iterations: [pre] of the node {1,2} only
    tries the symbols of the inverse bucket of state 1.  The same happens
    on [two_sources] (1 initial, 2 final, 0 -a-> {{2}} and 1 -a-> {{2}}),
    where the inverse relation has lost the source 1. *)
Theorem emptiness_tests_disagree (fuel : nat) :
  (∃ aut,
     one_step = Ok aut ∧
     antichain_concrete_forward_emptiness_test_old (3 + fuel) aut = Ok false ∧
     antichain_concrete_forward_emptiness_test_new (3 + fuel) aut = Ok false ∧
     antichain_concrete_backward_emptiness_test_old (3 + fuel) aut = Ok true ∧
     antichain_concrete_backward_emptiness_test_new (3 + fuel) aut = Ok true) ∧
  (∃ aut,
     two_sources = Ok aut ∧
     antichain_concrete_forward_emptiness_test_old (3 + fuel) aut = Ok false ∧
     antichain_concrete_forward_emptiness_test_new (3 + fuel) aut = Ok false ∧
     antichain_concrete_backward_emptiness_test_old (3 + fuel) aut = Ok true ∧
     antichain_concrete_backward_emptiness_test_new (3 + fuel) aut = Ok true).
Proof.
  split; (eexists; split; [vm_compute; reflexivity|]);
    repeat split; vm_compute; reflexivity.
Qed.

(** the two one-state scenarios: without a final state every test answers
    "empty", with the state final every test answers "not empty" *)
Example emptiness_trivially_empty :
  let aut := mkAfa [[]] [[]] {[0]} ∅ in
  antichain_concrete_forward_emptiness_test_old 3 aut = Ok true ∧
  antichain_concrete_forward_emptiness_test_new 3 aut = Ok true ∧
  antichain_concrete_backward_emptiness_test_old 3 aut = Ok true ∧
  antichain_concrete_backward_emptiness_test_new 3 aut = Ok true.
Proof. vm_compute. auto. Qed.

Example emptiness_trivially_not_empty :
  let aut := mkAfa [[]] [[]] {[0]} {[0]} in
  antichain_concrete_forward_emptiness_test_old 3 aut = Ok false ∧
  antichain_concrete_forward_emptiness_test_new 3 aut = Ok false ∧
  antichain_concrete_backward_emptiness_test_old 3 aut = Ok false ∧
  antichain_concrete_backward_emptiness_test_new 3 aut = Ok false.
Proof. vm_compute. auto. Qed.

End AfaFacts.

(** ** The forward transformer on a node *)

Module PostFacts.
Import Afa ClosedSet ClosedSetFacts AfaFacts.

Lemma first_dst_elem sy row :
  first_dst sy row = [] ∨ ∃ t, t ∈ row ∧ first_dst sy row = dst t.
Proof.
  induction row as [|t row IH]; simpl; [by left|].
  destruct (symb t =? sy).
  - right. exists t. split; [by left|done].
  - destruct IH as [?|(t' & ? & ?)]; [by left|].
    right. exists t'. split; [by right|done].
Qed.

Lemma first_dst_sorted aut s sy row :
  stored_sorted aut → transRelation aut !! s = Some row →
  sorted_nodes (first_dst sy row).
Proof.
  intros Hwf Hrow.
  destruct (first_dst_elem sy row) as [->|(t & Ht & ->)].
  - by intros z ?%elem_of_nil.
  - eapply Hwf; [|done]. by eapply list_elem_of_lookup_2.
Qed.

Lemma post_state_spec aut s sy :
  stored_sorted aut → s < length (transRelation aut) →
  ∃ Cs, post_state aut s sy = Ok Cs ∧ type_ Cs = upward_closed_set ∧
        sorted_nodes (antichain Cs).
Proof.
  intros Hwf Hs. destruct (post_state_Ok aut s sy Hs) as (row & Hrow & ->).
  eexists. split; [done|]. split; [done|]. simpl.
  by eapply first_dst_sorted.
Qed.

Lemma type_intersection cs rhs : type_ (intersection cs rhs) = type_ cs.
Proof. unfold intersection. by rewrite type_insert_nodes. Qed.

Lemma post_node_symb_loop_spec aut sy states result :
  stored_sorted aut →
  (∀ s, s ∈ states → s < length (transRelation aut)) →
  type_ result = upward_closed_set → sorted_nodes (antichain result) →
  ∃ C, post_node_symb_loop aut sy states true result = Ok C ∧
       type_ C = upward_closed_set ∧
       ∀ M, node_sorted M →
         contains C M = true ↔
           contains result M = true ∧
           ∀ s, s ∈ states →
             ∃ Cs, post_state aut s sy = Ok Cs ∧ contains Cs M = true.
Proof.
  intros Hwf. revert result.
  induction states as [|s states IH]; intros result Hin Hty Hsorted; simpl.
  - exists result. split; [done|]. split; [done|]. intros M HM.
    split; [|tauto]. intros H. split; [done|]. by intros s ?%elem_of_nil.
  - destruct (post_state_spec aut s sy Hwf) as (Cs & HCs & HtyCs & HsCs).
    { apply Hin. by left. }
    rewrite HCs. simpl.
    destruct (IH (intersection result Cs)) as (C & HC & HtyC & HCM).
    + intros s' Hs'. apply Hin. by right.
    + by rewrite type_intersection.
    + by apply sorted_nodes_intersection.
    + exists C. split; [done|]. split; [done|]. intros M HM.
      rewrite (HCM M HM), contains_intersection by done.
      split.
      * intros [[H1 H2] H3]. split; [done|].
        intros s' [->|Hs']%elem_of_cons; eauto.
      * intros [H1 H2]. split; [split; [done|]|].
        -- destruct (H2 s) as (Cs' & HCs' & Hc); [by left|].
           rewrite HCs in HCs'. by injection HCs' as <-.
        -- intros s' Hs'. apply H2. by right.
Qed.

Lemma contains_top aut M :
  contains (insert (empty_set upward_closed_set aut) []) M = true.
Proof. unfold contains, insert, empty_set. simpl. by destruct M. Qed.

(** C6: for a node whose states are states of the automaton, [post] on the
    node and a symbol returns an upward closed set that contains exactly
    the nodes contained in [post] of every state of the node, that is the
    intersection of these sets; for the empty node the antichain returned
    is {∅} and every node is contained. *)
Theorem post_node_symb_is_intersection (aut : Afa) (N : Node) (sy : Symbol) :
  stored_sorted aut →
  (∀ s, s ∈ N → s < length (transRelation aut)) →
  ∃ C, post_node_symb aut N sy = Ok C ∧
       type_ C = upward_closed_set ∧
       (∀ M, node_sorted M →
          contains C M = true ↔
            ∀ s, s ∈ N →
              ∃ Cs, post_state aut s sy = Ok Cs ∧ contains Cs M = true) ∧
       (N = [] → antichain C = [[]] ∧ ∀ M, contains C M = true).
Proof.
  intros Hwf Hin. destruct N as [|s states].
  - eexists. split; [reflexivity|]. split; [done|]. split.
    + intros M HM. split; [|intros _; apply contains_top].
      by intros _ s ?%elem_of_nil.
    + intros _. split; [done|]. intros M. apply contains_top.
  - unfold post_node_symb. simpl.
    destruct (post_state_spec aut s sy Hwf) as (Cs & HCs & HtyCs & HsCs).
    { apply Hin. by left. }
    rewrite HCs. simpl.
    set (first := insert_nodes (empty_set upward_closed_set aut) (antichain Cs)).
    assert (type_ first = upward_closed_set) as Htyf
      by (unfold first; by rewrite type_insert_nodes).
    assert (sorted_nodes (antichain first)) as Hsf.
    { apply sorted_nodes_insert_nodes; [|done]. simpl. by intros z ?%elem_of_nil. }
    assert (∀ M, node_sorted M → contains first M = true ↔ contains Cs M = true)
      as Hfirst.
    { intros M HM. unfold first.
      rewrite contains_insert_nodes;
        [|done|simpl; by intros z ?%elem_of_nil|done|done].
      rewrite (contains_upward Cs) by done.
      split; [|by right]. intros [H|H]; [|done].
      apply contains_upward in H as (A & HA & _); [|done].
      by apply elem_of_nil in HA. }
    destruct (post_node_symb_loop_spec aut sy states first Hwf)
      as (C & HC & HtyC & HCM); [|done|done|].
    { intros s' Hs'. apply Hin. by right. }
    exists C. split; [done|]. split; [done|]. split; [|done].
    intros M HM. rewrite (HCM M HM), (Hfirst M HM). split.
    + intros [H1 H2] s' [->|Hs']%elem_of_cons; eauto.
    + intros H. split.
      * destruct (H s) as (Cs' & HCs' & Hc); [by left|].
        rewrite HCs in HCs'. by injection HCs' as <-.
      * intros s' Hs'. apply H. by right.
Qed.

Lemma post_node_symb_is_intersection_witness :
  ∃ C, post_node_symb two_moves [0; 1] 0 = Ok C ∧
       type_ C = upward_closed_set ∧
       (∀ M, node_sorted M →
          contains C M = true ↔
            ∀ s, s ∈ [0; 1] →
              ∃ Cs, post_state two_moves s 0 = Ok Cs ∧ contains Cs M = true) ∧
       ([0; 1] = [] → antichain C = [[]] ∧ ∀ M, contains C M = true).
Proof.
  apply (post_node_symb_is_intersection two_moves [0; 1] 0).
  - intros row t Hrow Ht n Hn. unfold two_moves in Hrow. simpl in Hrow.
    repeat (apply elem_of_cons in Hrow as [->|Hrow]);
      [| |by apply elem_of_nil in Hrow].
    + apply list_elem_of_singleton in Ht as ->. simpl in Hn.
      repeat (apply elem_of_cons in Hn as [->|Hn]);
        [| |by apply elem_of_nil in Hn]; repeat constructor.
    + apply list_elem_of_singleton in Ht as ->. simpl in Hn.
      apply list_elem_of_singleton in Hn as ->. repeat constructor.
  - intros s Hs. simpl.
    repeat (apply elem_of_cons in Hs as [->|Hs]); [lia|lia|].
    by apply elem_of_nil in Hs.
Defined.

Example post_two_moves :
  post_node_symb two_moves [0; 1] 0
  = Ok (mk upward_closed_set 0 1 [[1]]).
Proof. reflexivity. Qed.

End PostFacts.

(** ** The product construction *)

Module NfaFacts.
Import Nfa.

Lemma has_final_spec aut s : has_final aut s = true ↔ s ∈ final_states aut.
Proof. apply OrdVectorFacts.count_spec, state_laws. Qed.

Lemma elem_of_add_final aut s r :
  r ∈ final_states (add_final aut s) ↔ r = s ∨ r ∈ final_states aut.
Proof. apply OrdVectorFacts.elem_of_insert, state_laws. Qed.

Lemma ext_refl b : ext b b.
Proof.
  split; try done.
  - intros k Hn [v Hv]. congruence.
  - intros k Hk. by left.
Qed.

Lemma ext_trans b1 b2 b3 : ext b1 b2 → ext b2 b3 → ext b1 b3.
Proof.
  intros [M1 T1 P1 N1 O1] [M2 T2 P2 N2 O2]. split.
  - eauto.
  - eauto.
  - set_solver.
  - intros k Hn Hs. destruct (product_map b2 !! k) as [v|] eqn:E.
    + apply P2, N1; [done|]. by rewrite E.
    + by apply N2.
  - intros k [Hk|Hk]%O2; [auto|]. right.
    destruct (product_map b1 !! k) as [v|] eqn:E; [|done].
    apply M1 in E. congruence.
Qed.

Lemma ext_is_Some b b' k :
  ext b b' → is_Some (product_map b !! k) → is_Some (product_map b' !! k).
Proof. intros He [v Hv]. exists v. by eapply ext_map. Qed.

Section product.
Variable EPSILON : Symbol.
Variables lhs rhs : Nfa.

#[local] Abbreviation create := (create_product_state_and_trans lhs rhs).
#[local] Abbreviation inv := (Nfa.inv lhs rhs).
#[local] Abbreviation eps_lhs := (Nfa.eps_lhs EPSILON lhs).
#[local] Abbreviation eps_rhs := (Nfa.eps_rhs EPSILON rhs).
#[local] Abbreviation inv_eps := (Nfa.inv_eps EPSILON lhs rhs).

Lemma create_unfold b l r it :
  create b l r it =
    match product_map b !! (l, r) with
    | Some s =>
        (b, mkMove (symbol it) (OrdVector.insert state_cmp s (states_to it)))
    | None =>
        let new := length (transition_relation (product b)) in
        (mkBuild
           (mkNfa (transition_relation (product b) ++ [[]])
                  (initial_states (product b))
                  (if has_final lhs l && has_final rhs r
                   then OrdVector.insert state_cmp new (final_states (product b))
                   else final_states (product b)))
           (<[(l, r) := new]> (product_map b))
           ({[(l, r)]} ∪ pairs_to_process b),
         mkMove (symbol it) (OrdVector.insert state_cmp new (states_to it)))
    end.
Proof.
  unfold create_product_state_and_trans.
  destruct (product_map b !! (l, r)); [done|]. simpl.
  by destruct (has_final lhs l && has_final rhs r).
Qed.

Lemma create_ext b l r it : ext b (create b l r it).1.
Proof.
  rewrite create_unfold.
  destruct (product_map b !! (l, r)) as [s|] eqn:E; simpl; [apply ext_refl|].
  split; simpl.
  - intros k v Hk. rewrite lookup_insert_ne; [done|]. congruence.
  - intros r0 sy r' (row & mv & Hrow & ?). exists row, mv. split; [|done].
    simpl. by apply lookup_app_l_Some.
  - set_solver.
  - intros k Hn Hs. destruct (decide (k = (l, r))) as [->|Hne]; [set_solver|].
    rewrite lookup_insert_ne in Hs by done. destruct Hs as [v Hv]. congruence.
  - intros k [->%elem_of_singleton|Hk]%elem_of_union; auto.
Qed.

Lemma create_inv b l r it : inv b → inv (create b l r it).1.
Proof.
  intros [Hp Hm Hfb Hf]. rewrite create_unfold.
  destruct (product_map b !! (l, r)) as [s|] eqn:E; simpl; [done|].
  set (new := length (transition_relation (product b))).
  assert (∀ x, x ∈ (if has_final lhs l && has_final rhs r
                    then OrdVector.insert state_cmp new (final_states (product b))
                    else final_states (product b))
             ↔ (x = new ∧ has_final lhs l && has_final rhs r = true)
               ∨ x ∈ final_states (product b)) as Hfin.
  { intros x. destruct (has_final lhs l && has_final rhs r).
    - rewrite (OrdVectorFacts.elem_of_insert state_cmp state_laws). naive_solver.
    - naive_solver. }
  split; simpl.
  - intros k [->%elem_of_singleton|Hk]%elem_of_union.
    + rewrite lookup_insert_eq. eauto.
    + destruct (decide (k = (l, r))) as [->|Hne].
      * rewrite lookup_insert_eq. eauto.
      * rewrite lookup_insert_ne by done. auto.
  - intros k s Hk. rewrite length_app. simpl.
    destruct (decide (k = (l, r))) as [->|Hne].
    + rewrite lookup_insert_eq in Hk. injection Hk as <-. unfold new. lia.
    + rewrite lookup_insert_ne in Hk by done. apply Hm in Hk. lia.
  - intros x Hx. rewrite length_app. simpl.
    apply Hfin in Hx as [[-> _]|Hx]; [unfold new; lia|].
    apply Hfb in Hx. lia.
  - intros p q s Hs. rewrite Hfin.
    destruct (decide ((p, q) = (l, r))) as [[= -> ->]|Hne].
    + rewrite lookup_insert_eq in Hs. injection Hs as <-.
      rewrite andb_true_iff. split; [|tauto].
      intros [[_ H]|H]; [done|]. apply Hfb in H. unfold new in H. lia.
    + rewrite lookup_insert_ne in Hs by done.
      rewrite <- (Hf p q s Hs). split; [|tauto].
      intros [[-> _]|H]; [|done]. apply Hm in Hs. unfold new in Hs. lia.
Qed.

Lemma create_mapped b l r it :
  ∃ s, product_map (create b l r it).1 !! (l, r) = Some s ∧
       s ∈ states_to (create b l r it).2 ∧
       symbol (create b l r it).2 = symbol it ∧
       ∀ x, x ∈ states_to it → x ∈ states_to (create b l r it).2.
Proof.
  rewrite create_unfold.
  destruct (product_map b !! (l, r)) as [s|] eqn:E; simpl.
  - exists s. split; [done|].
    setoid_rewrite (OrdVectorFacts.elem_of_insert state_cmp state_laws).
    auto.
  - eexists. split; [apply lookup_insert_eq|].
    setoid_rewrite (OrdVectorFacts.elem_of_insert state_cmp state_laws).
    auto.
Qed.

Lemma create_all_ext b targets it : ext b (create_all lhs rhs b targets it).1.
Proof.
  unfold create_all. revert b it.
  induction targets as [|t targets IH]; intros b it; simpl; [apply ext_refl|].
  eapply ext_trans; [apply (create_ext b t.1 t.2 it)|].
  destruct (create b t.1 t.2 it) as [b1 it1]. apply IH.
Qed.

Lemma create_all_inv b targets it :
  inv b → inv (create_all lhs rhs b targets it).1.
Proof.
  unfold create_all. revert b it.
  induction targets as [|t targets IH]; intros b it Hb; simpl; [done|].
  pose proof (create_inv b t.1 t.2 it Hb) as H1.
  destruct (create b t.1 t.2 it) as [b1 it1]. by apply IH.
Qed.

Lemma create_all_mapped b targets it :
  symbol (create_all lhs rhs b targets it).2 = symbol it ∧
  (∀ x, x ∈ states_to it → x ∈ states_to (create_all lhs rhs b targets it).2) ∧
  (∀ t, t ∈ targets →
     ∃ s, product_map (create_all lhs rhs b targets it).1 !! t = Some s ∧
          s ∈ states_to (create_all lhs rhs b targets it).2).
Proof.
  unfold create_all. revert b it.
  induction targets as [|t targets IH]; intros b it; simpl.
  - split; [done|]. split; [done|]. by intros t ?%elem_of_nil.
  - destruct (create_mapped b t.1 t.2 it) as (s & Hs & Hin & Hsy & Hmono).
    pose proof (create_all_ext (create b t.1 t.2 it).1 targets
                               (create b t.1 t.2 it).2) as Hext.
    unfold create_all in Hext.
    destruct (create b t.1 t.2 it) as [b1 it1]. simpl in *.
    destruct (IH b1 it1) as (IHsy & IHmono & IHmap).
    split; [congruence|]. split; [auto|].
    intros t' [->|Ht']%elem_of_cons; [|auto].
    exists s. split; [|auto].
    eapply ext_map; [exact Hext|]. by destruct t.
Qed.

(** the row written by [add_product_transition] *)
Lemma union_into_Some mv row row' :
  union_into mv row = Some row' →
  length row' = length row ∧
  (∃ m, m ∈ row' ∧ symbol m = symbol mv ∧
        ∀ x, x ∈ states_to mv → x ∈ states_to m) ∧
  (∀ m, m ∈ row → ∃ m', m' ∈ row' ∧ symbol m' = symbol m ∧
                        ∀ x, x ∈ states_to m → x ∈ states_to m').
Proof.
  revert row'. induction row as [|m0 row IH]; intros row'; simpl; [done|].
  destruct (symbol m0 =? symbol mv) eqn:E.
  - intros [= <-]. apply Nat.eqb_eq in E. split; [done|]. split.
    + eexists. split; [by left|]. simpl. split; [done|].
      intros x Hx. apply (OrdVectorFacts.elem_of_Union state_cmp state_laws).
      by right.
    + intros m [->|Hm]%elem_of_cons.
      * eexists. split; [by left|]. simpl. split; [done|].
        intros x Hx. apply (OrdVectorFacts.elem_of_Union state_cmp state_laws).
        by left.
      * exists m. split; [by right|done].
  - destruct (union_into mv row) as [row1|]; [|done]. simpl.
    intros [= <-]. destruct (IH row1 eq_refl) as (Hlen & (m & Hm & Hsy & Hx) & Hmono).
    split; [simpl; lia|]. split.
    + exists m. split; [by right|done].
    + intros m' [->|Hm']%elem_of_cons.
      * exists m0. split; [by left|done].
      * destruct (Hmono m' Hm') as (m'' & ? & ? & ?).
        exists m''. split; [by right|done].
Qed.

Lemma add_product_transition_sound b pair it b' :
  is_Some (product_map b !! pair) →
  add_product_transition b pair it = Ok b' →
  ext b b' ∧ (inv b → inv b') ∧
  ∀ x, x ∈ states_to it →
    ∃ r, product_map b' !! pair = Some r ∧
         has_transition (product b') r (symbol it) x.
Proof.
  intros [r Hr]. unfold add_product_transition.
  destruct (states_to it) as [|x0 xs] eqn:Est.
  { intros [= <-]. split; [apply ext_refl|]. split; [done|].
    by intros x ?%elem_of_nil. }
  rewrite <- Est. clear x0 xs Est.
  unfold map_index. rewrite Hr.
  intros (row & Hrow%index_Ok & [= <-])%bind_Ok.
  set (row' := match union_into it row with
               | Some row0 => row0
               | None => row ++ [it]
               end).
  assert ((∃ m, m ∈ row' ∧ symbol m = symbol it ∧
                ∀ x, x ∈ states_to it → x ∈ states_to m) ∧
          (∀ m, m ∈ row → ∃ m', m' ∈ row' ∧ symbol m' = symbol m ∧
                                ∀ x, x ∈ states_to m → x ∈ states_to m'))
    as [Hnew Hmono].
  { unfold row'. destruct (union_into it row) as [row0|] eqn:E.
    - by apply union_into_Some in E as (_ & ? & ?).
    - split.
      + exists it. split; [|done]. apply elem_of_app. right. by left.
      + intros m Hm. exists m. split; [|done]. apply elem_of_app. by left. }
  assert (r < length (transition_relation (product b))) as Hlt
    by by eapply lookup_lt_Some.
  split; [|split].
  - split; simpl; try done.
    + intros r0 sy r' (row0 & mv & Hrow0 & Hmv & Hsy & Hr').
      destruct (decide (r0 = r)) as [->|Hne].
      * rewrite Hrow in Hrow0. injection Hrow0 as <-.
        destruct (Hmono mv Hmv) as (m' & Hm' & Hsy' & Hx').
        exists row', m'. split; [by apply list_lookup_insert_eq|].
        split; [done|]. split; [congruence|auto].
      * exists row0, mv. split; [|done]. simpl.
        by rewrite list_lookup_insert_ne.
    + intros k Hn [v Hv]. congruence.
    + intros k Hk. by left.
  - intros [Hp Hm Hfb Hf]. split; simpl; try done.
    + intros k s Hk. rewrite length_insert. eauto.
    + intros s Hs. rewrite length_insert. eauto.
  - intros x Hx. exists r. split; [done|].
    destruct Hnew as (m & Hm & Hsy & Hxm).
    exists row', m. simpl. split; [by apply list_lookup_insert_eq|]. auto.
Qed.

Lemma classic_step_sound pair b moves b' :
  is_Some (product_map b !! pair) →
  classic_step lhs rhs pair b moves = Ok b' →
  ext b b' ∧ (inv b → inv b').
Proof.
  intros Hpair. unfold classic_step.
  match goal with
  | |- context [create_all lhs rhs b ?ts ?it] =>
      pose proof (create_all_ext b ts it) as Hext;
      pose proof (create_all_inv b ts it) as Hinv;
      destruct (create_all lhs rhs b ts it) as [b1 it1]
  end.
  simpl in *. intros H.
  apply add_product_transition_sound in H as (Hext' & Hinv' & _);
    [|by eapply ext_is_Some].
  split; [by eapply ext_trans|auto].
Qed.

Lemma classic_steps_sound pair b groups b' :
  is_Some (product_map b !! pair) →
  classic_steps lhs rhs pair b groups = Ok b' →
  ext b b' ∧ (inv b → inv b').
Proof.
  revert b. induction groups as [|moves groups IH]; intros b Hpair; simpl.
  - intros [= <-]. split; [apply ext_refl|done].
  - intros (b1 & H1 & H2)%bind_Ok.
    apply classic_step_sound in H1 as [Hext1 Hinv1]; [|done].
    apply IH in H2 as [Hext2 Hinv2]; [|by eapply ext_is_Some].
    split; [by eapply ext_trans|auto].
Qed.

Lemma epsilon_step_sound pair b row targets_of b' :
  is_Some (product_map b !! pair) →
  epsilon_step EPSILON lhs rhs pair b row targets_of = Ok b' →
  ext b b' ∧ (inv b → inv b') ∧
  ∀ mv x, last row = Some mv → symbol mv = EPSILON → x ∈ states_to mv →
    ∃ r r', product_map b' !! pair = Some r ∧
            product_map b' !! targets_of x = Some r' ∧
            has_transition (product b') r EPSILON r'.
Proof.
  intros Hpair. unfold epsilon_step.
  destruct (last row) as [mv0|]; [|intros [= <-]].
  2: { split; [apply ext_refl|]. split; [done|]. by intros mv x [=]. }
  destruct (symbol mv0 =? EPSILON) eqn:E; [|intros [= <-]].
  2: { split; [apply ext_refl|]. split; [done|].
       intros mv x [= <-] Hsy. apply Nat.eqb_neq in E. done. }
  match goal with
  | |- context [create_all lhs rhs b ?ts ?it] =>
      pose proof (create_all_ext b ts it) as Hext;
      pose proof (create_all_inv b ts it) as Hinv;
      pose proof (create_all_mapped b ts it) as (Hsy & _ & Hmapped);
      destruct (create_all lhs rhs b ts it) as [b1 it1]
  end.
  simpl in *. intros H.
  apply add_product_transition_sound in H as (Hext' & Hinv' & Hnew);
    [|by eapply ext_is_Some].
  split; [by eapply ext_trans|]. split; [auto|].
  intros mv x [= <-] _ Hx.
  destruct (Hmapped (targets_of x)) as (s & Hs & Hin).
  { apply list_elem_of_fmap. eauto. }
  destruct (Hnew s Hin) as (r & Hr & Ht).
  exists r, s. split; [done|]. split; [by eapply ext_map|].
  by rewrite <- Hsy.
Qed.

Lemma eps_lhs_ext b b' p q : ext b b' → eps_lhs b p q → eps_lhs b' p q.
Proof.
  intros He H row mv p' H1 H2 H3 H4.
  destruct (H row mv p' H1 H2 H3 H4) as (r & r' & ? & ? & ?).
  exists r, r'. split; [by eapply ext_map|]. split; [by eapply ext_map|].
  by eapply ext_transition.
Qed.

Lemma eps_rhs_ext b b' p q : ext b b' → eps_rhs b p q → eps_rhs b' p q.
Proof.
  intros He H row mv q' H1 H2 H3 H4.
  destruct (H row mv q' H1 H2 H3 H4) as (r & r' & ? & ? & ?).
  exists r, r'. split; [by eapply ext_map|]. split; [by eapply ext_map|].
  by eapply ext_transition.
Qed.

Lemma process_pair_sound pe pair b b' :
  inv b → pair ∈ pairs_to_process b →
  process_pair EPSILON lhs rhs pe pair b = Ok b' →
  inv b' ∧ ext (erased b pair) b' ∧
  (pe = true → eps_lhs b' pair.1 pair.2 ∧ eps_rhs b' pair.1 pair.2).
Proof.
  intros Hinv Hin. unfold process_pair. fold (erased b pair).
  assert (inv (erased b pair)) as Hinv0.
  { destruct Hinv as [Hp Hm Hfb Hf]. split; simpl; try done.
    intros k Hk. apply Hp. set_solver. }
  assert (is_Some (product_map (erased b pair) !! pair)) as Hpair0
    by (simpl; by apply (inv_pending lhs rhs b Hinv)).
  intros (lhs_moves & Hl%index_Ok & H)%bind_Ok.
  apply bind_Ok in H as (rhs_moves & Hr%index_Ok & H).
  apply bind_Ok in H as (b1 & H1 & H).
  apply classic_steps_sound in H1 as [Hext1 Hinv1]; [|done].
  destruct pe.
  - apply bind_Ok in H as (b2 & H2 & H3).
    apply epsilon_step_sound in H2 as (Hext2 & Hinv2 & Heps2);
      [|by eapply ext_is_Some].
    assert (ext (erased b pair) b2) as Hext02 by by eapply ext_trans.
    apply epsilon_step_sound in H3 as (Hext3 & Hinv3 & Heps3);
      [|by eapply ext_is_Some].
    split; [auto|]. split; [by eapply ext_trans|]. intros _. split.
    + apply (eps_lhs_ext b2); [done|].
      intros row mv p' Hrow Hlast Hsy Hp'. rewrite Hl in Hrow.
      injection Hrow as <-.
      destruct (Heps2 mv p' Hlast Hsy Hp') as (r & r' & ? & ? & ?).
      exists r, r'. by destruct pair.
    + intros row mv q' Hrow Hlast Hsy Hq'. rewrite Hr in Hrow.
      injection Hrow as <-.
      destruct (Heps3 mv q' Hlast Hsy Hq') as (r & r' & ? & ? & ?).
      exists r, r'. by destruct pair.
  - injection H as <-. split; [auto|]. split; [done|]. done.
Qed.

Lemma step_inv pe b b' :
  step EPSILON lhs rhs pe b b' →
  inv b ∧ (pe = true → inv_eps b) → inv b' ∧ (pe = true → inv_eps b').
Proof.
  intros (pair & Hin & Hstep) [Hinv Heps].
  apply process_pair_sound in Hstep as (Hinv' & Hext & Hdone); [|done|done].
  split; [done|]. intros Hpe p q Hsome Hnot.
  destruct (decide ((p, q) = pair)) as [<-|Hne].
  - by apply Hdone.
  - destruct (product_map b !! (p, q)) as [v|] eqn:E.
    + assert ((p, q) ∉ pairs_to_process b) as Hnb.
      { intros Hb. apply Hnot. apply (ext_pending _ _ Hext). simpl. set_solver. }
      destruct (Heps Hpe p q) as [Hl Hr]; [by rewrite E|done|].
      split.
      * apply (eps_lhs_ext (erased b pair)); [done|exact Hl].
      * apply (eps_rhs_ext (erased b pair)); [done|exact Hr].
    + destruct Hnot. by apply (ext_new _ _ Hext).
Qed.

Lemma init_pair_unfold b pair :
  init_pair lhs rhs b pair =
    let new := length (transition_relation (product b)) in
    mkBuild
      (mkNfa (transition_relation (product b) ++ [[]])
             (initial_states (product b) ++ [new])
             (if has_final lhs pair.1 && has_final rhs pair.2
              then final_states (product b) ++ [new]
              else final_states (product b)))
      (<[pair := new]> (product_map b))
      ({[pair]} ∪ pairs_to_process b).
Proof.
  unfold init_pair. simpl.
  by destruct (has_final lhs pair.1 && has_final rhs pair.2).
Qed.

Lemma init_pair_inv b pair :
  inv b ∧ (∀ k, is_Some (product_map b !! k) → k ∈ pairs_to_process b) →
  inv (init_pair lhs rhs b pair) ∧
  (∀ k, is_Some (product_map (init_pair lhs rhs b pair) !! k) →
        k ∈ pairs_to_process (init_pair lhs rhs b pair)).
Proof.
  intros [[Hp Hm Hfb Hf] Hdom]. rewrite init_pair_unfold.
  set (new := length (transition_relation (product b))).
  assert (∀ x, x ∈ (if has_final lhs pair.1 && has_final rhs pair.2
                    then final_states (product b) ++ [new]
                    else final_states (product b))
             ↔ (x = new ∧ has_final lhs pair.1 && has_final rhs pair.2 = true)
               ∨ x ∈ final_states (product b)) as Hfin.
  { intros x. destruct (has_final lhs pair.1 && has_final rhs pair.2).
    - rewrite elem_of_app, list_elem_of_singleton. naive_solver.
    - naive_solver. }
  split; [split|]; simpl.
  - intros k [->%elem_of_singleton|Hk]%elem_of_union.
    + rewrite lookup_insert_eq. eauto.
    + destruct (decide (k = pair)) as [->|Hne].
      * rewrite lookup_insert_eq. eauto.
      * rewrite lookup_insert_ne by done. auto.
  - intros k s Hk. rewrite length_app. simpl.
    destruct (decide (k = pair)) as [->|Hne].
    + rewrite lookup_insert_eq in Hk. injection Hk as <-. unfold new. lia.
    + rewrite lookup_insert_ne in Hk by done. apply Hm in Hk. lia.
  - intros x Hx. rewrite length_app. simpl.
    apply Hfin in Hx as [[-> _]|Hx]; [unfold new; lia|].
    apply Hfb in Hx. lia.
  - intros p q s Hs. rewrite Hfin.
    destruct (decide ((p, q) = pair)) as [<-|Hne].
    + rewrite lookup_insert_eq in Hs. injection Hs as <-. simpl.
      rewrite andb_true_iff. split; [|tauto].
      intros [[_ H]|H]; [done|]. apply Hfb in H. unfold new in H. lia.
    + rewrite lookup_insert_ne in Hs by done.
      rewrite <- (Hf p q s Hs). split; [|tauto].
      intros [[-> _]|H]; [|done]. apply Hm in Hs. unfold new in Hs. lia.
  - intros k Hk. destruct (decide (k = pair)) as [->|Hne]; [set_solver|].
    rewrite lookup_insert_ne in Hk by done. apply Hdom in Hk. set_solver.
Qed.

Lemma init_build_inv :
  inv (init_build lhs rhs) ∧
  (∀ k, is_Some (product_map (init_build lhs rhs) !! k) →
        k ∈ pairs_to_process (init_build lhs rhs)).
Proof.
  unfold init_build.
  assert (inv (mkBuild empty_nfa ∅ ∅) ∧
          (∀ k, is_Some (product_map (mkBuild empty_nfa ∅ ∅) !! k) →
                k ∈ pairs_to_process (mkBuild empty_nfa ∅ ∅))) as H0.
  { split; [split|]; simpl.
    - intros k Hk. set_solver.
    - intros k r Hk. by rewrite lookup_empty in Hk.
    - by intros r ?%elem_of_nil.
    - intros p q r Hk. by rewrite lookup_empty in Hk.
    - intros k [v Hk]. by rewrite lookup_empty in Hk. }
  revert H0. generalize (mkBuild empty_nfa ∅ ∅).
  induction (initial_pairs lhs rhs) as [|pair pairs IH]; intros b Hb; simpl;
    [done|].
  apply IH. by apply init_pair_inv.
Qed.

(** every state of the construction satisfies the invariants *)
Lemma reachable_inv pe b :
  reachable EPSILON lhs rhs pe b → inv b ∧ (pe = true → inv_eps b).
Proof.
  unfold reachable. revert b.
  apply (rtc_ind_r (λ b, inv b ∧ (pe = true → inv_eps b))).
  - destruct init_build_inv as [Hinv Hdom]. split; [done|].
    intros _ p q Hsome Hnot. destruct Hnot. by apply Hdom.
  - intros b1 b2 _ Hstep IH. by eapply step_inv.
Qed.

(** the bounded run only takes steps of the construction *)
Lemma worklist_loop_steps fuel pe b b' :
  worklist_loop EPSILON lhs rhs fuel pe b = Ok b' →
  rtc (step EPSILON lhs rhs pe) b b' ∧ pairs_to_process b' = ∅.
Proof.
  revert b. induction fuel as [|fuel IH]; intros b; simpl.
  - destruct (elements (pairs_to_process b)) as [|pair rest] eqn:E; [|done].
    intros [= <-]. split; [done|]. by apply elements_empty_inv in E as ->%leibniz_equiv.
  - destruct (elements (pairs_to_process b)) as [|pair rest] eqn:E.
    + intros [= <-]. split; [done|].
      by apply elements_empty_inv in E as ->%leibniz_equiv.
    + intros (b1 & H1 & H2)%bind_Ok. apply IH in H2 as [Hrtc Hempty].
      split; [|done]. eapply rtc_l; [|exact Hrtc].
      exists pair. split; [|done]. apply elem_of_elements. rewrite E. by left.
Qed.

Lemma intersection_reachable fuel pe prod pm :
  intersection EPSILON lhs rhs fuel pe = Ok (prod, pm) →
  ∃ b, reachable EPSILON lhs rhs pe b ∧ pairs_to_process b = ∅ ∧
       product b = prod ∧ product_map b = pm.
Proof.
  unfold intersection. intros (b & Hb & [= <- <-])%bind_Ok.
  apply worklist_loop_steps in Hb as [? ?]. by exists b.
Qed.

(** C4: in every state of the construction, whichever pending pair each
    step takes, a product state mapped from a pair is final exactly when
    both components are final; the pairs entered by the initialisation and
    those found while processing are all in the map. *)
Theorem product_finality (pe : bool) (b : Build) (p q r : State) :
  reachable EPSILON lhs rhs pe b →
  product_map b !! (p, q) = Some r →
  has_final (product b) r = true ↔
    has_final lhs p = true ∧ has_final rhs q = true.
Proof.
  intros [Hinv _]%reachable_inv Hr.
  rewrite has_final_spec. by apply (inv_final lhs rhs b Hinv).
Qed.

(** the same for the automaton and the map returned by [intersection] *)
Lemma intersection_finality fuel pe prod pm p q r :
  intersection EPSILON lhs rhs fuel pe = Ok (prod, pm) →
  pm !! (p, q) = Some r →
  has_final prod r = true ↔ has_final lhs p = true ∧ has_final rhs q = true.
Proof.
  intros (b & [Hinv _]%reachable_inv & _ & <- & <-)%intersection_reachable Hr.
  rewrite has_final_spec. by apply (inv_final lhs rhs b Hinv).
Qed.

(** C5: with [preserve_epsilon] set, in every state of the construction
    and for every pair that has been processed (it is in the map and no
    longer pending): when the last move of the left component is an
    epsilon move, the product has an epsilon transition from the state of
    the pair to the state of every pair made of a target of that move and
    the right component, such a state being in the map; and the same with
    the sides exchanged. *)
Theorem epsilon_preservation (b : Build) (p q : State) :
  reachable EPSILON lhs rhs true b →
  is_Some (product_map b !! (p, q)) →
  (p, q) ∉ pairs_to_process b →
  (∀ row mv p',
     transition_relation lhs !! p = Some row → last row = Some mv →
     symbol mv = EPSILON → p' ∈ states_to mv →
     ∃ r r', product_map b !! (p, q) = Some r ∧
             product_map b !! (p', q) = Some r' ∧
             has_transition (product b) r EPSILON r') ∧
  (∀ row mv q',
     transition_relation rhs !! q = Some row → last row = Some mv →
     symbol mv = EPSILON → q' ∈ states_to mv →
     ∃ r r', product_map b !! (p, q) = Some r ∧
             product_map b !! (p, q') = Some r' ∧
             has_transition (product b) r EPSILON r').
Proof.
  intros [_ Heps]%reachable_inv Hsome Hnot.
  by apply (Heps eq_refl p q).
Qed.

(** the same for the automaton and the map returned by [intersection],
    where no pair is pending any more *)
Lemma intersection_epsilon fuel prod pm p q :
  intersection EPSILON lhs rhs fuel true = Ok (prod, pm) →
  is_Some (pm !! (p, q)) →
  (∀ row mv p',
     transition_relation lhs !! p = Some row → last row = Some mv →
     symbol mv = EPSILON → p' ∈ states_to mv →
     ∃ r r', pm !! (p, q) = Some r ∧ pm !! (p', q) = Some r' ∧
             has_transition prod r EPSILON r') ∧
  (∀ row mv q',
     transition_relation rhs !! q = Some row → last row = Some mv →
     symbol mv = EPSILON → q' ∈ states_to mv →
     ∃ r r', pm !! (p, q) = Some r ∧ pm !! (p, q') = Some r' ∧
             has_transition prod r EPSILON r').
Proof.
  intros (b & [_ Heps]%reachable_inv & Hempty & <- & <-)%intersection_reachable
         Hsome.
  apply (Heps eq_refl p q); [done|]. rewrite Hempty. set_solver.
Qed.

(** *** Termination on well-formed automata *)

#[local] Abbreviation in_range := (Nfa.in_range lhs rhs).
#[local] Abbreviation universe := (Nfa.universe lhs rhs).
#[local] Abbreviation ranged := (Nfa.ranged lhs rhs).

Lemma elem_of_universe k : k ∈ universe ↔ in_range k.
Proof.
  unfold Nfa.universe, Nfa.in_range. rewrite elem_of_list_to_set, list_elem_of_bind.
  setoid_rewrite list_elem_of_bind. setoid_rewrite list_elem_of_singleton.
  setoid_rewrite elem_of_seq. destruct k as [p q]. simpl. split.
  - intros (p' & (q' & [= -> ->] & ?) & ?). lia.
  - intros [? ?]. exists p. split; [|lia]. exists q. split; [done|lia].
Qed.

Lemma synchronize_elem l1 l2 m1 m2 :
  (m1, m2) ∈ synchronize l1 l2 → m1 ∈ l1 ∧ m2 ∈ l2.
Proof.
  revert l2. induction l1 as [|x l1 IH]; intros l2.
  - destruct l2; simpl; by intros ?%elem_of_nil.
  - induction l2 as [|y l2 IH2]; simpl.
    + by intros ?%elem_of_nil.
    + destruct (symbol x ?= symbol y) eqn:E.
      * intros [[= -> ->]|H]%elem_of_cons.
        -- split; by left.
        -- apply IH in H as [? ?]. split; by right.
      * intros H. apply IH in H as [? ?]. split; [by right|done].
      * intros H. apply IH2 in H as [? ?]. split; [done|by right].
Qed.

Lemma create_ranged b l r it :
  ranged b → in_range (l, r) → ranged (create b l r it).1.
Proof.
  intros Hb Hlr. rewrite create_unfold.
  destruct (product_map b !! (l, r)) as [s|] eqn:E; simpl; [done|].
  intros k Hk. simpl in Hk. destruct (decide (k = (l, r))) as [->|Hne]; [done|].
  rewrite lookup_insert_ne in Hk by done. by apply Hb.
Qed.

Lemma create_all_ranged b targets it :
  ranged b → (∀ t, t ∈ targets → in_range t) →
  ranged (create_all lhs rhs b targets it).1.
Proof.
  unfold create_all. revert b it.
  induction targets as [|t targets IH]; intros b it Hb Ht; simpl; [done|].
  pose proof (create_ranged b t.1 t.2 it Hb) as H1.
  destruct (create b t.1 t.2 it) as [b1 it1]. apply IH.
  - apply H1. destruct t. apply Ht. by left.
  - intros t' Ht'. apply Ht. by right.
Qed.

Lemma add_product_transition_total b pair it :
  inv b → is_Some (product_map b !! pair) →
  ∃ b', add_product_transition b pair it = Ok b' ∧
        product_map b' = product_map b.
Proof.
  intros Hinv [r Hr]. unfold add_product_transition.
  destruct (states_to it); [by exists b|].
  unfold map_index. rewrite Hr.
  pose proof (inv_map_bound lhs rhs b Hinv pair r Hr) as Hlt.
  destruct (lookup_lt_is_Some_2 _ _ Hlt) as [row Hrow].
  unfold index. rewrite Hrow. simpl. eauto.
Qed.

Lemma classic_step_total pair b moves :
  inv b → ranged b → is_Some (product_map b !! pair) →
  (∀ x y, x ∈ states_to moves.1 → y ∈ states_to moves.2 → in_range (x, y)) →
  ∃ b', classic_step lhs rhs pair b moves = Ok b' ∧ ranged b'.
Proof.
  intros Hinv Hran Hpair Ht. unfold classic_step.
  match goal with
  | |- context [create_all lhs rhs b ?ts ?it] =>
      pose proof (create_all_ext b ts it) as Hext;
      pose proof (create_all_inv b ts it Hinv) as Hinv1;
      pose proof (create_all_ranged b ts it Hran) as Hran1;
      destruct (create_all lhs rhs b ts it) as [b1 it1]
  end.
  simpl in *.
  destruct (add_product_transition_total b1 pair it1 Hinv1) as (b' & Hb' & Hmap);
    [by eapply ext_is_Some|].
  exists b'. split; [done|]. unfold Nfa.ranged. rewrite Hmap. apply Hran1.
  intros t. rewrite list_elem_of_bind. setoid_rewrite list_elem_of_bind.
  setoid_rewrite list_elem_of_singleton.
  intros (x & (y & -> & Hy) & Hx). by apply Ht.
Qed.

Lemma classic_steps_total pair b groups :
  inv b → ranged b → is_Some (product_map b !! pair) →
  (∀ moves x y, moves ∈ groups → x ∈ states_to moves.1 →
                y ∈ states_to moves.2 → in_range (x, y)) →
  ∃ b', classic_steps lhs rhs pair b groups = Ok b' ∧ ranged b'.
Proof.
  revert b. induction groups as [|moves groups IH]; intros b Hinv Hran Hpair Ht;
    simpl; [by exists b|].
  destruct (classic_step_total pair b moves Hinv Hran Hpair) as (b1 & H1 & Hran1).
  { intros x y. apply Ht. by left. }
  rewrite H1. simpl.
  apply classic_step_sound in H1 as [Hext1 Hinv1]; [|done].
  apply IH; [auto|done|by eapply ext_is_Some|].
  intros moves' x y Hm. apply Ht. by right.
Qed.

Lemma epsilon_step_total pair b row targets_of :
  inv b → ranged b → is_Some (product_map b !! pair) →
  (∀ mv x, last row = Some mv → x ∈ states_to mv → in_range (targets_of x)) →
  ∃ b', epsilon_step EPSILON lhs rhs pair b row targets_of = Ok b' ∧ ranged b'.
Proof.
  intros Hinv Hran Hpair Ht. unfold epsilon_step.
  destruct (last row) as [mv|]; [|by exists b].
  destruct (symbol mv =? EPSILON); [|by exists b].
  match goal with
  | |- context [create_all lhs rhs b ?ts ?it] =>
      pose proof (create_all_ext b ts it) as Hext;
      pose proof (create_all_inv b ts it Hinv) as Hinv1;
      pose proof (create_all_ranged b ts it Hran) as Hran1;
      destruct (create_all lhs rhs b ts it) as [b1 it1]
  end.
  simpl in *.
  destruct (add_product_transition_total b1 pair it1 Hinv1) as (b' & Hb' & Hmap);
    [by eapply ext_is_Some|].
  exists b'. split; [done|]. unfold Nfa.ranged. rewrite Hmap. apply Hran1.
  intros t (x & -> & Hx)%list_elem_of_fmap. by eapply Ht.
Qed.

Lemma last_elem_of {A} (l : list A) x : last l = Some x → x ∈ l.
Proof.
  rewrite last_Some. intros [l' ->]. apply elem_of_app. right. by left.
Qed.

Lemma process_pair_total pe pair b :
  well_formed lhs → well_formed rhs →
  inv b → ranged b → pair ∈ pairs_to_process b →
  ∃ b', process_pair EPSILON lhs rhs pe pair b = Ok b' ∧ ranged b'.
Proof.
  intros [_ Hwl] [_ Hwr] Hinv Hran Hin.
  pose proof (inv_pending lhs rhs b Hinv pair Hin) as Hpair.
  destruct (Hran pair Hpair) as [Hp Hq].
  destruct (lookup_lt_is_Some_2 _ _ Hp) as [lhs_moves Hl].
  destruct (lookup_lt_is_Some_2 _ _ Hq) as [rhs_moves Hr].
  assert (lhs_moves ∈ transition_relation lhs) as Hl'
    by by eapply list_elem_of_lookup_2.
  assert (rhs_moves ∈ transition_relation rhs) as Hr'
    by by eapply list_elem_of_lookup_2.
  unfold process_pair. fold (erased b pair).
  assert (inv (erased b pair)) as Hinv0.
  { destruct Hinv as [Hp' Hm Hfb Hf]. split; simpl; try done.
    intros k Hk. apply Hp'. set_solver. }
  unfold index. rewrite Hl, Hr. simpl.
  destruct (classic_steps_total pair (erased b pair)
              (synchronize lhs_moves rhs_moves) Hinv0 Hran Hpair)
    as (b1 & H1 & Hran1).
  { intros [m1 m2] x y [Hm1 Hm2]%synchronize_elem Hx Hy. split; simpl; eauto. }
  rewrite H1. simpl.
  apply classic_steps_sound in H1 as [Hext1 Hinv1]; [|done].
  destruct pe; [|by exists b1].
  destruct (epsilon_step_total pair b1 lhs_moves (λ x, (x, pair.2)))
    as (b2 & H2 & Hran2); [auto|done|by eapply ext_is_Some| |].
  { intros mv x Hlast%last_elem_of Hx. split; simpl; eauto. }
  rewrite H2. simpl.
  apply epsilon_step_sound in H2 as (Hext2 & Hinv2 & _); [|by eapply ext_is_Some].
  apply epsilon_step_total; [auto|done| |].
  - eapply ext_is_Some; [exact Hext2|]. by eapply ext_is_Some.
  - intros mv x Hlast%last_elem_of Hx. split; simpl; eauto.
Qed.

Lemma processed_step b pair b' :
  is_Some (product_map b !! pair) → pair ∈ pairs_to_process b →
  ext (erased b pair) b' →
  processed b' = processed b ∪ {[pair]} ∧ pair ∉ processed b.
Proof.
  intros Hpair Hin [M T P N O]. simpl in *. split; [|unfold processed; set_solver].
  apply set_eq. intros k. unfold processed.
  rewrite elem_of_union, !elem_of_difference, !elem_of_dom, elem_of_singleton.
  split.
  - intros [Hk Hn]. destruct (product_map b !! k) as [v|] eqn:E.
    + destruct (decide (k = pair)) as [->|Hne]; [by right|]. left.
      split; [eauto|]. intros Hb. apply Hn, P. set_solver.
    + destruct Hn. by apply N.
  - intros [[[v Hk] Hn]| ->].
    + split; [eauto|]. intros [Hb|Hb]%O; [set_solver|congruence].
    + destruct Hpair as [v Hv]. split; [eauto|].
      intros [Hb|Hb]%O; [set_solver|congruence].
Qed.

Lemma worklist_loop_total pe :
  well_formed lhs → well_formed rhs →
  ∀ fuel b, inv b → ranged b →
    size (universe ∖ processed b) ≤ fuel →
    ∃ b', worklist_loop EPSILON lhs rhs fuel pe b = Ok b'.
Proof.
  intros Hwl Hwr fuel.
  induction fuel as [|fuel IH]; intros b Hinv Hran Hsize; simpl.
  - destruct (elements (pairs_to_process b)) as [|pair rest] eqn:E; [by exists b|].
    assert (pair ∈ pairs_to_process b) as Hin
      by (apply elem_of_elements; rewrite E; by left).
    pose proof (inv_pending lhs rhs b Hinv pair Hin) as Hpair.
    assert (pair ∈ universe ∖ processed b) as Hu.
    { apply elem_of_difference. split; [by apply elem_of_universe, Hran|].
      unfold processed. set_solver. }
    assert (size (universe ∖ processed b) = 0) as H0 by lia.
    apply size_empty_inv in H0. set_solver.
  - destruct (elements (pairs_to_process b)) as [|pair rest] eqn:E; [by exists b|].
    assert (pair ∈ pairs_to_process b) as Hin
      by (apply elem_of_elements; rewrite E; by left).
    pose proof (inv_pending lhs rhs b Hinv pair Hin) as Hpair.
    destruct (process_pair_total pe pair b Hwl Hwr Hinv Hran Hin)
      as (b1 & H1 & Hran1).
    rewrite H1. simpl.
    apply process_pair_sound in H1 as (Hinv1 & Hext & _); [|done|done].
    destruct (processed_step b pair b1 Hpair Hin Hext) as [Heq Hnot].
    apply IH; [done|done|].
    assert (universe ∖ processed b1 ⊂ universe ∖ processed b) as Hsub.
    { rewrite Heq. split; [set_solver|]. intros Hs.
      assert (pair ∈ universe ∖ processed b) as Hu.
      { apply elem_of_difference. split; [by apply elem_of_universe, Hran|done]. }
      apply Hs in Hu. set_solver. }
    apply subset_size in Hsub. lia.
Qed.

Lemma init_build_ranged :
  well_formed lhs → well_formed rhs → ranged (init_build lhs rhs).
Proof.
  intros [Hil _] [Hir _]. unfold init_build.
  assert (∀ t, t ∈ initial_pairs lhs rhs → in_range t) as Ht.
  { intros t. unfold initial_pairs. rewrite list_elem_of_bind.
    setoid_rewrite list_elem_of_bind. setoid_rewrite list_elem_of_singleton.
    intros (x & (y & -> & Hy) & Hx). split; simpl; auto. }
  assert (ranged (mkBuild empty_nfa ∅ ∅)) as H0.
  { intros k [v Hk]. simpl in Hk. by rewrite lookup_empty in Hk. }
  revert H0 Ht. generalize (mkBuild empty_nfa ∅ ∅).
  induction (initial_pairs lhs rhs) as [|pair pairs IH]; intros b Hb Ht; simpl;
    [done|].
  apply IH.
  - rewrite init_pair_unfold. intros k Hk. simpl in Hk.
    destruct (decide (k = pair)) as [->|Hne]; [apply Ht; by left|].
    rewrite lookup_insert_ne in Hk by done. by apply Hb.
  - intros t Hin. apply Ht. by right.
Qed.

(** X22: on automata whose initial and target states are states, the
    construction returns: a bound on the iterations is the number of pairs
    of states. *)
Lemma intersection_terminates pe :
  well_formed lhs → well_formed rhs →
  ∃ prod pm,
    intersection EPSILON lhs rhs (size universe) pe = Ok (prod, pm).
Proof.
  intros Hwl Hwr. destruct init_build_inv as [Hinv _].
  destruct (worklist_loop_total pe Hwl Hwr (size universe) (init_build lhs rhs))
    as (b & Hb); [done|by apply init_build_ranged| |].
  - apply subseteq_size. set_solver.
  - unfold intersection. rewrite Hb. simpl. eauto.
Qed.

End product.
(** *** The construction on small automata *)

Example product_classical :
  intersection eps one_move one_move 5 false
  = Ok (mkNfa [[mkMove 5 [1]]; []] [0] [1], {[ (0, 0) := 0; (1, 1) := 1 ]}).
Proof. vm_compute. reflexivity. Qed.

Example product_with_epsilon :
  intersection eps one_epsilon one_state 5 true
  = Ok (mkNfa [[mkMove eps [1]]; []] [0] [1], {[ (0, 0) := 0; (1, 0) := 1 ]}).
Proof. vm_compute. reflexivity. Qed.

Example product_without_epsilon :
  intersection eps one_epsilon one_state 5 false
  = Ok (mkNfa [[]] [0] [], {[ (0, 0) := 0 ]}).
Proof. vm_compute. reflexivity. Qed.

Lemma product_finality_witness :
  ∃ b, worklist_loop eps one_epsilon one_state 5 true
         (init_build one_epsilon one_state) = Ok b ∧
       product_map b !! (1, 0) = Some 1 ∧
       (has_final (product b) 1 = true ↔
          has_final one_epsilon 1 = true ∧ has_final one_state 0 = true).
Proof.
  eexists. split; [vm_compute; reflexivity|].
  split; [vm_compute; reflexivity|].
  apply (product_finality eps one_epsilon one_state true _ 1 0 1).
  - apply (worklist_loop_steps eps one_epsilon one_state 5 true).
    vm_compute. reflexivity.
  - vm_compute. reflexivity.
Defined.

Lemma epsilon_preservation_witness :
  ∃ b, worklist_loop eps one_epsilon one_state 5 true
         (init_build one_epsilon one_state) = Ok b ∧
       (∀ row mv p',
          transition_relation one_epsilon !! 0 = Some row →
          last row = Some mv → symbol mv = eps → p' ∈ states_to mv →
          ∃ r r', product_map b !! (0, 0) = Some r ∧
                  product_map b !! (p', 0) = Some r' ∧
                  has_transition (product b) r eps r').
Proof.
  eexists. split; [vm_compute; reflexivity|].
  apply (epsilon_preservation eps one_epsilon one_state _ 0 0).
  - apply (worklist_loop_steps eps one_epsilon one_state 5 true).
    vm_compute. reflexivity.
  - vm_compute. eauto.
  - vm_compute. set_solver.
Defined.

End NfaFacts.

(** ** The transition store: lookups after insertion *)

Module AfaStore.
Import Afa AfaFacts.

Lemma first_dst_app_ne sy row t :
  symb t ≠ sy → first_dst sy (row ++ [t]) = first_dst sy row.
Proof.
  intros Hne. induction row as [|t' row IH]; simpl.
  - apply Nat.eqb_neq in Hne. by rewrite Hne.
  - by destruct (symb t' =? sy).
Qed.

Lemma find_app_None {A} (f : A → bool) l x :
  List.find f l = None → List.find f (l ++ [x]) = List.find f [x].
Proof.
  induction l as [|y l IH]; simpl; [done|]. by destruct (f y).
Qed.

Lemma includes_refl {A} (cmp : A → A → comparison) (l : list A) :
  OrdVector.order_laws cmp → OrdVector.includes cmp l l = true.
Proof.
  intros laws. induction l as [|x l IH]; simpl; [done|].
  by rewrite (OrdVectorFacts.cmp_refl cmp laws).
Qed.

Lemma perform_trans_length aut aut' s sy row :
  length (transRelation aut') = length (transRelation aut) →
  transRelation aut' !! s = Some row →
  perform_trans aut' s sy = Ok (first_dst sy row).
Proof.
  intros Hlen Hrow. unfold perform_trans.
  assert (s < length (transRelation aut')) as Hs by by eapply lookup_lt_Some.
  apply Nat.ltb_lt in Hs. rewrite Hs. simpl. unfold index. by rewrite Hrow.
Qed.

(** X1: when no entry is stored for the source and the symbol of a
    transition whose source is a state, [add_trans] stores the transition
    as the entry, [perform_trans] then returns its destination as it was
    given, and [has_trans] finds it when the destination is not empty. *)
Theorem add_trans_fresh (aut : Afa) (t : Trans) :
  src t < length (transRelation aut) →
  entry aut (src t) (symb t) = None →
  ∃ aut', add_trans aut t = Ok aut' ∧
          entry aut' (src t) (symb t) = Some t ∧
          perform_trans aut' (src t) (symb t) = Ok (dst t) ∧
          (dst t ≠ [] → has_trans aut' t = Ok true).
Proof.
  intros Hs Hnone. destruct (lookup_lt_is_Some_2 _ _ Hs) as [row Hrow].
  unfold entry in Hnone. rewrite Hrow in Hnone. simpl in Hnone.
  eexists. split.
  { apply (add_trans_absent aut t row Hrow). by rewrite first_dst_find, Hnone. }
  assert (entry (with_transRelation aut (<[src t:=row ++ [t]]> (transRelation aut)))
                (src t) (symb t) = Some t) as Hentry.
  { unfold entry. simpl. rewrite list_lookup_insert_eq by done. simpl.
    rewrite (find_app_None _ _ _ Hnone). simpl. by rewrite Nat.eqb_refl. }
  assert (perform_trans
            (with_transRelation aut (<[src t:=row ++ [t]]> (transRelation aut)))
            (src t) (symb t) = Ok (dst t)) as Hp.
  { rewrite perform_trans_entry by (simpl; by rewrite length_insert).
    by rewrite Hentry. }
  split; [done|]. split; [done|].
  intros Hne. unfold has_trans. rewrite Hp. simpl.
  unfold OrdVector.IsSubsetOf. rewrite (includes_refl _ _ node_laws).
  by destruct (dst t).
Qed.

Lemma add_trans_fresh_witness :
  ∃ aut', add_trans two_states (mkTrans 1 7 [[0; 1]]) = Ok aut' ∧
          entry aut' 1 7 = Some (mkTrans 1 7 [[0; 1]]) ∧
          perform_trans aut' 1 7 = Ok [[0; 1]] ∧
          ([[0; 1]] ≠ [] → has_trans aut' (mkTrans 1 7 [[0; 1]]) = Ok true).
Proof.
  apply (add_trans_fresh two_states (mkTrans 1 7 [[0; 1]])).
  - simpl. lia.
  - reflexivity.
Defined.

(** the three ways [add_trans] can end *)
Lemma add_trans_cases aut t :
  (length (transRelation aut) ≤ src t ∧ add_trans aut t = AssertionFailed) ∨
  (∃ row, transRelation aut !! src t = Some row ∧
          first_dst (symb t) row ≠ [] ∧ add_trans aut t = Ok aut) ∨
  (∃ row, transRelation aut !! src t = Some row ∧
          first_dst (symb t) row = [] ∧
          add_trans aut t =
            Ok (with_transRelation aut
                  (<[src t := row ++ [t]]> (transRelation aut)))).
Proof.
  destruct (decide (src t < length (transRelation aut))) as [Hs|Hs].
  - right. destruct (perform_trans_Ok aut (src t) (symb t) Hs) as (row & Hrow & Hp).
    destruct (decide (first_dst (symb t) row = [])) as [He|Hne].
    + right. exists row. split; [done|]. split; [done|].
      by apply add_trans_absent.
    + left. exists row. split; [done|]. split; [done|].
      by eapply add_trans_existing.
  - left. split; [lia|]. unfold add_trans, add_trans_run.
    rewrite perform_trans_out_of_bounds by lia. done.
Qed.

(** X2: a call of [add_trans] that returns leaves the inverse relation,
    the initial and final states and the number of states as they were,
    and changes no lookup for another state or another symbol. *)
Theorem add_trans_frame (aut : Afa) (t : Trans) (aut' : Afa) :
  add_trans aut t = Ok aut' →
  inverseTransRelation aut' = inverseTransRelation aut ∧
  initialstates aut' = initialstates aut ∧
  finalstates aut' = finalstates aut ∧
  length (transRelation aut') = length (transRelation aut) ∧
  ∀ s sy, s ≠ src t ∨ sy ≠ symb t →
          perform_trans aut' s sy = perform_trans aut s sy.
Proof.
  intros H.
  destruct (add_trans_cases aut t)
    as [[_ H']|[(row & Hrow & _ & H')|(row & Hrow & _ & H')]];
    rewrite H' in H; [done|by injection H as <-|]. injection H as <-.
  simpl. split; [done|]. split; [done|]. split; [done|].
  split; [by rewrite length_insert|].
  intros s sy Hne. unfold perform_trans. simpl. rewrite length_insert.
  destruct (s <? length (transRelation aut)) eqn:Hs; [|done]. simpl.
  unfold index. destruct (decide (s = src t)) as [->|Hs'].
  - rewrite list_lookup_insert_eq by by apply Nat.ltb_lt.
    rewrite Hrow. simpl. rewrite first_dst_app_ne; [done|].
    destruct Hne; congruence.
  - by rewrite list_lookup_insert_ne.
Qed.

Lemma add_trans_frame_witness :
  ∃ aut',
    add_trans two_states (mkTrans 1 7 [[0; 1]]) = Ok aut' ∧
    inverseTransRelation aut' = inverseTransRelation two_states ∧
    initialstates aut' = initialstates two_states ∧
    finalstates aut' = finalstates two_states ∧
    length (transRelation aut') = length (transRelation two_states) ∧
    ∀ s sy, s ≠ 1 ∨ sy ≠ 7 →
            perform_trans aut' s sy = perform_trans two_states s sy.
Proof.
  eexists. split; [reflexivity|].
  apply (add_trans_frame two_states (mkTrans 1 7 [[0; 1]])). reflexivity.
Defined.

(** X3: [add_trans] returns exactly when the source is a state of the
    automaton, and stops on the assertion of [perform_trans] otherwise;
    it never reads outside the transition relation. *)
Theorem add_trans_outcome (aut : Afa) (t : Trans) :
  ((∃ aut', add_trans aut t = Ok aut') ↔ src t < length (transRelation aut)) ∧
  (add_trans aut t = AssertionFailed ↔ length (transRelation aut) ≤ src t) ∧
  add_trans aut t ≠ Undefined.
Proof.
  destruct (add_trans_cases aut t)
    as [[Hs H]|[(row & Hrow & _ & H)|(row & Hrow & _ & H)]]; rewrite H.
  - split; [|done]. split; [by intros [? [=]]|lia].
  - apply lookup_lt_Some in Hrow. split; [|split; [|done]].
    + split; [done|eauto].
    + split; [done|lia].
  - apply lookup_lt_Some in Hrow. split; [|split; [|done]].
    + split; [done|eauto].
    + split; [done|lia].
Qed.

Lemma trans_size_fold (m : N) (rows : list (list Trans)) (acc : N) :
  foldl (λ result state, ((result + N.of_nat (length state)) mod m)%N)
        (acc mod m)%N rows
  = ((acc + N.of_nat (sum_list (length <$> rows))) mod m)%N.
Proof.
  revert acc. induction rows as [|row rows IH]; intros acc.
  - simpl. by rewrite N.add_0_r.
  - cbn [foldl fmap list_fmap sum_list sum_list_with]. rewrite IH.
    rewrite <- N.add_assoc, N.Div0.add_mod_idemp_l.
    by rewrite Nat2N.inj_add.
Qed.

Lemma trans_size_sum aut :
  trans_size aut
  = (N.of_nat (sum_list (length <$> transRelation aut)) mod 2 ^ 64)%N.
Proof.
  unfold trans_size.
  rewrite <- (N.add_0_l (N.of_nat _)), <- trans_size_fold. done.
Qed.

Lemma sum_list_insert_snoc (rows : list (list Trans)) s row t :
  rows !! s = Some row →
  sum_list (length <$> <[s := row ++ [t]]> rows)
  = S (sum_list (length <$> rows)).
Proof.
  revert s. induction rows as [|r rows IH]; intros s; [done|].
  destruct s as [|s]; simpl.
  - intros [= ->]. rewrite length_app. simpl. lia.
  - intros H. pose proof (IH s H) as IH'. unfold fmap in IH'. simpl. lia.
Qed.

(** X4: [trans_size] grows by one (in [size_t]) when [add_trans] finds
    nothing stored, or an empty destination, for the source and the
    symbol, and stays as it was when it finds a destination that is not
    empty. *)
Theorem trans_size_add_trans (aut : Afa) (t : Trans) (aut' : Afa) :
  add_trans aut t = Ok aut' →
  ∃ nodes, perform_trans aut (src t) (symb t) = Ok nodes ∧
    trans_size aut' =
      if bool_decide (nodes = []) then ((trans_size aut + 1) mod 2 ^ 64)%N
      else trans_size aut.
Proof.
  intros H.
  destruct (add_trans_cases aut t)
    as [[_ H']|[(row & Hrow & Hd & H')|(row & Hrow & Hd & H')]];
    rewrite H' in H; [done| |]; injection H as <-;
    exists (first_dst (symb t) row).
  - split; [by eapply perform_trans_length|].
    by rewrite bool_decide_eq_false_2.
  - split; [by eapply perform_trans_length|].
    rewrite bool_decide_eq_true_2 by done.
    rewrite !trans_size_sum. simpl. rewrite (sum_list_insert_snoc _ _ _ _ Hrow).
    rewrite N.Div0.add_mod_idemp_l. f_equal. lia.
Qed.

Lemma trans_size_add_trans_witness :
  ∃ aut' nodes,
    add_trans two_states (mkTrans 1 7 [[0; 1]]) = Ok aut' ∧
    perform_trans two_states 1 7 = Ok nodes ∧
    trans_size aut' =
      if bool_decide (nodes = []) then ((trans_size two_states + 1) mod 2 ^ 64)%N
      else trans_size two_states.
Proof.
  eexists. 
  destruct (trans_size_add_trans two_states (mkTrans 1 7 [[0; 1]]) _ eq_refl)
    as (nodes & Hn & Hsize).
  exists nodes. split; [reflexivity|]. split; [exact Hn|exact Hsize].
Defined.

(** *** The inverse relation *)

Lemma first_inverse_find sy bucket :
  first_inverse sy bucket =
    match List.find (λ e, inv_symb e =? sy) bucket with
    | Some e => inverseResults e
    | None => []
    end.
Proof.
  induction bucket as [|e bucket IH]; simpl; [done|].
  by destruct (inv_symb e =? sy).
Qed.

Lemma first_inverse_app sy sy' bucket x :
  first_inverse sy' (bucket ++ [mkInverseTrans sy x]) =
    match List.find (λ e, inv_symb e =? sy') bucket with
    | Some e => inverseResults e
    | None => if sy =? sy' then x else []
    end.
Proof.
  induction bucket as [|e bucket IH]; simpl; [done|].
  by destruct (inv_symb e =? sy').
Qed.

Lemma first_inverse_push sy sy' r bucket :
  first_inverse sy' (push_to_first sy r bucket) =
    match List.find (λ e, inv_symb e =? sy') bucket with
    | Some e => if sy =? sy' then inverseResults e ++ [r] else inverseResults e
    | None => []
    end.
Proof.
  induction bucket as [|e bucket IH]; simpl; [done|].
  destruct (inv_symb e =? sy) eqn:E1; simpl.
  - apply Nat.eqb_eq in E1. rewrite E1.
    destruct (sy =? sy') eqn:E2; [done|].
    rewrite first_inverse_find. done.
  - destruct (inv_symb e =? sy') eqn:E2; [|exact IH].
    apply Nat.eqb_eq in E2. rewrite <- E2, Nat.eqb_sym, E1. done.
Qed.

Lemma scan_sharing_Some s node results :
  is_Some (scan_sharing s node results) ↔
  ∃ r, r ∈ results ∧ sharing_list r = node.
Proof.
  induction results as [|r results IH]; simpl.
  - split; [by intros [? [=]]|]. intros (r & Hr & _). by apply elem_of_nil in Hr.
  - case_bool_decide as Hd.
    + split; [|eauto]. intros _. exists r. split; [by left|done].
    + rewrite IH. split.
      * intros (r' & ? & ?). exists r'. split; [by right|done].
      * intros (r' & [->|?]%elem_of_cons & ?); [done|eauto].
Qed.

Lemma perform_inverse_trans_lookup aut s sy bucket :
  inverseTransRelation aut !! s = Some bucket →
  perform_inverse_trans aut s sy = Ok (first_inverse sy bucket).
Proof. intros H. unfold perform_inverse_trans, index. by rewrite H. Qed.

Lemma perform_inverse_trans_Ok aut s sy results :
  perform_inverse_trans aut s sy = Ok results →
  ∃ bucket, inverseTransRelation aut !! s = Some bucket ∧
            results = first_inverse sy bucket.
Proof.
  unfold perform_inverse_trans.
  intros (bucket & Hb%index_Ok & [= <-])%bind_Ok. eauto.
Qed.

(** the ways one iteration of [add_inverse_trans] can end *)
Lemma add_inverse_node_cases s sy aut node :
  (head node = None ∧ add_inverse_node s sy aut node = Undefined) ∨
  (∃ m, head node = Some m ∧ length (inverseTransRelation aut) ≤ m ∧
        add_inverse_node s sy aut node = Undefined) ∨
  (∃ m bucket,
     head node = Some m ∧ inverseTransRelation aut !! m = Some bucket ∧
     add_inverse_node s sy aut node =
       Ok (if decide (is_Some (scan_sharing s node (first_inverse sy bucket)))
           then aut
           else with_inverseTransRelation aut
                  (<[m := if bool_decide (first_inverse sy bucket = [])
                          then bucket ++
                               [mkInverseTrans sy [new_inverse_result s node]]
                          else push_to_first sy (new_inverse_result s node)
                                 bucket]>
                     (inverseTransRelation aut)))).
Proof.
  destruct node as [|m rest]; [by left|]. right.
  destruct (inverseTransRelation aut !! m) as [bucket|] eqn:Hb.
  - right. exists m, bucket. split; [done|]. split; [done|].
    unfold add_inverse_node. cbn [mbind Outcome_bind].
    rewrite (perform_inverse_trans_lookup _ _ _ _ Hb). cbn [mbind Outcome_bind].
    destruct (scan_sharing s (m :: rest) (first_inverse sy bucket)) eqn:E.
    + rewrite decide_True by eauto. done.
    + rewrite decide_False by (by intros [? [=]]).
      unfold index. rewrite Hb. cbn [mbind Outcome_bind].
      by case_bool_decide.
  - left. exists m. split; [done|]. split; [by apply lookup_ge_None|].
    unfold add_inverse_node, perform_inverse_trans, index. simpl.
    by rewrite Hb.
Qed.

(** what one iteration changes: nothing but the bucket of the least state
    of the node for the symbol, which gains at most the new inverse
    result at its end *)
Lemma add_inverse_node_effect s sy aut node aut' :
  add_inverse_node s sy aut node = Ok aut' →
  transRelation aut' = transRelation aut ∧
  initialstates aut' = initialstates aut ∧
  finalstates aut' = finalstates aut ∧
  length (inverseTransRelation aut') = length (inverseTransRelation aut) ∧
  ∀ s0 sy0 results,
    perform_inverse_trans aut s0 sy0 = Ok results →
    ∃ added,
      perform_inverse_trans aut' s0 sy0 = Ok (results ++ added) ∧
      (added = [] ∨
       added = [new_inverse_result s node] ∧ sy0 = sy ∧ head node = Some s0).
Proof.
  intros H.
  destruct (add_inverse_node_cases s sy aut node)
    as [[_ H']|[(m & _ & _ & H')|(m & bucket & Hm & Hb & H')]];
    rewrite H' in H; [done|done|]. injection H as <-.
  destruct (decide (is_Some _)) as [Hfound|Hnot].
  { repeat (split; [done|]). intros s0 sy0 results Hr. exists [].
    rewrite app_nil_r. auto. }
  simpl. repeat (split; [done|]). split; [by rewrite length_insert|].
  intros s0 sy0 results (bucket0 & Hb0 & ->)%perform_inverse_trans_Ok.
  assert (m < length (inverseTransRelation aut)) as Hlt
    by by eapply lookup_lt_Some.
  destruct (decide (s0 = m)) as [->|Hne].
  - rewrite Hb in Hb0. injection Hb0 as <-.
    erewrite perform_inverse_trans_lookup;
      [|simpl; by apply list_lookup_insert_eq].
    case_bool_decide as He.
    + rewrite first_inverse_app, (first_inverse_find sy0 bucket).
      rewrite first_inverse_find in He.
      destruct (List.find (λ e, inv_symb e =? sy0) bucket) as [e|] eqn:Ef.
      * exists []. rewrite app_nil_r. auto.
      * destruct (sy =? sy0) eqn:Es.
        -- apply Nat.eqb_eq in Es as <-. eexists. split; [reflexivity|]. auto.
        -- exists []. auto.
    + rewrite first_inverse_push, (first_inverse_find sy0 bucket).
      destruct (List.find (λ e, inv_symb e =? sy0) bucket) as [e|] eqn:Ef.
      * destruct (sy =? sy0) eqn:Es.
        -- apply Nat.eqb_eq in Es as <-. eexists. split; [reflexivity|]. auto.
        -- exists []. rewrite app_nil_r. auto.
      * exists []. auto.
  - erewrite perform_inverse_trans_lookup;
      [|simpl; rewrite list_lookup_insert_ne by done; exact Hb0].
    exists []. rewrite app_nil_r. auto.
Qed.

Lemma add_inverse_nodes_effect s sy nodes aut aut' :
  add_inverse_nodes s sy aut nodes = Ok aut' →
  transRelation aut' = transRelation aut ∧
  initialstates aut' = initialstates aut ∧
  finalstates aut' = finalstates aut ∧
  length (inverseTransRelation aut') = length (inverseTransRelation aut) ∧
  ∀ s0 sy0 results,
    perform_inverse_trans aut s0 sy0 = Ok results →
    ∃ added,
      perform_inverse_trans aut' s0 sy0 = Ok (results ++ added) ∧
      (sy0 ≠ sy → added = []) ∧
      ∀ r, r ∈ added →
           result_nodes r = [s] ∧ sharing_list r ∈ nodes ∧
           head (sharing_list r) = Some s0.
Proof.
  revert aut. induction nodes as [|node nodes IH]; intros aut; simpl.
  - intros [= <-]. repeat (split; [done|]). intros s0 sy0 results Hr.
    exists []. rewrite app_nil_r. split; [done|]. split; [done|].
    by intros r ?%elem_of_nil.
  - intros (aut1 & H1 & H2)%bind_Ok.
    apply add_inverse_node_effect in H1 as (T1 & I1 & F1 & L1 & E1).
    apply IH in H2 as (T2 & I2 & F2 & L2 & E2).
    split; [congruence|]. split; [congruence|]. split; [congruence|].
    split; [congruence|].
    intros s0 sy0 results Hr.
    destruct (E1 s0 sy0 results Hr) as (added1 & Hr1 & Hadded1).
    destruct (E2 s0 sy0 _ Hr1) as (added2 & Hr2 & Hsy2 & Hadded2).
    exists (added1 ++ added2). rewrite app_assoc. split; [done|]. split.
    + intros Hne. rewrite (Hsy2 Hne).
      destruct Hadded1 as [->|(_ & -> & _)]; done.
    + intros r [Hin|Hin]%elem_of_app.
      * destruct Hadded1 as [->|(-> & _ & Hhead)]; [by apply elem_of_nil in Hin|].
        apply list_elem_of_singleton in Hin as ->. simpl.
        split; [done|]. split; [by left|done].
      * destruct (Hadded2 r Hin) as (? & ? & ?).
        split; [done|]. split; [by right|done].
Qed.

(** X5: one call of [add_inverse_trans] keeps the transition relation, the
    initial and final states and the number of inverse buckets, and every
    inverse lookup returns what it returned before followed by inverse
    results that were added: none for another symbol, and each of them
    with the source as its only result node and a destination node
    keyed at the looked-up state as its sharing list. *)
Theorem add_inverse_trans_appends (aut : Afa) (t : Trans) (aut' : Afa) :
  add_inverse_trans aut t = Ok aut' →
  transRelation aut' = transRelation aut ∧
  initialstates aut' = initialstates aut ∧
  finalstates aut' = finalstates aut ∧
  length (inverseTransRelation aut') = length (inverseTransRelation aut) ∧
  ∀ s0 sy0 results,
    perform_inverse_trans aut s0 sy0 = Ok results →
    ∃ added,
      perform_inverse_trans aut' s0 sy0 = Ok (results ++ added) ∧
      (sy0 ≠ symb t → added = []) ∧
      ∀ r, r ∈ added →
           result_nodes r = [src t] ∧ sharing_list r ∈ dst t ∧
           head (sharing_list r) = Some s0.
Proof. apply add_inverse_nodes_effect. Qed.

Lemma add_inverse_trans_appends_witness :
  ∃ aut',
    add_inverse_trans two_states (mkTrans 1 7 [[0; 1]; [1]]) = Ok aut' ∧
    transRelation aut' = transRelation two_states ∧
    initialstates aut' = initialstates two_states ∧
    finalstates aut' = finalstates two_states ∧
    length (inverseTransRelation aut') = length (inverseTransRelation two_states) ∧
    ∀ s0 sy0 results,
      perform_inverse_trans two_states s0 sy0 = Ok results →
      ∃ added,
        perform_inverse_trans aut' s0 sy0 = Ok (results ++ added) ∧
        (sy0 ≠ 7 → added = []) ∧
        ∀ r, r ∈ added →
             result_nodes r = [1] ∧ sharing_list r ∈ [[0; 1]; [1]] ∧
             head (sharing_list r) = Some s0.
Proof.
  eexists. split; [reflexivity|].
  apply (add_inverse_trans_appends two_states (mkTrans 1 7 [[0; 1]; [1]])).
  reflexivity.
Defined.

(** X6: for a destination of one node with the least state [m], looked up
    in a bucket whose entry for the symbol, if any, is not empty:
    when the node is not yet a sharing list there, [add_inverse_trans]
    appends the inverse result (source, node) and the lookup at [m]
    returns the former results followed by it; when it is, the lookup
    returns the former results unchanged. *)
Theorem add_inverse_trans_lookup (aut : Afa) (s : State) (sy : Symbol)
    (A : Node) (m : State) (results : list InverseResults) :
  head A = Some m →
  perform_inverse_trans aut m sy = Ok results →
  (∀ e, inverse_entry aut m sy = Some e → inverseResults e ≠ []) →
  ∃ aut',
    add_inverse_trans aut (mkTrans s sy [A]) = Ok aut' ∧
    ((∀ r, r ∈ results → sharing_list r ≠ A) →
     perform_inverse_trans aut' m sy
     = Ok (results ++ [mkInverseResults [s] A])) ∧
    ((∃ r, r ∈ results ∧ sharing_list r = A) →
     perform_inverse_trans aut' m sy = Ok results).
Proof.
  intros Hm (bucket & Hb & ->)%perform_inverse_trans_Ok Hentry.
  unfold add_inverse_trans. simpl.
  destruct (add_inverse_node_cases s sy aut A)
    as [[H' _]|[(m' & Hm' & Hlen & _)|(m' & bucket' & Hm' & Hb' & H')]].
  { congruence. }
  { rewrite Hm in Hm'. injection Hm' as <-. apply lookup_lt_Some in Hb. lia. }
  rewrite Hm in Hm'. injection Hm' as <-. rewrite Hb in Hb'. injection Hb' as <-.
  rewrite H'. simpl. eexists. split; [reflexivity|].
  assert (m < length (inverseTransRelation aut)) as Hlt
    by by eapply lookup_lt_Some.
  destruct (decide (is_Some _)) as [Hfound|Hnot].
  - apply scan_sharing_Some in Hfound as (r & Hr & HrA). split.
    + intros Hall. by destruct (Hall r Hr).
    + intros _. by apply perform_inverse_trans_lookup.
  - split.
    + intros _.
      erewrite perform_inverse_trans_lookup;
        [|simpl; by apply list_lookup_insert_eq].
      unfold inverse_entry in Hentry. rewrite Hb in Hentry. simpl in Hentry.
      case_bool_decide as He.
      * rewrite first_inverse_app, Nat.eqb_refl, He.
        rewrite first_inverse_find in He.
        destruct (List.find (λ e, inv_symb e =? sy) bucket) as [e|]; [|done].
        by destruct (Hentry e).
      * rewrite first_inverse_push, Nat.eqb_refl, first_inverse_find.
        rewrite first_inverse_find in He.
        by destruct (List.find (λ e, inv_symb e =? sy) bucket).
    + intros Hex. destruct Hnot. by apply scan_sharing_Some.
Qed.

Lemma add_inverse_trans_lookup_witness :
  ∃ aut',
    add_inverse_trans two_states (mkTrans 1 7 [[0; 1]]) = Ok aut' ∧
    ((∀ r, r ∈ [] → sharing_list r ≠ [0; 1]) →
     perform_inverse_trans aut' 0 7 = Ok ([] ++ [mkInverseResults [1] [0; 1]])) ∧
    ((∃ r, r ∈ [] ∧ sharing_list r = [0; 1]) →
     perform_inverse_trans aut' 0 7 = Ok []).
Proof.
  apply (add_inverse_trans_lookup two_states 1 7 [0; 1] 0 []).
  - reflexivity.
  - reflexivity.
  - intros e. simpl. discriminate.
Defined.

Lemma add_inverse_nodes_outcome s sy nodes aut :
  (∃ aut', add_inverse_nodes s sy aut nodes = Ok aut') ∧
    (∀ node, node ∈ nodes →
       ∃ m, head node = Some m ∧ m < length (inverseTransRelation aut)) ∨
  add_inverse_nodes s sy aut nodes = Undefined ∧
    (∃ node, node ∈ nodes ∧
       ∀ m, head node = Some m → length (inverseTransRelation aut) ≤ m).
Proof.
  revert aut. induction nodes as [|node nodes IH]; intros aut; simpl.
  - left. split; [eauto|]. by intros node ?%elem_of_nil.
  - destruct (add_inverse_node_cases s sy aut node)
      as [[Hh H']|[(m & Hh & Hlen & H')|(m & bucket & Hh & Hb & H')]].
    + right. rewrite H'. split; [done|]. exists node. split; [by left|].
      intros m. by rewrite Hh.
    + right. rewrite H'. split; [done|]. exists node. split; [by left|].
      intros m'. rewrite Hh. by intros [= <-].
    + pose proof H' as Heff. apply add_inverse_node_effect in Heff as (_ & _ & _ & Hl & _).
      rewrite H'. cbn [mbind Outcome_bind].
      match goal with |- context [add_inverse_nodes s sy ?a nodes] =>
        destruct (IH a) as [[Hok Hall]|[Hun (node' & Hin & Hbad)]]
      end.
      * left. split; [done|]. intros node' [->|Hin]%elem_of_cons.
        -- exists m. split; [done|]. by eapply lookup_lt_Some.
        -- destruct (Hall node' Hin) as (m' & ? & ?). exists m'.
           split; [done|]. by rewrite <- Hl.
      * right. split; [done|]. exists node'. split; [by right|].
        intros m' Hm'. rewrite <- Hl. by apply Hbad.
Qed.

(** X7: [add_inverse_trans] returns exactly when every node of the
    destination is non-empty and has its least state among the inverse
    buckets; otherwise it reads the first element of an empty node or
    indexes the inverse relation out of range, with no check. *)
Theorem add_inverse_trans_outcome (aut : Afa) (t : Trans) :
  ((∃ aut', add_inverse_trans aut t = Ok aut') ↔
     ∀ node, node ∈ dst t →
       ∃ m, head node = Some m ∧ m < length (inverseTransRelation aut)) ∧
  ((∃ aut', add_inverse_trans aut t = Ok aut') ∨
   add_inverse_trans aut t = Undefined).
Proof.
  unfold add_inverse_trans.
  destruct (add_inverse_nodes_outcome (src t) (symb t) (dst t) aut)
    as [[Hok Hall]|[Hun (node & Hin & Hbad)]].
  - split; [|by left]. split; [done|]. by intros _.
  - rewrite Hun. split; [|by right]. split; [by intros [? [=]]|].
    intros Hall. destruct (Hall node Hin) as (m & Hm & Hlt).
    apply Hbad in Hm. lia.
Qed.

End AfaStore.

(** ** The predicate transformers: further properties *)

Module Transformers.
Import Afa ClosedSet ClosedSetFacts AfaFacts PostFacts AfaStore.

Lemma post_state_inv aut s sy Cs :
  stored_sorted aut → post_state aut s sy = Ok Cs →
  s < length (transRelation aut) ∧ type_ Cs = upward_closed_set ∧
  sorted_nodes (antichain Cs).
Proof.
  intros Hwf H. destruct (decide (s < length (transRelation aut))) as [Hs|Hs].
  - split; [done|].
    destruct (post_state_spec aut s sy Hwf Hs) as (Cs' & HCs' & ? & ?).
    rewrite H in HCs'. by injection HCs' as <-.
  - rewrite post_state_out_of_bounds in H by lia. done.
Qed.

Lemma post_node_symb_loop_sorted aut sy states used result C :
  stored_sorted aut →
  type_ result = upward_closed_set → sorted_nodes (antichain result) →
  post_node_symb_loop aut sy states used result = Ok C →
  type_ C = upward_closed_set ∧ sorted_nodes (antichain C).
Proof.
  intros Hwf. revert used result.
  induction states as [|s states IH]; intros used result Hty Hs; simpl.
  - by intros [= <-].
  - intros (Cs & HCs & H)%bind_Ok.
    apply post_state_inv in HCs as (_ & HtyCs & HsCs); [|done].
    destruct used; simpl in H.
    + eapply IH; [| |exact H].
      * by rewrite type_intersection.
      * by apply sorted_nodes_intersection.
    + eapply IH; [| |exact H].
      * by rewrite type_insert_nodes.
      * by apply sorted_nodes_insert_nodes.
Qed.

(** [post] on a node and a symbol, with the order of the nodes returned *)
Lemma post_node_symb_sound aut N sy :
  stored_sorted aut →
  (∀ s, s ∈ N → s < length (transRelation aut)) →
  ∃ C, post_node_symb aut N sy = Ok C ∧
       type_ C = upward_closed_set ∧ sorted_nodes (antichain C) ∧
       ∀ M, node_sorted M →
         contains C M = true ↔
           ∀ s, s ∈ N →
             ∃ Cs, post_state aut s sy = Ok Cs ∧ contains Cs M = true.
Proof.
  intros Hwf Hin. destruct N as [|s states].
  - eexists. split; [reflexivity|]. split; [done|]. split.
    + intros z Hz. simpl in Hz. apply list_elem_of_singleton in Hz as ->.
      apply OrdVectorFacts.sorted_nil.
    + intros M HM. split; [|intros _; apply contains_top].
      by intros _ s ?%elem_of_nil.
  - unfold post_node_symb.
    destruct (post_state_spec aut s sy Hwf) as (Cs & HCs & HtyCs & HsCs).
    { apply Hin. by left. }
    cbn [post_node_symb_loop negb]. rewrite HCs. cbn [mbind Outcome_bind].
    set (first := insert_nodes (empty_set upward_closed_set aut) (antichain Cs)).
    assert (type_ first = upward_closed_set) as Htyf
      by (unfold first; by rewrite type_insert_nodes).
    assert (sorted_nodes (antichain first)) as Hsf.
    { apply sorted_nodes_insert_nodes; [|done]. simpl. by intros z ?%elem_of_nil. }
    assert (∀ M, node_sorted M → contains first M = true ↔ contains Cs M = true)
      as Hfirst.
    { intros M HM. unfold first.
      rewrite contains_insert_nodes;
        [|done|simpl; by intros z ?%elem_of_nil|done|done].
      rewrite (contains_upward Cs) by done.
      split; [|by right]. intros [H|H]; [|done].
      apply contains_upward in H as (A & HA & _); [|done].
      by apply elem_of_nil in HA. }
    destruct (post_node_symb_loop_spec aut sy states first Hwf)
      as (C & HC & HtyC & HCM); [|done|done|].
    { intros s' Hs'. apply Hin. by right. }
    exists C. split; [done|]. split; [done|]. split.
    { by eapply (post_node_symb_loop_sorted aut sy states true first C). }
    intros M HM. rewrite (HCM M HM), (Hfirst M HM). split.
    + intros [H1 H2] s' [->|Hs']%elem_of_cons; eauto.
    + intros H. split.
      * destruct (H s) as (Cs' & HCs' & Hc); [by left|].
        rewrite HCs in HCs'. by injection HCs' as <-.
      * intros s' Hs'. apply H. by right.
Qed.

(** X8: [post] on a node is antitone in the node: when every state of
    [N] occurs in [N'], whatever [post] of [N'] contains is contained in
    [post] of [N]. *)
Theorem post_node_symb_antitone (aut : Afa) (N N' : Node) (sy : Symbol) :
  stored_sorted aut →
  (∀ s, s ∈ N' → s < length (transRelation aut)) →
  (∀ s, s ∈ N → s ∈ N') →
  ∃ C C', post_node_symb aut N sy = Ok C ∧
          post_node_symb aut N' sy = Ok C' ∧
          ∀ M, node_sorted M → contains C' M = true → contains C M = true.
Proof.
  intros Hwf Hin Hsub.
  destruct (post_node_symb_sound aut N sy Hwf) as (C & HC & _ & _ & HCM);
    [auto|].
  destruct (post_node_symb_sound aut N' sy Hwf Hin) as (C' & HC' & _ & _ & HCM').
  exists C, C'. split; [done|]. split; [done|].
  intros M HM H. apply (HCM M HM). intros s Hs.
  apply (HCM' M HM); auto.
Qed.

Lemma stored_sorted_two_moves : stored_sorted two_moves.
Proof.
  intros row t Hrow Ht n Hn. unfold two_moves in Hrow. simpl in Hrow.
  repeat (apply elem_of_cons in Hrow as [->|Hrow]);
    [| |by apply elem_of_nil in Hrow].
  - apply list_elem_of_singleton in Ht as ->. simpl in Hn.
    repeat (apply elem_of_cons in Hn as [->|Hn]);
      [| |by apply elem_of_nil in Hn]; repeat constructor.
  - apply list_elem_of_singleton in Ht as ->. simpl in Hn.
    apply list_elem_of_singleton in Hn as ->. repeat constructor.
Qed.

Lemma post_node_symb_antitone_witness :
  ∃ C C', post_node_symb two_moves [0] 0 = Ok C ∧
          post_node_symb two_moves [0; 1] 0 = Ok C' ∧
          ∀ M, node_sorted M → contains C' M = true → contains C M = true.
Proof.
  apply (post_node_symb_antitone two_moves [0] [0; 1] 0).
  - exact stored_sorted_two_moves.
  - intros s Hs. simpl.
    repeat (apply elem_of_cons in Hs as [->|Hs]); [lia|lia|].
    by apply elem_of_nil in Hs.
  - intros s ->%list_elem_of_singleton. by left.
Defined.

Lemma post_nodes_symb_loop_spec aut sy nodes result :
  stored_sorted aut →
  (∀ N s, N ∈ nodes → s ∈ N → s < length (transRelation aut)) →
  type_ result = upward_closed_set → sorted_nodes (antichain result) →
  ∃ C, post_nodes_symb_loop aut sy nodes result = Ok C ∧
       type_ C = upward_closed_set ∧ sorted_nodes (antichain C) ∧
       ∀ M, node_sorted M →
         contains C M = true ↔
           contains result M = true ∨
           ∃ N CN, N ∈ nodes ∧ post_node_symb aut N sy = Ok CN ∧
                   contains CN M = true.
Proof.
  intros Hwf. revert result.
  induction nodes as [|N nodes IH]; intros result Hin Hty Hs; simpl.
  - exists result. split; [done|]. split; [done|]. split; [done|].
    intros M HM. split; [by left|].
    intros [?|(N & CN & HN & _)]; [done|]. by apply elem_of_nil in HN.
  - destruct (post_node_symb_sound aut N sy Hwf) as (CN & HCN & HtyN & HsN & HNM).
    { intros s. apply Hin. by left. }
    rewrite HCN. cbn [mbind Outcome_bind].
    destruct (IH (insert_nodes result (antichain CN)))
      as (C & HC & HtyC & HsC & HCM).
    + intros N' s HN'. apply Hin. by right.
    + by rewrite type_insert_nodes.
    + by apply sorted_nodes_insert_nodes.
    + exists C. split; [done|]. split; [done|]. split; [done|].
      intros M HM. rewrite (HCM M HM), contains_insert_nodes by done.
      rewrite <- (contains_upward CN M HtyN). split.
      * intros [[?|?]|(N' & CN' & HN' & ? & ?)]; [by left| |].
        -- right. exists N, CN. split; [by left|done].
        -- right. exists N', CN'. split; [by right|done].
      * intros [?|(N' & CN' & [->|HN']%elem_of_cons & HCN' & Hc)].
        -- by left; left.
        -- left; right. rewrite HCN in HCN'. by injection HCN' as <-.
        -- right. eauto.
Qed.

(** X9: [post] on a set of nodes and a symbol is the union of [post] on
    its nodes: it contains a node exactly when [post] of one of them
    does. *)
Theorem post_nodes_symb_union (aut : Afa) (nodes : Nodes) (sy : Symbol) :
  stored_sorted aut →
  (∀ N s, N ∈ nodes → s ∈ N → s < length (transRelation aut)) →
  ∃ C, post_nodes_symb aut nodes sy = Ok C ∧
       type_ C = upward_closed_set ∧
       ∀ M, node_sorted M →
         contains C M = true ↔
           ∃ N CN, N ∈ nodes ∧ post_node_symb aut N sy = Ok CN ∧
                   contains CN M = true.
Proof.
  intros Hwf Hin. unfold post_nodes_symb.
  destruct (post_nodes_symb_loop_spec aut sy nodes
              (empty_set upward_closed_set aut) Hwf Hin)
    as (C & HC & HtyC & _ & HCM); [done|simpl; by intros z ?%elem_of_nil|].
  exists C. split; [done|]. split; [done|]. intros M HM.
  rewrite (HCM M HM). split; [|by right].
  intros [H|H]; [|done]. unfold contains in H. simpl in H. done.
Qed.

Lemma post_nodes_symb_union_witness :
  ∃ C, post_nodes_symb two_moves [[0]; [0; 1]] 0 = Ok C ∧
       type_ C = upward_closed_set ∧
       ∀ M, node_sorted M →
         contains C M = true ↔
           ∃ N CN, N ∈ [[0]; [0; 1]] ∧ post_node_symb two_moves N 0 = Ok CN ∧
                   contains CN M = true.
Proof.
  apply (post_nodes_symb_union two_moves [[0]; [0; 1]] 0).
  - exact stored_sorted_two_moves.
  - intros N s HN Hs. simpl.
    repeat (apply elem_of_cons in HN as [->|HN]);
      [| |by apply elem_of_nil in HN];
      repeat (apply elem_of_cons in Hs as [->|Hs]);
      try lia; by apply elem_of_nil in Hs.
Defined.

Lemma post_node_loop_spec aut N row result :
  stored_sorted aut →
  (∀ s, s ∈ N → s < length (transRelation aut)) →
  type_ result = upward_closed_set → sorted_nodes (antichain result) →
  ∃ C, post_node_loop aut N row result = Ok C ∧
       type_ C = upward_closed_set ∧ sorted_nodes (antichain C) ∧
       ∀ M, node_sorted M →
         contains C M = true ↔
           contains result M = true ∨
           ∃ t CN, t ∈ row ∧ post_node_symb aut N (symb t) = Ok CN ∧
                   contains CN M = true.
Proof.
  intros Hwf Hin. revert result.
  induction row as [|t row IH]; intros result Hty Hs; simpl.
  - exists result. split; [done|]. split; [done|]. split; [done|].
    intros M HM. split; [by left|].
    intros [?|(t & CN & Ht & _)]; [done|]. by apply elem_of_nil in Ht.
  - destruct (post_node_symb_sound aut N (symb t) Hwf Hin)
      as (CN & HCN & HtyN & HsN & HNM).
    rewrite HCN. cbn [mbind Outcome_bind].
    destruct (IH (insert_nodes result (antichain CN)))
      as (C & HC & HtyC & HsC & HCM).
    + by rewrite type_insert_nodes.
    + by apply sorted_nodes_insert_nodes.
    + exists C. split; [done|]. split; [done|]. split; [done|].
      intros M HM. rewrite (HCM M HM), contains_insert_nodes by done.
      rewrite <- (contains_upward CN M HtyN). split.
      * intros [[?|?]|(t' & CN' & Ht' & ? & ?)]; [by left| |].
        -- right. exists t, CN. split; [by left|done].
        -- right. exists t', CN'. split; [by right|done].
      * intros [?|(t' & CN' & [->|Ht']%elem_of_cons & HCN' & Hc)].
        -- by left; left.
        -- left; right. rewrite HCN in HCN'. by injection HCN' as <-.
        -- right. eauto.
Qed.

Lemma post_node_sound aut N :
  stored_sorted aut →
  (∀ s, s ∈ N → s < length (transRelation aut)) →
  ∃ C, post_node aut N = Ok C ∧
       type_ C = upward_closed_set ∧ sorted_nodes (antichain C) ∧
       ∀ M, node_sorted M →
         contains C M = true ↔
           N = [] ∨
           ∃ least row t CN,
             head N = Some least ∧ transRelation aut !! least = Some row ∧
             t ∈ row ∧ post_node_symb aut N (symb t) = Ok CN ∧
             contains CN M = true.
Proof.
  intros Hwf Hin. destruct N as [|least rest].
  - eexists. split; [reflexivity|]. split; [done|]. split.
    + intros z Hz. simpl in Hz. apply list_elem_of_singleton in Hz as ->.
      apply OrdVectorFacts.sorted_nil.
    + intros M HM. split; [by left|]. intros _.
      unfold contains. simpl. by destruct M.
  - unfold post_node.
    assert (least < length (transRelation aut)) as Hl by (apply Hin; by left).
    destruct (lookup_lt_is_Some_2 _ _ Hl) as [row Hrow].
    unfold index. rewrite Hrow. cbn [mbind Outcome_bind].
    destruct (post_node_loop_spec aut (least :: rest) row
                (empty_set upward_closed_set aut) Hwf Hin)
      as (C & HC & HtyC & HsC & HCM); [done|simpl; by intros z ?%elem_of_nil|].
    exists C. split; [done|]. split; [done|]. split; [done|].
    intros M HM. rewrite (HCM M HM). split.
    + intros [H|(t & CN & ? & ? & ?)]; [by unfold contains in H|].
      right. exists least, row, t, CN. done.
    + intros [?|(least' & row' & t & CN & [= <-] & Hrow' & ? & ? & ?)]; [done|].
      rewrite Hrow in Hrow'. injection Hrow' as <-. right. eauto.
Qed.

(** X10: [post] on a node without a symbol returns, for a node whose
    states are states of the automaton, the union of [post] on the node
    and each symbol that labels an entry of the least state of the node;
    for the empty node it contains every node. *)
Theorem post_node_union (aut : Afa) (N : Node) :
  stored_sorted aut →
  (∀ s, s ∈ N → s < length (transRelation aut)) →
  ∃ C, post_node aut N = Ok C ∧
       type_ C = upward_closed_set ∧
       ∀ M, node_sorted M →
         contains C M = true ↔
           N = [] ∨
           ∃ least row t CN,
             head N = Some least ∧ transRelation aut !! least = Some row ∧
             t ∈ row ∧ post_node_symb aut N (symb t) = Ok CN ∧
             contains CN M = true.
Proof.
  intros Hwf Hin.
  destruct (post_node_sound aut N Hwf Hin) as (C & ? & ? & _ & ?). eauto.
Qed.

Lemma post_node_union_witness :
  ∃ C, post_node two_moves [0; 1] = Ok C ∧
       type_ C = upward_closed_set ∧
       ∀ M, node_sorted M →
         contains C M = true ↔
           [0; 1] = [] ∨
           ∃ least row t CN,
             head [0; 1] = Some least ∧
             transRelation two_moves !! least = Some row ∧
             t ∈ row ∧ post_node_symb two_moves [0; 1] (symb t) = Ok CN ∧
             contains CN M = true.
Proof.
  apply (post_node_union two_moves [0; 1]).
  - exact stored_sorted_two_moves.
  - intros s Hs. simpl.
    repeat (apply elem_of_cons in Hs as [->|Hs]); [lia|lia|].
    by apply elem_of_nil in Hs.
Defined.

(** X11: the overloads of [post] and [pre] that take a node and no symbol
    index the relations with the least state of the node unchecked, where
    the overload of [post] with a symbol stops on the assertion of
    [perform_trans]. *)
Theorem node_transformers_unchecked (aut : Afa) (least : State) (rest : Node)
    (sy : Symbol) :
  length (transRelation aut) ≤ least →
  length (inverseTransRelation aut) ≤ least →
  post_node aut (least :: rest) = Undefined ∧
  pre_node aut (least :: rest) = Undefined ∧
  post_node_symb aut (least :: rest) sy = AssertionFailed.
Proof.
  intros Ht Hi. unfold post_node, pre_node, post_node_symb.
  apply index_Undefined in Ht, Hi. rewrite Ht, Hi. split; [done|]. split; [done|].
  cbn [post_node_symb_loop]. rewrite post_state_out_of_bounds; [done|].
  by apply index_Undefined.
Qed.

Lemma node_transformers_unchecked_witness :
  post_node two_states [4; 5] = Undefined ∧
  pre_node two_states [4; 5] = Undefined ∧
  post_node_symb two_states [4; 5] 0 = AssertionFailed.
Proof.
  apply (node_transformers_unchecked two_states 4 [5] 0); simpl; lia.
Defined.

(** *** The backward transformer *)

Lemma foldl_insert_elem (l acc : Node) x :
  x ∈ foldl (λ acc el, OrdVector.insert state_cmp el acc) acc l ↔
  x ∈ acc ∨ x ∈ l.
Proof.
  revert acc. induction l as [|y l IH]; intros acc; simpl.
  - split; [by left|]. intros [?|?%elem_of_nil]; done.
  - rewrite IH, (OrdVectorFacts.elem_of_insert state_cmp state_laws), elem_of_cons.
    tauto.
Qed.

Lemma foldl_insert_sorted (l acc : Node) :
  node_sorted acc →
  node_sorted (foldl (λ acc el, OrdVector.insert state_cmp el acc) acc l).
Proof.
  revert acc. induction l as [|y l IH]; intros acc Hacc; simpl; [done|].
  apply IH. by apply (OrdVectorFacts.sorted_insert state_cmp state_laws).
Qed.

Lemma pre_collect_elem N candidates acc x :
  x ∈ pre_collect N candidates acc ↔
  x ∈ acc ∨
  ∃ c, c ∈ candidates ∧
       OrdVector.IsSubsetOf state_cmp (sharing_list c) N = true ∧
       x ∈ result_nodes c.
Proof.
  revert acc. induction candidates as [|c candidates IH]; intros acc; simpl.
  - split; [by left|]. intros [?|(c & Hc & _)]; [done|]. by apply elem_of_nil in Hc.
  - destruct (OrdVector.IsSubsetOf state_cmp (sharing_list c) N) eqn:E.
    + rewrite IH, foldl_insert_elem. split.
      * intros [[?|?]|(c' & ? & ? & ?)]; [by left| |].
        -- right. exists c. split; [by left|done].
        -- right. exists c'. split; [by right|done].
      * intros [?|(c' & [->|?]%elem_of_cons & ? & ?)]; [by left; left| |].
        -- by left; right.
        -- right. eauto.
    + rewrite IH. split.
      * intros [?|(c' & ? & ? & ?)]; [by left|].
        right. exists c'. split; [by right|done].
      * intros [?|(c' & [->|?]%elem_of_cons & ? & ?)]; [by left|congruence|].
        right. eauto.
Qed.

Lemma pre_collect_sorted N candidates acc :
  node_sorted acc → node_sorted (pre_collect N candidates acc).
Proof.
  revert acc. induction candidates as [|c candidates IH]; intros acc Hacc; simpl;
    [done|].
  destruct (OrdVector.IsSubsetOf state_cmp (sharing_list c) N); [|auto].
  by apply IH, foldl_insert_sorted.
Qed.

Lemma perform_inverse_trans_node_spec aut N sy :
  (∀ st, st ∈ N → st < length (inverseTransRelation aut)) →
  ∃ candidates,
    perform_inverse_trans_node aut N sy = Ok candidates ∧
    ∀ c, c ∈ candidates ↔
         ∃ st results, st ∈ N ∧ perform_inverse_trans aut st sy = Ok results ∧
                       c ∈ results.
Proof.
  induction N as [|st N IH]; intros Hin; simpl.
  - exists []. split; [done|]. intros c. split; [by intros ?%elem_of_nil|].
    intros (st & ? & Hst & _). by apply elem_of_nil in Hst.
  - assert (st < length (inverseTransRelation aut)) as Hst by (apply Hin; by left).
    destruct (lookup_lt_is_Some_2 _ _ Hst) as [bucket Hb].
    rewrite (perform_inverse_trans_lookup _ _ _ _ Hb). cbn [mbind Outcome_bind].
    destruct IH as (rest & -> & Hrest); [intros st' ?; apply Hin; by right|].
    cbn [mbind Outcome_bind]. eexists. split; [done|].
    intros c. rewrite elem_of_app, Hrest. split.
    + intros [Hc|(st' & results & ? & ? & ?)].
      * exists st, (first_inverse sy bucket). split; [by left|].
        split; [by apply perform_inverse_trans_lookup|done].
      * exists st', results. split; [by right|done].
    + intros (st' & results & [->|Hst']%elem_of_cons & Hr & Hc).
      * left. rewrite (perform_inverse_trans_lookup _ _ _ _ Hb) in Hr.
        by injection Hr as <-.
      * right. eauto.
Qed.

Lemma pre_node_symb_spec (aut : Afa) (N : Node) (sy : Symbol) :
  (∀ st, st ∈ N → st < length (inverseTransRelation aut)) →
  ∃ R, pre_node_symb aut N sy
         = Ok (mk downward_closed_set 0 (max_state aut) [R]) ∧
       node_sorted R ∧
       ∀ x, x ∈ R ↔
            ∃ st results c,
              st ∈ N ∧ perform_inverse_trans aut st sy = Ok results ∧
              c ∈ results ∧
              OrdVector.IsSubsetOf state_cmp (sharing_list c) N = true ∧
              x ∈ result_nodes c.
Proof.
  intros Hin. unfold pre_node_symb.
  destruct (perform_inverse_trans_node_spec aut N sy Hin) as (cands & -> & Hc).
  cbn [mbind Outcome_bind]. exists (pre_collect N cands []).
  split; [done|]. split; [apply pre_collect_sorted, OrdVectorFacts.sorted_nil|].
  intros x. rewrite pre_collect_elem. split.
  - intros [?%elem_of_nil|(c & Hin' & ? & ?)]; [done|].
    apply Hc in Hin' as (st & results & ? & ? & ?).
    exists st, results, c. done.
  - intros (st & results & c & ? & ? & ? & ? & ?). right.
    exists c. split; [|done]. apply Hc. eauto.
Qed.




End Transformers.

(** ** Initial, final and goal regions; the empty word *)

Module Regions.
Import Afa ClosedSet ClosedSetFacts AfaFacts PostFacts AfaStore Transformers.

(** membership in a downward closed set *)
Lemma contains_downward cs M :
  type_ cs = downward_closed_set →
  contains cs M = true ↔ ∃ A, A ∈ antichain cs ∧ sub M A.
Proof.
  intros Hty. unfold contains. rewrite Hty. simpl.
  by rewrite existsb_elem_of.
Qed.

Lemma contains_insert_down cs node M :
  type_ cs = downward_closed_set →
  sorted_nodes (antichain cs) → node_sorted node → node_sorted M →
  contains (insert cs node) M = true ↔ contains cs M = true ∨ sub M node.
Proof.
  intros Hty Hcs Hn HM.
  rewrite !contains_downward by (by rewrite ?type_insert).
  unfold insert. rewrite Hty. simpl.
  destruct (existsb _ _) eqn:E.
  - split; [by left|]. intros [H|H]; [done|].
    apply existsb_elem_of in E as (A & HA & HAn).
    exists A. split; [done|]. apply (sub_trans M node A); auto.
  - simpl. split.
    + intros (A & HA & HAM).
      apply (OrdVectorFacts.elem_of_insert node_cmp node_laws) in HA as [->|HA];
        [by right|].
      left. exists A. split; [|done]. by eapply elem_of_erase_all.
    + intros [(A & HA & HAM)|H].
      * destruct (OrdVector.IsSubsetOf state_cmp A node) eqn:Ev.
        -- exists node. split.
           ++ apply (OrdVectorFacts.elem_of_insert node_cmp node_laws). by left.
           ++ apply (sub_trans M A node); auto.
        -- exists A. split; [|done].
           apply (OrdVectorFacts.elem_of_insert node_cmp node_laws). right.
           apply elem_of_erase_all_keep; [done|].
           rewrite list_elem_of_In, filter_In. intros [_ H]. simpl in H.
           congruence.
      * exists node. split; [|done].
        apply (OrdVectorFacts.elem_of_insert node_cmp node_laws). by left.
Qed.

Lemma contains_insert_nodes_down cs nodes M :
  type_ cs = downward_closed_set →
  sorted_nodes (antichain cs) → sorted_nodes nodes → node_sorted M →
  contains (insert_nodes cs nodes) M = true ↔
    contains cs M = true ∨ ∃ A, A ∈ nodes ∧ sub M A.
Proof.
  revert cs. induction nodes as [|n nodes IH]; intros cs Hty Hcs Hns HM; simpl.
  - split; [by left|]. intros [H|(A & HA & _)]; [done|]. by apply elem_of_nil in HA.
  - assert (node_sorted n) as Hn by (apply Hns; by left).
    assert (sorted_nodes nodes) as Hns' by (intros z Hz; apply Hns; by right).
    unfold insert_nodes in IH. rewrite IH; try done.
    + rewrite contains_insert_down by done.
      setoid_rewrite elem_of_cons. naive_solver.
    + by rewrite type_insert.
    + by apply sorted_nodes_insert.
Qed.

Lemma sub_refl a : sub a a.
Proof. apply includes_refl, state_laws. Qed.

Lemma singleton_sorted (s : State) : node_sorted [s].
Proof. repeat constructor. Qed.

Lemma sub_singleton s M : node_sorted M → sub [s] M ↔ s ∈ M.
Proof.
  intros HM. rewrite sub_spec; [|apply singleton_sorted|done].
  setoid_rewrite list_elem_of_singleton. naive_solver.
Qed.

(** the loops of [get_initial_nodes] and [get_non_final_nodes] *)
Lemma fold_insert_state_spec (f : State → bool) (l : list State) cs :
  type_ cs = upward_closed_set → sorted_nodes (antichain cs) →
  let r := foldl (λ result state,
                    if f state then insert_state result state else result)
                 cs l in
  type_ r = upward_closed_set ∧ sorted_nodes (antichain r) ∧
  (∀ A, A ∈ antichain r →
        A ∈ antichain cs ∨ ∃ s, s ∈ l ∧ f s = true ∧ A = [s]) ∧
  ∀ M, node_sorted M →
       contains r M = true ↔
         contains cs M = true ∨ ∃ s, s ∈ l ∧ f s = true ∧ s ∈ M.
Proof.
  revert cs. induction l as [|s l IH]; intros cs Hty Hs; simpl.
  - split; [done|]. split; [done|]. split; [by left|].
    intros M HM. split; [by left|].
    intros [?|(s & Hs' & _)]; [done|]. by apply elem_of_nil in Hs'.
  - destruct (f s) eqn:E.
    + destruct (IH (insert_state cs s)) as (Hty' & Hs' & Hel & Hc).
      * unfold insert_state. by rewrite type_insert.
      * apply sorted_nodes_insert; [done|apply singleton_sorted].
      * split; [done|]. split; [done|]. split.
        -- intros A [HA|(s' & ? & ? & ?)]%Hel.
           ++ apply elem_of_insert_antichain in HA as [->|?]; [|by left].
              right. exists s. split; [by left|done].
           ++ right. exists s'. split; [by right|done].
        -- intros M HM. rewrite (Hc M HM). unfold insert_state.
           rewrite contains_insert; [|done|done|apply singleton_sorted|done].
           rewrite sub_singleton by done. split.
           ++ intros [[?|?]|(s' & ? & ? & ?)]; [by left| |].
              ** right. exists s. split; [by left|done].
              ** right. exists s'. split; [by right|done].
           ++ intros [?|(s' & [->|?]%elem_of_cons & ? & ?)];
                [by (left; left)|by (left; right)|].
              right. eauto.
    + destruct (IH cs Hty Hs) as (Hty' & Hs' & Hel & Hc).
      split; [done|]. split; [done|]. split.
      * intros A [HA|(s' & ? & ? & ?)]%Hel; [by left|].
        right. exists s'. split; [by right|done].
      * intros M HM. rewrite (Hc M HM). split.
        -- intros [?|(s' & ? & ? & ?)]; [by left|].
           right. exists s'. split; [by right|done].
        -- intros [?|(s' & [->|?]%elem_of_cons & ? & ?)];
             [by left|congruence|]. right. eauto.
Qed.

Lemma elem_of_states aut s : s ∈ states aut ↔ s < length (transRelation aut).
Proof. unfold states. rewrite elem_of_seq. lia. Qed.

Lemma initial_nodes_spec aut :
  type_ (get_initial_nodes aut) = upward_closed_set ∧
  sorted_nodes (antichain (get_initial_nodes aut)) ∧
  (∀ A, A ∈ antichain (get_initial_nodes aut) →
        ∃ s, s < length (transRelation aut) ∧ s ∈ initialstates aut ∧ A = [s]) ∧
  ∀ M, node_sorted M →
       contains (get_initial_nodes aut) M = true ↔
         ∃ s, s < length (transRelation aut) ∧ s ∈ initialstates aut ∧ s ∈ M.
Proof.
  unfold get_initial_nodes.
  destruct (fold_insert_state_spec (has_initial aut) (states aut)
              (empty_set upward_closed_set aut))
    as (Hty & Hs & Hel & Hc); [done|simpl; by intros z ?%elem_of_nil|].
  split; [done|]. split; [done|]. split.
  - intros A HA. apply Hel in HA as [HA|(s & Hin & Hi & ->)];
      [by apply elem_of_nil in HA|].
    apply elem_of_states in Hin.
    exists s. unfold has_initial in Hi. apply bool_decide_eq_true in Hi. done.
  - intros M HM. rewrite (Hc M HM). unfold has_initial. split.
    + intros [H|(s & Hin & Hi & ?)]; [by unfold contains in H|].
      apply elem_of_states in Hin. apply bool_decide_eq_true in Hi. eauto.
    + intros (s & ? & ? & ?). right. exists s.
      rewrite elem_of_states, bool_decide_eq_true. done.
Qed.

Lemma non_final_nodes_spec aut :
  type_ (get_non_final_nodes aut) = upward_closed_set ∧
  sorted_nodes (antichain (get_non_final_nodes aut)) ∧
  ∀ M, node_sorted M →
       contains (get_non_final_nodes aut) M = true ↔
         ∃ s, s < length (transRelation aut) ∧ (s ∉ finalstates aut) ∧ s ∈ M.
Proof.
  unfold get_non_final_nodes.
  destruct (fold_insert_state_spec (λ s, negb (has_final aut s)) (states aut)
              (empty_set upward_closed_set aut))
    as (Hty & Hs & Hel & Hc); [done|simpl; by intros z ?%elem_of_nil|].
  split; [done|]. split; [done|].
  intros M HM. rewrite (Hc M HM). unfold has_final. split.
  - intros [H|(s & Hin & Hi & ?)]; [by unfold contains in H|].
    apply elem_of_states in Hin.
    apply negb_true_iff, bool_decide_eq_false in Hi. eauto.
  - intros (s & ? & ? & ?). right. exists s.
    rewrite elem_of_states, negb_true_iff, bool_decide_eq_false. done.
Qed.

(** X13: the set returned by [get_initial_nodes] contains an ordered node
    exactly when the node holds an initial state of the automaton, and
    the one returned by [get_non_final_nodes] exactly when it holds a
    state of the automaton that is not final; states that are no state of
    the automaton are ignored. *)
Theorem forward_regions (aut : Afa) (M : Node) :
  node_sorted M →
  (contains (get_initial_nodes aut) M = true ↔
     ∃ s, s < length (transRelation aut) ∧ s ∈ initialstates aut ∧ s ∈ M) ∧
  (contains (get_non_final_nodes aut) M = true ↔
     ∃ s, s < length (transRelation aut) ∧ (s ∉ finalstates aut) ∧ s ∈ M).
Proof.
  intros HM. split.
  - by apply initial_nodes_spec.
  - by apply non_final_nodes_spec.
Qed.

Lemma forward_regions_witness :
  (contains (get_initial_nodes three_states) [0; 2] = true ↔
     ∃ s, s < length (transRelation three_states) ∧
          s ∈ initialstates three_states ∧ s ∈ [0; 2]) ∧
  (contains (get_non_final_nodes three_states) [0; 2] = true ↔
     ∃ s, s < length (transRelation three_states) ∧
          (s ∉ finalstates three_states) ∧ s ∈ [0; 2]).
Proof.
  apply (forward_regions three_states [0; 2]). repeat constructor.
Defined.

(** the loops of [get_final_nodes] and [get_non_initial_nodes] *)
Lemma fold_insert_if_spec (f : State → bool) (l : list State) (acc : Node) :
  let r := foldl (λ subresult state,
                    if f state then OrdVector.insert state_cmp state subresult
                    else subresult)
                 acc l in
  (node_sorted acc → node_sorted r) ∧
  ∀ x, x ∈ r ↔ x ∈ acc ∨ (x ∈ l ∧ f x = true).
Proof.
  revert acc. induction l as [|s l IH]; intros acc; simpl.
  - split; [done|]. intros x. split; [by left|].
    intros [?|[?%elem_of_nil _]]; done.
  - destruct (f s) eqn:E.
    + destruct (IH (OrdVector.insert state_cmp s acc)) as [Hs Hel]. split.
      * intros Hacc. by apply Hs, (OrdVectorFacts.sorted_insert state_cmp state_laws).
      * intros x.
        rewrite Hel, (OrdVectorFacts.elem_of_insert state_cmp state_laws),
                elem_of_cons.
        split.
        -- intros [[->|?]|[? ?]]; auto.
        -- intros [?|[[->|?] ?]]; auto.
    + destruct (IH acc) as [Hs Hel]. split; [done|].
      intros x. rewrite Hel, elem_of_cons. split.
      * intros [?|[? ?]]; auto.
      * intros [?|[[->|?] ?]]; [auto|congruence|auto].
Qed.

Lemma of_node_down lo hi R :
  of_node downward_closed_set lo hi R = mk downward_closed_set lo hi [R].
Proof. reflexivity. Qed.

Lemma final_nodes_spec aut :
  ∃ F, get_final_nodes aut = mk downward_closed_set 0 (max_state aut) [F] ∧
       node_sorted F ∧
       ∀ x, x ∈ F ↔ x < length (transRelation aut) ∧ x ∈ finalstates aut.
Proof.
  unfold get_final_nodes. eexists. split; [apply of_node_down|].
  destruct (fold_insert_if_spec (has_final aut) (states aut) []) as [Hs Hel].
  split; [apply Hs, OrdVectorFacts.sorted_nil|].
  intros x. rewrite Hel, elem_of_states. unfold has_final.
  rewrite bool_decide_eq_true. split; [|tauto].
  intros [?%elem_of_nil|?]; done.
Qed.

Lemma non_initial_nodes_spec aut :
  ∃ F, get_non_initial_nodes aut
         = mk downward_closed_set 0 (max_state aut) [F] ∧
       node_sorted F ∧
       ∀ x, x ∈ F ↔ x < length (transRelation aut) ∧ x ∉ initialstates aut.
Proof.
  unfold get_non_initial_nodes. eexists. split; [apply of_node_down|].
  destruct (fold_insert_if_spec (λ s, negb (has_initial aut s)) (states aut) [])
    as [Hs Hel].
  split; [apply Hs, OrdVectorFacts.sorted_nil|].
  intros x. rewrite Hel, elem_of_states. unfold has_initial.
  rewrite negb_true_iff, bool_decide_eq_false. split; [|tauto].
  intros [?%elem_of_nil|?]; done.
Qed.

Lemma contains_single_down lo hi F M :
  node_sorted F → node_sorted M →
  contains (mk downward_closed_set lo hi [F]) M = true ↔ ∀ x, x ∈ M → x ∈ F.
Proof.
  intros HF HM. rewrite contains_downward by done. simpl.
  setoid_rewrite list_elem_of_singleton. rewrite <- (sub_spec M F) by done.
  naive_solver.
Qed.

(** X14: the set returned by [get_final_nodes] contains an ordered node
    exactly when all its states are final states of the automaton, and
    the one returned by [get_non_initial_nodes] exactly when all its
    states are states of the automaton that are not initial. *)
Theorem backward_regions (aut : Afa) (M : Node) :
  node_sorted M →
  (contains (get_final_nodes aut) M = true ↔
     ∀ x, x ∈ M → x < length (transRelation aut) ∧ x ∈ finalstates aut) ∧
  (contains (get_non_initial_nodes aut) M = true ↔
     ∀ x, x ∈ M → x < length (transRelation aut) ∧ x ∉ initialstates aut).
Proof.
  intros HM. split.
  - destruct (final_nodes_spec aut) as (F & -> & HF & Hel).
    rewrite contains_single_down by done. by setoid_rewrite Hel.
  - destruct (non_initial_nodes_spec aut) as (F & -> & HF & Hel).
    rewrite contains_single_down by done. by setoid_rewrite Hel.
Qed.

Lemma backward_regions_witness :
  (contains (get_final_nodes three_states) [1; 2] = true ↔
     ∀ x, x ∈ [1; 2] → x < length (transRelation three_states) ∧
                        x ∈ finalstates three_states) ∧
  (contains (get_non_initial_nodes three_states) [1; 2] = true ↔
     ∀ x, x ∈ [1; 2] → x < length (transRelation three_states) ∧
                        x ∉ initialstates three_states).
Proof.
  apply (backward_regions three_states [1; 2]). repeat constructor.
Defined.

(** *** A state that is initial and final *)

Lemma post_nodes_loop_total aut nodes result :
  stored_sorted aut →
  (∀ N s, N ∈ nodes → s ∈ N → s < length (transRelation aut)) →
  type_ result = upward_closed_set → sorted_nodes (antichain result) →
  ∃ C, post_nodes_loop aut nodes result = Ok C ∧
       type_ C = upward_closed_set ∧ sorted_nodes (antichain C).
Proof.
  intros Hwf. revert result.
  induction nodes as [|N nodes IH]; intros result Hin Hty Hs; simpl; [eauto|].
  destruct (post_node_sound aut N Hwf) as (CN & HCN & HtyN & HsN & _).
  { intros s. apply Hin. by left. }
  rewrite HCN. cbn [mbind Outcome_bind]. apply IH.
  - intros N' s HN'. apply Hin. by right.
  - by rewrite type_insert_nodes.
  - by apply sorted_nodes_insert_nodes.
Qed.

Lemma pre_node_loop_total aut N bucket result :
  (∀ st, st ∈ N → st < length (inverseTransRelation aut)) →
  type_ result = downward_closed_set → sorted_nodes (antichain result) →
  ∃ C, pre_node_loop aut N bucket result = Ok C ∧
       type_ C = downward_closed_set ∧ sorted_nodes (antichain C).
Proof.
  intros Hin. revert result.
  induction bucket as [|e bucket IH]; intros result Hty Hs; simpl; [eauto|].
  destruct (pre_node_symb_spec aut N (inv_symb e) Hin) as (R & -> & HR & _).
  cbn [mbind Outcome_bind]. apply IH.
  - by rewrite type_insert_nodes.
  - apply sorted_nodes_insert_nodes; [done|]. simpl.
    by intros z ->%list_elem_of_singleton.
Qed.

Lemma pre_node_total aut N :
  (∀ st, st ∈ N → st < length (inverseTransRelation aut)) →
  ∃ C, pre_node aut N = Ok C ∧
       type_ C = downward_closed_set ∧ sorted_nodes (antichain C).
Proof.
  intros Hin. destruct N as [|least rest].
  - eexists. split; [reflexivity|]. split; [done|].
    intros z Hz. simpl in Hz. apply list_elem_of_singleton in Hz as ->.
    apply OrdVectorFacts.sorted_nil.
  - unfold pre_node.
    assert (least < length (inverseTransRelation aut)) as Hl
      by (apply Hin; by left).
    destruct (lookup_lt_is_Some_2 _ _ Hl) as [bucket Hb].
    unfold index. rewrite Hb. cbn [mbind Outcome_bind].
    apply pre_node_loop_total; [done|done|]. simpl. by intros z ?%elem_of_nil.
Qed.

Lemma pre_nodes_loop_total aut nodes result :
  (∀ N st, N ∈ nodes → st ∈ N → st < length (inverseTransRelation aut)) →
  type_ result = downward_closed_set → sorted_nodes (antichain result) →
  ∃ C, pre_nodes_loop aut nodes result = Ok C ∧
       type_ C = downward_closed_set ∧ sorted_nodes (antichain C).
Proof.
  revert result.
  induction nodes as [|N nodes IH]; intros result Hin Hty Hs; simpl; [eauto|].
  destruct (pre_node_total aut N) as (CN & HCN & HtyN & HsN).
  { intros st. apply Hin. by left. }
  rewrite HCN. cbn [mbind Outcome_bind]. apply IH.
  - intros N' st HN'. apply Hin. by right.
  - by rewrite type_insert_nodes.
  - by apply sorted_nodes_insert_nodes.
Qed.

Lemma le_false this other A :
  A ∈ antichain this → contains other A = false → le this other = false.
Proof.
  intros HA Hc. unfold le, contains_nodes.
  destruct (forallb (contains other) (antichain this)) eqn:E; [|done].
  rewrite forallb_forall in E. rewrite <- (E A), Hc; [done|].
  by apply list_elem_of_In.
Qed.

(** [accepts_epsilon] is the test for a state that is initial and final *)
Lemma accepts_epsilon_spec aut :
  accepts_epsilon aut = true ↔
  ∃ s, s ∈ initialstates aut ∧ s ∈ finalstates aut.
Proof.
  unfold accepts_epsilon. rewrite existsb_elem_of.
  setoid_rewrite merge_sort_Permutation. setoid_rewrite elem_of_elements.
  by setoid_rewrite bool_decide_eq_true.
Qed.

Section initial_and_final.
Variable aut : Afa.
Variable s : State.
Hypothesis Hs : s < length (transRelation aut).
Hypothesis Hinit : s ∈ initialstates aut.
Hypothesis Hfin : s ∈ finalstates aut.

(** a node of an upward closed set below {s} escapes the forward goal *)
Lemma escapes_forward cs :
  type_ cs = upward_closed_set → sorted_nodes (antichain cs) →
  contains cs [s] = true →
  le cs (get_non_final_nodes aut) = false.
Proof using Hfin.
  intros Hty Hsorted (A & HA & HAs)%contains_upward; [|done].
  apply (le_false _ _ A HA).
  destruct (contains (get_non_final_nodes aut) A) eqn:E; [|done].
  destruct (non_final_nodes_spec aut) as (_ & _ & Hc).
  apply Hc in E as (s' & _ & Hnf & Hs'); [|by apply Hsorted].
  pose proof (proj1 (sub_spec A [s] (Hsorted A HA) (singleton_sorted s)) HAs)
    as Hsub.
  apply Hsub, list_elem_of_singleton in Hs' as ->. done.
Qed.

(** a node of a downward closed set above a node holding [s] escapes the
    backward goal *)
Lemma escapes_backward cs F :
  type_ cs = downward_closed_set → sorted_nodes (antichain cs) →
  node_sorted F → s ∈ F → contains cs F = true →
  le cs (get_non_initial_nodes aut) = false.
Proof using Hinit.
  intros Hty Hsorted HF HsF (A & HA & HFA)%contains_downward; [|done].
  apply (le_false _ _ A HA).
  destruct (contains (get_non_initial_nodes aut) A) eqn:E; [|done].
  destruct (non_initial_nodes_spec aut) as (NI & HNI & HsNI & Hel).
  rewrite HNI in E.
  pose proof (proj1 (contains_single_down _ _ NI A HsNI (Hsorted A HA)) E) as HE.
  pose proof (proj1 (sub_spec F A HF (Hsorted A HA)) HFA) as Hsub.
  apply Hsub, HE, Hel in HsF as [_ Hni]. done.
Qed.

Lemma forward_new_not_empty fuel :
  antichain_concrete_forward_emptiness_test_new fuel aut = Ok false.
Proof using Hs Hinit Hfin.
  unfold antichain_concrete_forward_emptiness_test_new.
  destruct (initial_nodes_spec aut) as (Hty & Hsorted & _ & Hc).
  rewrite escapes_forward; [done|done|done|].
  apply Hc; [apply singleton_sorted|]. exists s. split; [done|].
  split; [done|]. by apply list_elem_of_singleton.
Qed.

Lemma backward_new_not_empty fuel :
  antichain_concrete_backward_emptiness_test_new fuel aut = Ok false.
Proof using Hs Hinit Hfin.
  unfold antichain_concrete_backward_emptiness_test_new.
  destruct (final_nodes_spec aut) as (F & HF & HsF & Hel).
  rewrite (escapes_backward _ F); [done|by rewrite HF| | | |].
  - rewrite HF. simpl. by intros z ->%list_elem_of_singleton.
  - done.
  - by apply Hel.
  - rewrite HF. apply contains_single_down; done.
Qed.

Lemma forward_old_not_empty fuel :
  stored_sorted aut →
  antichain_concrete_forward_emptiness_test_old (S fuel) aut = Ok false.
Proof using Hs Hinit Hfin.
  intros Hwf. unfold antichain_concrete_forward_emptiness_test_old.
  destruct (initial_nodes_spec aut) as (Hty & Hsorted & Hel & Hc).
  assert (contains (get_initial_nodes aut) [s] = true) as Hcs.
  { apply Hc; [apply singleton_sorted|]. exists s. split; [done|].
    split; [done|]. by apply list_elem_of_singleton. }
  cbn [forward_old_loop].
  assert (eqb default (get_initial_nodes aut) = false) as ->.
  { unfold eqb. apply andb_false_iff. right.
    apply contains_upward in Hcs as (A & HA & _); [|done].
    by apply (le_false _ _ A HA). }
  unfold post_closed, post_nodes.
  destruct (post_nodes_loop_total aut (antichain (get_initial_nodes aut))
              (empty_set upward_closed_set aut) Hwf)
    as (p & -> & Htyp & Hsp); [|done|simpl; by intros z ?%elem_of_nil|].
  { intros N s' (s0 & ? & _ & ->)%Hel ->%list_elem_of_singleton. done. }
  cbn [mbind Outcome_bind]. unfold Union.
  rewrite escapes_forward; [done| | |].
  - by rewrite type_insert_nodes.
  - by apply sorted_nodes_insert_nodes.
  - apply contains_insert_nodes; [done|done|done|apply singleton_sorted|].
    by left.
Qed.

Lemma backward_old_not_empty fuel :
  length (inverseTransRelation aut) = length (transRelation aut) →
  antichain_concrete_backward_emptiness_test_old (S fuel) aut = Ok false.
Proof using Hs Hinit Hfin.
  intros Hlen. unfold antichain_concrete_backward_emptiness_test_old.
  destruct (final_nodes_spec aut) as (F & HF & HsF & Hel).
  rewrite HF. cbn [forward_old_loop backward_old_loop].
  assert (eqb default (mk downward_closed_set 0 (max_state aut) [F]) = false)
    as ->.
  { unfold eqb. apply andb_false_iff. right.
    apply (le_false _ _ F); [by left|done]. }
  unfold pre_closed, pre_nodes. simpl antichain.
  destruct (pre_nodes_loop_total aut [F] (empty_set downward_closed_set aut))
    as (p & -> & Htyp & Hsp); [|done|simpl; by intros z ?%elem_of_nil|].
  { intros N st ->%list_elem_of_singleton [Hst _]%Hel. lia. }
  cbn [mbind Outcome_bind]. unfold Union.
  rewrite (escapes_backward _ F); [done| | |done|by apply Hel|].
  - by rewrite type_insert_nodes.
  - apply sorted_nodes_insert_nodes; [|done]. simpl.
    by intros z ->%list_elem_of_singleton.
  - apply contains_insert_nodes_down; [done| |done|done|].
    + simpl. by intros z ->%list_elem_of_singleton.
    + left. apply contains_single_down; done.
Qed.

End initial_and_final.

(** X15: when a state of the automaton is both initial and final, so that
    [accepts_epsilon] holds, each of the four emptiness tests answers
    "not empty": the worklist variants before their loop, the iterating
    variants in their first iteration.  The nodes stored in the
    transition relation are ordered vectors and the inverse relation has
    a bucket per state. *)
Theorem initial_final_not_empty (aut : Afa) (s : State) (fuel : nat) :
  s < length (transRelation aut) →
  s ∈ initialstates aut → s ∈ finalstates aut →
  stored_sorted aut →
  length (inverseTransRelation aut) = length (transRelation aut) →
  accepts_epsilon aut = true ∧
  antichain_concrete_forward_emptiness_test_old (S fuel) aut = Ok false ∧
  antichain_concrete_forward_emptiness_test_new fuel aut = Ok false ∧
  antichain_concrete_backward_emptiness_test_old (S fuel) aut = Ok false ∧
  antichain_concrete_backward_emptiness_test_new fuel aut = Ok false.
Proof.
  intros Hs Hi Hf Hwf Hlen.
  split; [apply accepts_epsilon_spec; eauto|].
  split; [by eapply forward_old_not_empty|].
  split; [by eapply forward_new_not_empty|].
  split; [by eapply backward_old_not_empty|by eapply backward_new_not_empty].
Qed.

Lemma initial_final_not_empty_witness :
  accepts_epsilon one_accepting = true ∧
  antichain_concrete_forward_emptiness_test_old 3 one_accepting = Ok false ∧
  antichain_concrete_forward_emptiness_test_new 2 one_accepting = Ok false ∧
  antichain_concrete_backward_emptiness_test_old 3 one_accepting = Ok false ∧
  antichain_concrete_backward_emptiness_test_new 2 one_accepting = Ok false.
Proof.
  apply (initial_final_not_empty one_accepting 0 2).
  - simpl. lia.
  - vm_compute. reflexivity.
  - vm_compute. reflexivity.
  - intros row t Hrow Ht. simpl in Hrow.
    apply list_elem_of_singleton in Hrow as ->. by apply elem_of_nil in Ht.
  - reflexivity.
Defined.

End Regions.

(** ** Reading a section: [construct] *)

Module Construction.
Import Afa.

Lemma grows_refl ps : grows ps ps.
Proof. by split. Qed.

Lemma grows_trans_ ps1 ps2 ps3 : grows ps1 ps2 → grows ps2 ps3 → grows ps1 ps3.
Proof.
  intros [? H1 H2 ? ? ?] [? H3 H4 ? ? ?]. split; try (by etrans); auto.
Qed.

Lemma get_state_name_spec ps str :
  state_names (get_state_name ps str).2 !! str
    = Some (get_state_name ps str).1 ∧
  parsed (get_state_name ps str).2 = parsed ps ∧
  grows ps (get_state_name ps str).2.
Proof.
  unfold get_state_name.
  destruct (state_names ps !! str) as [st|] eqn:E; simpl.
  { split; [done|]. split; [done|apply grows_refl]. }
  split; [apply lookup_insert_eq|]. split; [done|].
  split; simpl; try done; [by apply insert_subseteq|].
  intros [Hinj Honto]. split; simpl.
  - intros n1 n2 st H1 H2.
    apply lookup_insert_Some in H1 as [[<- <-]|[Hne1 H1]];
      apply lookup_insert_Some in H2 as [[<- Heq]|[Hne2 H2]]; try done.
    + assert (cnt_state ps < cnt_state ps); [|lia]. apply Honto.
      exists n2. exact H2.
    + subst. assert (cnt_state ps < cnt_state ps); [|lia]. apply Honto.
      exists n1. exact H1.
    + eauto.
  - intros st. split.
    + intros Hlt. destruct (decide (st = cnt_state ps)) as [->|Hne].
      * exists str. apply lookup_insert_eq.
      * destruct (proj1 (Honto st)) as [name Hname]; [lia|].
        exists name. rewrite lookup_insert_ne; [done|]. intros <-. congruence.
    + intros [name [[_ <-]|[_ H1]]%lookup_insert_Some]; [lia|].
      assert (st < cnt_state ps); [|lia]. apply Honto. by exists name.
Qed.

Lemma enter_initial_spec ps str :
  ∃ st, state_names (enter_initial ps str) !! str = Some st ∧
        initialstates (parsed (enter_initial ps str))
          = {[st]} ∪ initialstates (parsed ps) ∧
        grows ps (enter_initial ps str).
Proof.
  unfold enter_initial.
  destruct (get_state_name_spec ps str) as (Hname & Hparsed & Hg).
  destruct (get_state_name ps str) as [st ps1]. simpl in *.
  exists st. rewrite Hparsed. split; [done|]. split; [done|].
  destruct Hg as [? Ht Hi ? ? Hn]. rewrite Hparsed in *.
  split; simpl; try done; [set_solver|].
  intros [? ?]%Hn. by split.
Qed.

Lemma enter_final_spec ps str :
  ∃ st, state_names (enter_final ps str) !! str = Some st ∧
        finalstates (parsed (enter_final ps str))
          = {[st]} ∪ finalstates (parsed ps) ∧
        initialstates (parsed (enter_final ps str))
          = initialstates (parsed ps) ∧
        grows ps (enter_final ps str).
Proof.
  unfold enter_final.
  destruct (get_state_name_spec ps str) as (Hname & Hparsed & Hg).
  destruct (get_state_name ps str) as [st ps1]. simpl in *.
  exists st. rewrite Hparsed. split; [done|]. split; [done|]. split; [done|].
  destruct Hg as [? Ht Hi ? ? Hn]. rewrite Hparsed in *.
  split; simpl; try done; [set_solver|].
  intros [? ?]%Hn. by split.
Qed.

(** the loop over the names listed under Initial *)
Lemma enter_initial_all ps strs :
  let ps' := foldl enter_initial ps strs in
  grows ps ps' ∧
  finalstates (parsed ps') = finalstates (parsed ps) ∧
  (∀ name, name ∈ strs → is_Some (state_names ps' !! name)) ∧
  ∀ st, st ∈ initialstates (parsed ps') ↔
        st ∈ initialstates (parsed ps) ∨
        ∃ name, name ∈ strs ∧ state_names ps' !! name = Some st.
Proof.
  revert ps. induction strs as [|str strs IH]; intros ps; simpl.
  - split; [apply grows_refl|]. split; [done|].
    split; [by intros ? ?%elem_of_nil|]. intros st.
    split; [by left|]. intros [?|(? & []%elem_of_nil & _)]. done.
  - destruct (IH (enter_initial ps str)) as (Hg & Hfin & Hall & Hinit).
    destruct (enter_initial_spec ps str) as (st0 & Hname & Hini0 & Hg0).
    split; [by eapply grows_trans_|]. split; [|split].
    + rewrite Hfin. unfold enter_initial.
      destruct (get_state_name_spec ps str) as (_ & Hparsed & _).
      destruct (get_state_name ps str) as [st1 ps1]. simpl in *.
      by rewrite Hparsed.
    + intros name [->|?]%elem_of_cons; [|auto]. exists st0.
      by apply (lookup_weaken _ _ _ _ Hname), (grows_names _ _ Hg).
    + intros st. rewrite Hinit, Hini0. split.
      * intros [[->%elem_of_singleton|?]%elem_of_union|(name & ? & ?)].
        -- right. exists str. split; [by left|].
           by apply (lookup_weaken _ _ _ _ Hname), (grows_names _ _ Hg).
        -- by left.
        -- right. exists name. split; [by right|done].
      * intros [?|(name & [->|?]%elem_of_cons & Hst)].
        -- left. set_solver.
        -- left. apply elem_of_union. left. apply elem_of_singleton.
           pose proof (lookup_weaken _ _ _ _ Hname (grows_names _ _ Hg)).
           congruence.
        -- right. by exists name.
Qed.

(** the loop over the names listed under Final *)
Lemma enter_final_all ps strs :
  let ps' := foldl enter_final ps strs in
  grows ps ps' ∧
  initialstates (parsed ps') = initialstates (parsed ps) ∧
  (∀ name, name ∈ strs → is_Some (state_names ps' !! name)) ∧
  ∀ st, st ∈ finalstates (parsed ps') ↔
        st ∈ finalstates (parsed ps) ∨
        ∃ name, name ∈ strs ∧ state_names ps' !! name = Some st.
Proof.
  revert ps. induction strs as [|str strs IH]; intros ps; simpl.
  - split; [apply grows_refl|]. split; [done|].
    split; [by intros ? ?%elem_of_nil|]. intros st.
    split; [by left|]. intros [?|(? & []%elem_of_nil & _)]. done.
  - destruct (IH (enter_final ps str)) as (Hg & Hini & Hall & Hfin).
    destruct (enter_final_spec ps str) as (st0 & Hname & Hfin0 & Hini0 & Hg0).
    split; [by eapply grows_trans_|]. split; [by rewrite Hini|].
    split.
    { intros name [->|?]%elem_of_cons; [|auto]. exists st0.
      by apply (lookup_weaken _ _ _ _ Hname), (grows_names _ _ Hg). }
    intros st. rewrite Hfin, Hfin0. split.
    + intros [[->%elem_of_singleton|?]%elem_of_union|(name & ? & ?)].
      * right. exists str. split; [by left|].
        by apply (lookup_weaken _ _ _ _ Hname), (grows_names _ _ Hg).
      * by left.
      * right. exists name. split; [by right|done].
    + intros [?|(name & [->|?]%elem_of_cons & Hst)].
      * left. set_solver.
      * left. apply elem_of_union. left. apply elem_of_singleton.
        pose proof (lookup_weaken _ _ _ _ Hname (grows_names _ _ Hg)).
        congruence.
      * right. by exists name.
Qed.

Section construct.
Variable line_to_string : list string → string.

#[local] Abbreviation body_loop := (Afa.body_loop line_to_string).
#[local] Abbreviation construct := (Afa.construct line_to_string).

(** the loop over the body changes the names only, and throws at the first
    line of fewer than two tokens *)
Lemma body_loop_spec ps body :
  grows ps (body_loop ps body).1 ∧
  parsed (body_loop ps body).1 = parsed ps ∧
  ((body_loop ps body).2 = Ok tt ∧ (∀ line, line ∈ body → 2 ≤ length line) ∨
   ∃ l1 line l2,
     body = l1 ++ line :: l2 ∧ (∀ line', line' ∈ l1 → 2 ≤ length line') ∧
     length line < 2 ∧
     (body_loop ps body).2
       = Thrown ("Invalid transition: " +:+ line_to_string line)).
Proof.
  revert ps. induction body as [|line body IH]; intros ps; simpl.
  - split; [apply grows_refl|]. split; [done|]. left. split; [done|].
    by intros ? ?%elem_of_nil.
  - destruct (length line <? 2) eqn:E.
    + apply Nat.ltb_lt in E. simpl.
      split; [apply grows_refl|]. split; [done|]. right.
      exists [], line, body. split; [done|].
      split; [by intros ? ?%elem_of_nil|done].
    + apply Nat.ltb_ge in E. destruct line as [|name line]; [simpl in E; lia|].
      simpl. destruct (get_state_name_spec ps name) as (_ & Hparsed & Hg).
      destruct (get_state_name ps name) as [st ps1]. simpl in *.
      destruct (IH ps1) as (Hg1 & Hparsed1 & Hout).
      split; [by eapply grows_trans_|]. split; [congruence|].
      destruct Hout as [[-> Hall]|(l1 & line' & l2 & -> & Hall & Hlt & ->)].
      * left. split; [done|]. intros l [->|?]%elem_of_cons; auto.
      * right. exists ((name :: line) :: l1), line', l2. split; [done|].
        split; [|done]. intros l [->|?]%elem_of_cons; auto.
Qed.

(** the three parts of [construct] in a row *)
Lemma construct_unfold aut parsec state_map :
  type parsec = TYPE_AFA →
  let ps0 := mkParse aut (default ∅ state_map) 0 in
  let ps1 := foldl enter_initial ps0 (listed parsec "Initial") in
  let ps2 := foldl enter_final ps1 (listed parsec "Final") in
  let r := body_loop ps2 (body parsec) in
  construct aut parsec state_map
  = (parsed r.1, (λ _, state_names r.1) <$> state_map, r.2).
Proof.
  intros Hty. unfold Afa.construct, listed.
  rewrite bool_decide_eq_false_2 by (by intros []).
  destruct (dict parsec !! "Initial"), (dict parsec !! "Final"); simpl;
    by destruct (Afa.body_loop _ _ _).
Qed.

Lemma construct_wrong_type aut parsec state_map :
  type parsec ≠ TYPE_AFA →
  construct aut parsec state_map
  = (aut, state_map,
     Thrown ("construct: expecting type " +:+ quote +:+ TYPE_AFA +:+ quote)).
Proof.
  intros Hty. unfold Afa.construct. by rewrite bool_decide_eq_true_2.
Qed.

(** what the three parts do together *)
Lemma construct_parts aut parsec m :
  let ps0 := mkParse aut m 0 in
  let ps1 := foldl enter_initial ps0 (listed parsec "Initial") in
  let ps2 := foldl enter_final ps1 (listed parsec "Final") in
  let ps3 := (body_loop ps2 (body parsec)).1 in
  grows ps0 ps3 ∧ grows ps1 ps3 ∧
  (∀ st, st ∈ initialstates (parsed ps3) ↔
         st ∈ initialstates aut ∨
         ∃ name, name ∈ listed parsec "Initial" ∧
                 state_names ps3 !! name = Some st) ∧
  (∀ st, st ∈ finalstates (parsed ps3) ↔
         st ∈ finalstates aut ∨
         ∃ name, name ∈ listed parsec "Final" ∧
                 state_names ps3 !! name = Some st).
Proof.
  intros ps0 ps1 ps2 ps3.
  destruct (enter_initial_all ps0 (listed parsec "Initial"))
    as (Hg1 & Hfin1 & Hall1 & Hinit1).
  fold ps1 in Hg1, Hfin1, Hall1, Hinit1.
  destruct (enter_final_all ps1 (listed parsec "Final"))
    as (Hg2 & Hinit2 & Hall2 & Hfin2).
  fold ps2 in Hg2, Hinit2, Hall2, Hfin2.
  destruct (body_loop_spec ps2 (body parsec)) as (Hg3 & Hparsed3 & _).
  fold ps3 in Hg3, Hparsed3.
  assert (grows ps1 ps3) as Hg13 by by eapply grows_trans_.
  split; [by eapply grows_trans_|]. split; [done|].
  rewrite Hparsed3. split.
  - intros st. rewrite Hinit2, Hinit1. simpl. split.
    + intros [?|(name & ? & Hst)]; [by left|]. right. exists name.
      split; [done|].
      by apply (lookup_weaken _ _ _ _ Hst), (grows_names _ _ Hg13).
    + intros [?|(name & Hin & Hst)]; [by left|]. right. exists name.
      split; [done|]. destruct (Hall1 name Hin) as [st' Hst'].
      pose proof (lookup_weaken _ _ _ _ Hst' (grows_names _ _ Hg13)).
      congruence.
  - intros st. rewrite Hfin2, Hfin1. simpl. split.
    + intros [?|(name & ? & Hst)]; [by left|]. right. exists name.
      split; [done|].
      by apply (lookup_weaken _ _ _ _ Hst), (grows_names _ _ Hg3).
    + intros [?|(name & Hin & Hst)]; [by left|]. right. exists name.
      split; [done|]. destruct (Hall2 name Hin) as [st' Hst'].
      pose proof (lookup_weaken _ _ _ _ Hst' (grows_names _ _ Hg3)).
      congruence.
Qed.

(** X26: [construct] never touches the transitions: whatever the section
    holds and however the call ends, the transition relation and its
    inverse are those of the automaton given, and the initial and final
    states given are kept. *)
Theorem construct_keeps_transitions (aut : Afa) (parsec : ParsedSection)
    (state_map : option (gmap string State)) :
  let aut' := (construct aut parsec state_map).1.1 in
  transRelation aut' = transRelation aut ∧
  inverseTransRelation aut' = inverseTransRelation aut ∧
  initialstates aut ⊆ initialstates aut' ∧
  finalstates aut ⊆ finalstates aut'.
Proof.
  destruct (decide (type parsec = TYPE_AFA)) as [Hty|Hty].
  - rewrite construct_unfold by done. simpl.
    destruct (construct_parts aut parsec (default ∅ state_map))
      as ([_ Ht Hi Hini Hfin _] & _).
    done.
  - by rewrite construct_wrong_type.
Qed.

(** X27: how [construct] ends.  A section of a wrong type is refused with
    nothing changed; otherwise the call throws at the first line of the
    body that has fewer than two tokens, and returns when there is none. *)
Theorem construct_outcome (aut : Afa) (parsec : ParsedSection)
    (state_map : option (gmap string State)) :
  (type parsec ≠ TYPE_AFA ∧
   construct aut parsec state_map
   = (aut, state_map,
      Thrown ("construct: expecting type " +:+ quote +:+ TYPE_AFA +:+ quote)))
  ∨
  (type parsec = TYPE_AFA ∧
   (∀ line, line ∈ body parsec → 2 ≤ length line) ∧
   (construct aut parsec state_map).2 = Ok tt)
  ∨
  (type parsec = TYPE_AFA ∧
   ∃ l1 line l2,
     body parsec = l1 ++ line :: l2 ∧
     (∀ line', line' ∈ l1 → 2 ≤ length line') ∧ length line < 2 ∧
     (construct aut parsec state_map).2
     = Thrown ("Invalid transition: " +:+ line_to_string line)).
Proof.
  destruct (decide (type parsec = TYPE_AFA)) as [Hty|Hty].
  - right. rewrite construct_unfold by done. simpl.
    match goal with
    | |- context [body_loop ?ps (body parsec)] =>
        destruct (body_loop_spec ps (body parsec)) as (_ & _ & [[? ?]|H])
    end.
    + by left.
    + right. split; [done|]. exact H.
  - left. split; [done|]. by apply construct_wrong_type.
Qed.

(** X28: the states entered by [construct].  For a section of the right
    type, whether or not the body is accepted, the map of names only
    grows, and the initial (final) states are those given together with
    the states the map gives to the names listed under Initial (Final). *)
Theorem construct_initial_final (aut : Afa) (parsec : ParsedSection)
    (state_map : option (gmap string State)) :
  type parsec = TYPE_AFA →
  let aut' := (construct aut parsec state_map).1.1 in
  ∃ m',
    (construct aut parsec state_map).1.2 = (λ _, m') <$> state_map ∧
    default ∅ state_map ⊆ m' ∧
    (∀ st, st ∈ initialstates aut' ↔
           st ∈ initialstates aut ∨
           ∃ name, name ∈ listed parsec "Initial" ∧ m' !! name = Some st) ∧
    (∀ st, st ∈ finalstates aut' ↔
           st ∈ finalstates aut ∨
           ∃ name, name ∈ listed parsec "Final" ∧ m' !! name = Some st).
Proof.
  intros Hty. rewrite construct_unfold by done. simpl.
  destruct (construct_parts aut parsec (default ∅ state_map))
    as (Hg & _ & Hini & Hfin).
  eexists. split; [done|]. split; [apply (grows_names _ _ Hg)|done].
Qed.

(** X29: when the caller's map is empty, [construct] numbers the names
    it meets without gaps and gives no number twice. *)
Theorem construct_numbering (aut : Afa) (parsec : ParsedSection)
    (state_map : option (gmap string State)) :
  type parsec = TYPE_AFA → state_map = Some ∅ →
  ∃ m' n,
    (construct aut parsec state_map).1.2 = Some m' ∧
    (∀ n1 n2 st, m' !! n1 = Some st → m' !! n2 = Some st → n1 = n2) ∧
    (∀ st, st < n ↔ ∃ name, m' !! name = Some st).
Proof.
  intros Hty ->. rewrite construct_unfold by done. simpl.
  destruct (construct_parts aut parsec ∅) as (Hg & _).
  destruct (grows_numbered _ _ Hg) as [Hinj Honto].
  { split; simpl.
    - intros n1 n2 st H. by rewrite lookup_empty in H.
    - intros st. split; [lia|]. intros [name H].
      by rewrite lookup_empty in H. }
  eexists _, _. split; [done|]. split; [exact Hinj|exact Honto].
Qed.

(** X30: the counter starts at zero whatever the caller's map holds: a
    name that is new to the map and comes first under Initial is given
    state 0, also when the map uses 0 for another name. *)
Theorem construct_counter_starts_at_zero (aut : Afa) (parsec : ParsedSection)
    (m : gmap string State) (name : string) (strs : list string) :
  type parsec = TYPE_AFA →
  dict parsec !! "Initial" = Some (name :: strs) →
  m !! name = None →
  ∃ m',
    (construct aut parsec (Some m)).1.2 = Some m' ∧
    m ⊆ m' ∧ m' !! name = Some 0 ∧
    0 ∈ initialstates (construct aut parsec (Some m)).1.1.
Proof.
  intros Hty Hdict Hnew. rewrite construct_unfold by done. simpl.
  assert (listed parsec "Initial" = name :: strs) as Hl
    by (unfold listed; by rewrite Hdict).
  pose proof (construct_parts aut parsec m) as H. simpl in H.
  rewrite Hl in H |- *. simpl in H |- *.
  destruct H as (Hg0 & Hg1 & Hini & _).
  destruct (enter_initial_all (enter_initial (mkParse aut m 0) name) strs)
    as (Hg & _).
  eexists. split; [done|]. split; [apply (grows_names _ _ Hg0)|].
  match goal with
  | |- ?m' !! name = Some 0 ∧ _ => assert (m' !! name = Some 0) as Hname
  end.
  { eapply lookup_weaken; [|apply (grows_names _ _ Hg1)].
    eapply lookup_weaken; [|apply (grows_names _ _ Hg)].
    unfold enter_initial, get_state_name. simpl. rewrite Hnew. simpl.
    apply lookup_insert_eq. }
  split; [done|]. apply Hini. right. exists name. split; [by left|done].
Qed.

End construct.

Lemma construct_initial_final_witness :
  ∃ m',
    (construct concat_line one_accepting
       (mkParsedSection "AFA" {[ "Initial" := ["p"] ]} [["p"]]) (Some ∅)).1.2
      = (λ _, m') <$> Some (∅ : gmap string State) ∧
    default ∅ (Some (∅ : gmap string State)) ⊆ m' ∧
    (∀ st, st ∈ initialstates
                  (construct concat_line one_accepting
                     (mkParsedSection "AFA" {[ "Initial" := ["p"] ]} [["p"]])
                     (Some ∅)).1.1 ↔
           st ∈ initialstates one_accepting ∨
           ∃ name, name ∈ listed (mkParsedSection "AFA"
                                    {[ "Initial" := ["p"] ]} [["p"]]) "Initial" ∧
                   m' !! name = Some st) ∧
    (∀ st, st ∈ finalstates
                  (construct concat_line one_accepting
                     (mkParsedSection "AFA" {[ "Initial" := ["p"] ]} [["p"]])
                     (Some ∅)).1.1 ↔
           st ∈ finalstates one_accepting ∨
           ∃ name, name ∈ listed (mkParsedSection "AFA"
                                    {[ "Initial" := ["p"] ]} [["p"]]) "Final" ∧
                   m' !! name = Some st).
Proof.
  apply (construct_initial_final concat_line one_accepting
           (mkParsedSection "AFA" {[ "Initial" := ["p"] ]} [["p"]]) (Some ∅)).
  reflexivity.
Defined.

Lemma construct_numbering_witness :
  ∃ m' n,
    (construct concat_line one_accepting
       (mkParsedSection "AFA" {[ "Initial" := ["p"; "r"; "p"] ]} [])
       (Some ∅)).1.2 = Some m' ∧
    (∀ n1 n2 st, m' !! n1 = Some st → m' !! n2 = Some st → n1 = n2) ∧
    (∀ st, st < n ↔ ∃ name, m' !! name = Some st).
Proof.
  apply (construct_numbering concat_line one_accepting
           (mkParsedSection "AFA" {[ "Initial" := ["p"; "r"; "p"] ]} [])
           (Some ∅)); reflexivity.
Defined.

Lemma construct_counter_starts_at_zero_witness :
  ∃ m',
    (construct concat_line two_states
       (mkParsedSection "AFA" {[ "Initial" := ["r"] ]} [])
       (Some {[ "p" := 0 ]})).1.2 = Some m' ∧
    {[ "p" := 0 ]} ⊆ m' ∧ m' !! "r" = Some 0 ∧
    0 ∈ initialstates
          (construct concat_line two_states
             (mkParsedSection "AFA" {[ "Initial" := ["r"] ]} [])
             (Some {[ "p" := 0 ]})).1.1.
Proof.
  apply (construct_counter_starts_at_zero concat_line two_states
           (mkParsedSection "AFA" {[ "Initial" := ["r"] ]} [])
           {[ "p" := 0 ]} "r" []).
  - reflexivity.
  - vm_compute. reflexivity.
  - vm_compute. reflexivity.
Defined.

End Construction.

(** ** The product construction: shape of the product *)

Module NfaShape.
Import Nfa NfaFacts.

Section shape.
Variable EPSILON : Symbol.
Variables lhs rhs : Nfa.

#[local] Abbreviation create := (create_product_state_and_trans lhs rhs).
#[local] Abbreviation inv := (Nfa.inv lhs rhs).
#[local] Abbreviation micro := (Nfa.micro lhs rhs).
#[local] Abbreviation shape := (Nfa.shape lhs rhs).
#[local] Abbreviation initial_mapped := (Nfa.initial_mapped lhs rhs).

(** *** The construction as a sequence of updates *)

Lemma micro_ext b b' : micro b b' → ext b b'.
Proof.
  destruct 1 as [b0 l r it|b0 pair it b1 Hpair Hadd].
  - apply create_ext.
  - by apply (add_product_transition_sound lhs rhs) in Hadd as [? _].
Qed.

Lemma micros_ext b b' : rtc micro b b' → ext b b'.
Proof.
  induction 1 as [|b1 b2 b3 H12 _ IH]; [apply ext_refl|].
  eapply ext_trans; [by apply micro_ext|done].
Qed.

Lemma create_all_micro b targets it :
  rtc micro b (create_all lhs rhs b targets it).1.
Proof.
  unfold create_all. revert b it.
  induction targets as [|t targets IH]; intros b it; simpl; [done|].
  eapply rtc_l; [apply (micro_create lhs rhs b t.1 t.2 it)|].
  destruct (create b t.1 t.2 it) as [b1 it1]. apply IH.
Qed.

Lemma classic_step_micro pair b moves b' :
  is_Some (product_map b !! pair) →
  classic_step lhs rhs pair b moves = Ok b' → rtc micro b b'.
Proof.
  intros Hpair. unfold classic_step.
  match goal with
  | |- context [create_all lhs rhs b ?ts ?it] =>
      pose proof (create_all_micro b ts it) as Hm;
      destruct (create_all lhs rhs b ts it) as [b1 it1]
  end.
  simpl in Hm. intros H. eapply rtc_r; [exact Hm|].
  eapply micro_add; [|exact H].
  eapply ext_is_Some; [by apply micros_ext|done].
Qed.

Lemma classic_steps_micro pair b groups b' :
  is_Some (product_map b !! pair) →
  classic_steps lhs rhs pair b groups = Ok b' → rtc micro b b'.
Proof.
  revert b. induction groups as [|moves groups IH]; intros b Hpair; simpl.
  - by intros [= <-].
  - intros (b1 & H1 & H2)%bind_Ok.
    apply classic_step_micro in H1; [|done].
    etrans; [exact H1|]. apply IH; [|done].
    eapply ext_is_Some; [by apply micros_ext|done].
Qed.

Lemma epsilon_step_micro pair b row targets_of b' :
  is_Some (product_map b !! pair) →
  epsilon_step EPSILON lhs rhs pair b row targets_of = Ok b' → rtc micro b b'.
Proof.
  intros Hpair. unfold epsilon_step.
  destruct (last row) as [mv|]; [|by intros [= <-]].
  destruct (symbol mv =? EPSILON); [|by intros [= <-]].
  match goal with
  | |- context [create_all lhs rhs b ?ts ?it] =>
      pose proof (create_all_micro b ts it) as Hm;
      destruct (create_all lhs rhs b ts it) as [b1 it1]
  end.
  simpl in Hm. intros H. eapply rtc_r; [exact Hm|].
  eapply micro_add; [|exact H].
  eapply ext_is_Some; [by apply micros_ext|done].
Qed.

Lemma process_pair_micro pe pair b b' :
  is_Some (product_map b !! pair) →
  process_pair EPSILON lhs rhs pe pair b = Ok b' →
  rtc micro (erased b pair) b'.
Proof.
  intros Hpair. unfold process_pair. fold (erased b pair).
  intros (lhs_moves & _ & H)%bind_Ok.
  apply bind_Ok in H as (rhs_moves & _ & H).
  apply bind_Ok in H as (b1 & H1 & H).
  apply classic_steps_micro in H1; [|done].
  destruct pe; [|by injection H as <-].
  apply bind_Ok in H as (b2 & H2 & H3).
  assert (is_Some (product_map b1 !! pair)) as Hpair1.
  { eapply ext_is_Some; [apply micros_ext, H1|done]. }
  apply epsilon_step_micro in H2; [|done].
  assert (is_Some (product_map b2 !! pair)) as Hpair2.
  { eapply ext_is_Some; [apply micros_ext, H2|done]. }
  apply epsilon_step_micro in H3; [|done].
  etrans; [exact H1|]. by etrans.
Qed.

(** *** What every update keeps *)

Lemma union_into_symbols mv row :
  match union_into mv row with
  | Some row' => symbol <$> row' = symbol <$> row
  | None => symbol mv ∉ symbol <$> row
  end.
Proof.
  induction row as [|m row IH]; simpl; [by intros ?%elem_of_nil|].
  destruct (symbol m =? symbol mv) eqn:E; [done|].
  apply Nat.eqb_neq in E.
  destruct (union_into mv row) as [row'|]; simpl.
  - by f_equal.
  - intros [?|?]%elem_of_cons; [congruence|done].
Qed.

(** how [add_product_transition] changes the build *)
Lemma add_product_transition_cases b pair it b' r :
  product_map b !! pair = Some r →
  add_product_transition b pair it = Ok b' →
  b' = b ∨
  ∃ row row',
    transition_relation (product b) !! r = Some row ∧
    b' = mkBuild (with_row (product b) r row') (product_map b)
                 (pairs_to_process b) ∧
    (NoDup (symbol <$> row) → NoDup (symbol <$> row')) ∧
    ∀ m', m' ∈ row' →
      m' ∈ row ∨
      symbol m' = symbol it ∧
      ∀ x, x ∈ states_to m' →
        x ∈ states_to it ∨
        ∃ m, m ∈ row ∧ symbol m = symbol it ∧ x ∈ states_to m.
Proof.
  intros Hr. unfold add_product_transition.
  destruct (states_to it) as [|x0 xs] eqn:Est; [intros [= <-]; by left|].
  rewrite <- Est. clear x0 xs Est.
  unfold map_index. rewrite Hr.
  intros (row & Hrow%index_Ok & [= <-])%bind_Ok. right.
  eexists row, _. split; [done|]. split; [done|].
  pose proof (union_into_symbols it row) as Hsym.
  destruct (union_into it row) as [row'|] eqn:E.
  - split; [by rewrite Hsym|]. clear Hsym Hrow.
    revert row' E. induction row as [|m row IH]; intros row'; simpl; [done|].
    destruct (symbol m =? symbol it) eqn:Esy.
    + apply Nat.eqb_eq in Esy. intros [= <-] m' [->|Hm']%elem_of_cons.
      * right. split; [done|]. simpl. intros x Hx.
        apply (OrdVectorFacts.elem_of_Union state_cmp state_laws) in Hx
          as [Hx|Hx]; [right|by left].
        exists m. split; [by left|done].
      * left. by right.
    + destruct (union_into it row) as [row0|]; [|done].
      simpl. intros [= <-] m' [->|Hm']%elem_of_cons; [left; by left|].
      destruct (IH row0 eq_refl m' Hm') as [?|[Hsy Hx]]; [left; by right|].
      right. split; [done|]. intros x Hx'.
      destruct (Hx x Hx') as [?|(m0 & ? & ? & ?)]; [by left|right].
      exists m0. split; [by right|done].
  - split.
    + intros Hnd. rewrite fmap_app. simpl. apply NoDup_app. split; [done|].
      split; [|apply NoDup_singleton].
      by intros x Hx ->%list_elem_of_singleton.
    + intros m' [Hm'| ->%list_elem_of_singleton]%elem_of_app; [by left|].
      right. split; [done|]. intros x Hx. by left.
Qed.

Lemma micro_shape b b' :
  micro b b' → initial_mapped b → shape b → shape b'.
Proof.
  destruct 1 as [b l r it|b pair it b' [r0 Hr0] Hadd];
    intros Him [Hu Hi Hb Hib Hin].
  - rewrite create_unfold.
    destruct (product_map b !! (l, r)) as [s|] eqn:Hlr; [done|].
    split; simpl.
    + intros r1 row [?|[? Hrow]]%lookup_app_Some; [eauto|].
      destruct (r1 - _); [|done]. injection Hrow as <-. apply NoDup_nil_2.
    + intros k1 k2 r1 H1 H2.
      apply lookup_insert_Some in H1 as [[<- <-]|[Hne1 H1]];
        apply lookup_insert_Some in H2 as [[<- Heq]|[Hne2 H2]]; try done.
      * apply Hb in H2. lia.
      * apply Hb in H1. lia.
      * eauto.
    + intros k r1 [[<- <-]|[Hne H1]]%lookup_insert_Some;
        rewrite length_app; simpl; [lia|]. apply Hb in H1. lia.
    + intros r1 Hr1%Hib. rewrite length_app. lia.
    + intros p q r1 [[[= <- <-] <-]|[Hne H1]]%lookup_insert_Some; [|eauto].
      split.
      * intros ?%Hib. lia.
      * intros [Hp Hq]. destruct (Him _ _ Hp Hq) as [? ?]. congruence.
  - destruct (add_product_transition_cases b pair it b' r0 Hr0 Hadd)
      as [->|(row & row' & Hrow & -> & Hnd & _)]; [done|].
    split; simpl; try done.
    + intros r1 row1 Hrow1. destruct (decide (r1 = r0)) as [->|Hne].
      * rewrite list_lookup_insert_eq in Hrow1 by by eapply lookup_lt_Some.
        injection Hrow1 as <-. eauto.
      * rewrite list_lookup_insert_ne in Hrow1 by done. eauto.
    + intros k r1 ?. rewrite length_insert. eauto.
    + intros r1 ?. rewrite length_insert. eauto.
Qed.

Lemma micro_onto b b' : micro b b' → onto b → onto b'.
Proof.
  destruct 1 as [b l r it|b pair it b' [r0 Hr0] Hadd]; intros Ho.
  - rewrite create_unfold.
    destruct (product_map b !! (l, r)) as [s|] eqn:Hlr; [done|].
    intros r1. simpl. rewrite length_app. simpl. intros Hlt.
    destruct (decide (r1 = length (transition_relation (product b))))
      as [->|Hne].
    + exists (l, r). apply lookup_insert_eq.
    + destruct (Ho r1) as [k Hk]; [lia|]. exists k.
      rewrite lookup_insert_ne; [done|]. intros <-. congruence.
  - destruct (add_product_transition_cases b pair it b' r0 Hr0 Hadd)
      as [->|(row & row' & Hrow & -> & _)]; [done|].
    intros r1. simpl. rewrite length_insert. apply Ho.
Qed.

Lemma micro_initial_mapped b b' :
  micro b b' → initial_mapped b → initial_mapped b'.
Proof.
  intros He%micro_ext Him p q Hp Hq. eapply ext_is_Some; eauto.
Qed.

Lemma micros_shape b b' :
  rtc micro b b' →
  initial_mapped b ∧ shape b → initial_mapped b' ∧ shape b'.
Proof.
  induction 1 as [b|b1 b2 b3 H12 _ IH]; [done|].
  intros [Him Hs]. apply IH.
  split; [by eapply micro_initial_mapped|by eapply micro_shape].
Qed.

Lemma micros_onto b b' : rtc micro b b' → onto b → onto b'.
Proof.
  induction 1 as [b|b1 b2 b3 H12 _ IH]; [done|].
  intros Ho. apply IH. by eapply micro_onto.
Qed.

(** *** The initialisation *)

(** what holds while the pairs of initial states are entered *)
Lemma init_pairs_shape ps :
  let b := foldl (init_pair lhs rhs) (mkBuild empty_nfa ∅ ∅) ps in
  (∀ k, is_Some (product_map b !! k) ↔ k ∈ ps) ∧
  (∀ r, r ∈ initial_states (product b) ↔
        r < length (transition_relation (product b))) ∧
  (∀ r row, transition_relation (product b) !! r = Some row → row = []) ∧
  (∀ k1 k2 r, product_map b !! k1 = Some r → product_map b !! k2 = Some r →
              k1 = k2) ∧
  (∀ k r, product_map b !! k = Some r →
          r < length (transition_relation (product b))) ∧
  (NoDup ps → onto b).
Proof.
  induction ps as [|pair ps IH] using rev_ind; simpl.
  - split; [|split; [|split; [|split; [|split]]]]; try done.
    + intros k. rewrite lookup_empty. split; [by intros [? ?]|].
      by intros ?%elem_of_nil.
    + intros r. split; [by intros ?%elem_of_nil|lia].
    + intros _ r Hr. simpl in Hr. lia.
  - rewrite foldl_snoc, init_pair_unfold.
    destruct IH as (Hdom & Hinit & Hrows & Hinj & Hb & Ho). simpl.
    set (b := foldl (init_pair lhs rhs) (mkBuild empty_nfa ∅ ∅) ps) in *.
    split; [|split; [|split; [|split; [|split]]]].
    + intros k. rewrite elem_of_app, list_elem_of_singleton, <- Hdom.
      rewrite lookup_insert_is_Some. destruct (decide (pair = k)); naive_solver.
    + intros r. rewrite elem_of_app, list_elem_of_singleton, length_app, Hinit.
      simpl. lia.
    + intros r row [?|[? Hrow]]%lookup_app_Some; [eauto|].
      destruct (r - _); [|done]. by injection Hrow as <-.
    + intros k1 k2 r H1 H2.
      apply lookup_insert_Some in H1 as [[<- <-]|[Hne1 H1]];
        apply lookup_insert_Some in H2 as [[<- Heq]|[Hne2 H2]]; try done.
      * apply Hb in H2. lia.
      * apply Hb in H1. lia.
      * eauto.
    + intros k r [[<- <-]|[Hne H1]]%lookup_insert_Some;
        rewrite length_app; simpl; [lia|]. apply Hb in H1. lia.
    + intros [Hnd [Hnin _]]%NoDup_app r. unfold Nfa.onto. simpl.
      rewrite length_app. simpl.
      intros Hlt.
      destruct (decide (r = length (transition_relation (product b))))
        as [->|Hne].
      * exists pair. apply lookup_insert_eq.
      * destruct (Ho Hnd r) as [k Hk]; [lia|]. exists k.
        rewrite lookup_insert_ne; [done|]. intros <-.
        apply (Hnin pair); [|by left]. apply Hdom. by exists r.
Qed.

Lemma elem_of_initial_pairs p q :
  (p, q) ∈ initial_pairs lhs rhs ↔
  p ∈ initial_states lhs ∧ q ∈ initial_states rhs.
Proof.
  unfold initial_pairs. rewrite list_elem_of_bind. split.
  - intros (p0 & (q0 & [= -> ->]%list_elem_of_singleton & ?)%list_elem_of_bind
            & ?). done.
  - intros [? ?]. exists p. split; [|done]. apply list_elem_of_bind.
    exists q. split; [by left|done].
Qed.

Lemma NoDup_initial_pairs :
  NoDup (initial_states lhs) → NoDup (initial_states rhs) →
  NoDup (initial_pairs lhs rhs).
Proof.
  intros Hl Hr. unfold initial_pairs. apply NoDup_bind; [| |done].
  - intros p1 p2 k _ _
      (q1 & ->%list_elem_of_singleton & _)%list_elem_of_bind
      (q2 & [= -> _]%list_elem_of_singleton & _)%list_elem_of_bind. done.
  - intros p _. apply NoDup_bind; [| |done].
    + by intros q1 q2 k _ _ ->%list_elem_of_singleton
        [= ->]%list_elem_of_singleton.
    + intros q _. apply NoDup_singleton.
Qed.

Lemma init_build_shape :
  initial_mapped (init_build lhs rhs) ∧ shape (init_build lhs rhs) ∧
  (NoDup (initial_states lhs) → NoDup (initial_states rhs) →
   onto (init_build lhs rhs)).
Proof.
  destruct (init_pairs_shape (initial_pairs lhs rhs))
    as (Hdom & Hinit & Hrows & Hinj & Hb & Ho).
  fold (init_build lhs rhs) in *.
  split; [|split].
  - intros p q Hp Hq. apply Hdom, elem_of_initial_pairs. done.
  - split; [|done|done|by intros r ?%Hinit|].
    + intros r row ->%Hrows. apply NoDup_nil_2.
    + intros p q r Hr. rewrite Hinit, <- elem_of_initial_pairs, <- Hdom.
      split; [by exists r|]. intros _. by eapply Hb.
  - intros Hl Hr. by apply Ho, NoDup_initial_pairs.
Qed.

(** *** The states of the construction *)

Lemma reachable_shape pe b :
  reachable EPSILON lhs rhs pe b →
  initial_mapped b ∧ shape b ∧
  (NoDup (initial_states lhs) → NoDup (initial_states rhs) → onto b).
Proof.
  unfold reachable.
  apply (rtc_ind_r (λ b, initial_mapped b ∧ shape b ∧
           (NoDup (initial_states lhs) → NoDup (initial_states rhs) →
            onto b))).
  - apply init_build_shape.
  - intros b1 b2 Hreach (pair & Hin & Hstep) (Him & Hs & Ho).
    assert (is_Some (product_map b1 !! pair)) as Hpair.
    { apply (reachable_inv EPSILON lhs rhs pe b1) in Hreach as [Hinv _].
      by apply (inv_pending _ _ _ Hinv). }
    apply process_pair_micro in Hstep; [|done].
    assert (shape (erased b1 pair)) as Hs' by by destruct Hs.
    destruct (micros_shape _ _ Hstep) as [Him2 Hs2]; [done|].
    split; [done|]. split; [done|]. intros Hl Hr.
    eapply micros_onto; [exact Hstep|]. by apply Ho.
Qed.

(** *** Every transition of the product is justified *)

#[local] Abbreviation sound := (Nfa.sound EPSILON lhs rhs).
#[local] Abbreviation justified := (Nfa.justified EPSILON lhs rhs).
#[local] Abbreviation classic_done := (Nfa.classic_done lhs rhs).

Lemma create_transitions b l r it r1 sy r2 :
  has_transition (product (create b l r it).1) r1 sy r2 →
  has_transition (product b) r1 sy r2.
Proof.
  rewrite create_unfold.
  destruct (product_map b !! (l, r)) as [s|] eqn:Hlr; [done|]. simpl.
  intros (row & mv & [?|[? Hrow]]%lookup_app_Some & Hmv & ?).
  - by exists row, mv.
  - destruct (r1 - _); [|done]. injection Hrow as <-.
    by apply elem_of_nil in Hmv.
Qed.

Lemma create_keeps_sound pe b l r it :
  sound pe b → sound pe (create b l r it).1.
Proof.
  intros Hs r1 sy r2 Ht%create_transitions.
  destruct (Hs r1 sy r2 Ht) as (p & q & p' & q' & H1 & H2 & Hj).
  exists p, q, p', q'.
  split; [by apply (ext_map _ _ (create_ext lhs rhs b l r it))|].
  split; [by apply (ext_map _ _ (create_ext lhs rhs b l r it))|done].
Qed.

Lemma create_all_keeps_sound pe b targets it :
  sound pe b → sound pe (create_all lhs rhs b targets it).1.
Proof.
  unfold create_all. revert b it.
  induction targets as [|t targets IH]; intros b it Hs; simpl; [done|].
  pose proof (create_keeps_sound pe b t.1 t.2 it Hs) as Hs1.
  destruct (create b t.1 t.2 it) as [b1 it1]. by apply IH.
Qed.

(** the states gathered in a move are the states of the target pairs *)
Lemma create_target b l r it x :
  x ∈ states_to (create b l r it).2 →
  x ∈ states_to it ∨ product_map (create b l r it).1 !! (l, r) = Some x.
Proof.
  rewrite create_unfold.
  destruct (product_map b !! (l, r)) as [s|] eqn:Hlr; simpl;
    intros [->|?]%(OrdVectorFacts.elem_of_insert state_cmp state_laws);
    try (by left); right; [done|apply lookup_insert_eq].
Qed.

Lemma create_all_targets b targets it x :
  x ∈ states_to (create_all lhs rhs b targets it).2 →
  x ∈ states_to it ∨
  ∃ t, t ∈ targets ∧
       product_map (create_all lhs rhs b targets it).1 !! t = Some x.
Proof.
  revert b it. induction targets as [|t targets IH]; intros b it;
    [by left|].
  pose proof (create_all_ext lhs rhs (create b t.1 t.2 it).1 targets
                (create b t.1 t.2 it).2) as Hext.
  pose proof (create_target b t.1 t.2 it x) as Ht.
  specialize (IH (create b t.1 t.2 it).1 (create b t.1 t.2 it).2).
  unfold create_all in *. simpl.
  destruct (create b t.1 t.2 it) as [b1 it1]. simpl in *.
  intros [Hx|(t' & Ht' & Hx)]%IH.
  - destruct (Ht Hx) as [?|Hm]; [by left|]. right. exists t.
    split; [by left|]. apply (ext_map _ _ Hext). by destruct t.
  - right. exists t'. split; [by right|done].
Qed.

Lemma add_product_transition_keeps_sound pe b pair it b' :
  is_Some (product_map b !! pair) →
  add_product_transition b pair it = Ok b' →
  (∀ x, x ∈ states_to it →
     ∃ p' q', product_map b !! (p', q') = Some x ∧
              justified pe pair.1 pair.2 (symbol it) p' q') →
  sound pe b → sound pe b'.
Proof.
  intros [r0 Hr0] Hadd Hit Hs.
  destruct (add_product_transition_cases b pair it b' r0 Hr0 Hadd)
    as [->|(row & row' & Hrow & -> & _ & Hrow')]; [done|].
  intros r sy r' (row1 & m' & Hrow1 & Hm' & Hsy & Hr'). simpl in *.
  destruct (decide (r = r0)) as [->|Hne].
  - rewrite list_lookup_insert_eq in Hrow1 by by eapply lookup_lt_Some.
    injection Hrow1 as <-.
    destruct (Hrow' m' Hm') as [Hold|[Hsym Hx]].
    { apply Hs. by exists row, m'. }
    destruct (Hx r' Hr') as [Hnew|(m & Hm & Hmsy & Hmx)].
    + destruct (Hit r' Hnew) as (p' & q' & Hmap & Hj).
      exists pair.1, pair.2, p', q'. split; [by destruct pair|].
      split; [done|]. congruence.
    + apply Hs. exists row, m. split; [done|]. split; [done|].
      split; [congruence|done].
  - rewrite list_lookup_insert_ne in Hrow1 by done.
    apply Hs. by exists row1, m'.
Qed.

Lemma synchronize_symbol l1 l2 m1 m2 :
  (m1, m2) ∈ synchronize l1 l2 → symbol m1 = symbol m2.
Proof.
  revert l2. induction l1 as [|a l1 IH1]; intros l2.
  - destruct l2; by intros ?%elem_of_nil.
  - induction l2 as [|c l2 IH2]; [by intros ?%elem_of_nil|].
    simpl. destruct (Nat.compare_spec (symbol a) (symbol c)) as [E|E|E].
    + intros [[= -> ->]|?]%elem_of_cons; [done|eauto].
    + eauto.
    + exact IH2.
Qed.

Lemma classic_step_keeps_sound pe pair b m1 m2 b' :
  is_Some (product_map b !! pair) →
  (∀ p' q', p' ∈ states_to m1 → q' ∈ states_to m2 →
            justified pe pair.1 pair.2 (symbol m1) p' q') →
  classic_step lhs rhs pair b (m1, m2) = Ok b' →
  sound pe b → sound pe b'.
Proof.
  intros Hpair Hj. unfold classic_step.
  match goal with
  | |- context [create_all lhs rhs b ?ts ?it] =>
      pose proof (create_all_ext lhs rhs b ts it) as Hext;
      pose proof (create_all_keeps_sound pe b ts it) as Hkeep;
      pose proof (create_all_mapped lhs rhs b ts it) as (Hsy & _ & _);
      pose proof (create_all_targets b ts it) as Hts;
      destruct (create_all lhs rhs b ts it) as [b1 it1]
  end.
  simpl in *. intros Hadd Hs.
  eapply add_product_transition_keeps_sound; [|exact Hadd| |by apply Hkeep].
  { by eapply ext_is_Some. }
  intros x [[]%elem_of_nil|(t & Ht & Hx)]%Hts.
  apply list_elem_of_bind in Ht as (p' & Ht & Hp').
  apply list_elem_of_bind in Ht as (q' & ->%list_elem_of_singleton & Hq').
  exists p', q'. split; [done|]. rewrite Hsy. by apply Hj.
Qed.

Lemma classic_steps_keeps_sound pe pair b groups b' :
  is_Some (product_map b !! pair) →
  (∀ m1 m2 p' q', (m1, m2) ∈ groups →
     p' ∈ states_to m1 → q' ∈ states_to m2 →
     justified pe pair.1 pair.2 (symbol m1) p' q') →
  classic_steps lhs rhs pair b groups = Ok b' →
  sound pe b → sound pe b'.
Proof.
  revert b. induction groups as [|[m1 m2] groups IH]; intros b Hpair Hj;
    simpl.
  - by intros [= <-].
  - intros (b1 & H1 & H2)%bind_Ok Hs.
    assert (is_Some (product_map b1 !! pair)) as Hpair1.
    { apply (classic_step_sound lhs rhs) in H1 as [? _]; [|done].
      by eapply ext_is_Some. }
    apply (IH b1); [done| |done|].
    + intros ? ? ? ? ?. apply Hj. by right.
    + apply (classic_step_keeps_sound pe pair b m1 m2 b1); try done.
      intros p' q'. apply Hj. by left.
Qed.

Lemma epsilon_step_keeps_sound pe pair b row targets_of b' :
  is_Some (product_map b !! pair) →
  (∀ mv x, last row = Some mv → symbol mv = EPSILON → x ∈ states_to mv →
     justified pe pair.1 pair.2 EPSILON (targets_of x).1 (targets_of x).2) →
  epsilon_step EPSILON lhs rhs pair b row targets_of = Ok b' →
  sound pe b → sound pe b'.
Proof.
  intros Hpair Hj. unfold epsilon_step.
  destruct (last row) as [mv|] eqn:Hlast; [|by intros [= <-]].
  destruct (symbol mv =? EPSILON) eqn:E; [|by intros [= <-]].
  apply Nat.eqb_eq in E.
  match goal with
  | |- context [create_all lhs rhs b ?ts ?it] =>
      pose proof (create_all_ext lhs rhs b ts it) as Hext;
      pose proof (create_all_keeps_sound pe b ts it) as Hkeep;
      pose proof (create_all_mapped lhs rhs b ts it) as (Hsy & _ & _);
      pose proof (create_all_targets b ts it) as Hts;
      destruct (create_all lhs rhs b ts it) as [b1 it1]
  end.
  simpl in *. intros Hadd Hs.
  eapply add_product_transition_keeps_sound; [|exact Hadd| |by apply Hkeep].
  { by eapply ext_is_Some. }
  intros x [[]%elem_of_nil|(t & Ht & Hx)]%Hts.
  apply list_elem_of_fmap in Ht as (y & -> & Hy).
  exists (targets_of y).1, (targets_of y).2.
  split; [by destruct (targets_of y)|]. rewrite Hsy. by apply (Hj mv).
Qed.

Lemma process_pair_keeps_sound pe pair b b' :
  is_Some (product_map b !! pair) →
  process_pair EPSILON lhs rhs pe pair b = Ok b' →
  sound pe b → sound pe b'.
Proof.
  intros Hpair. unfold process_pair. fold (erased b pair).
  intros (lhs_moves & Hl%index_Ok & H)%bind_Ok Hs.
  apply bind_Ok in H as (rhs_moves & Hr%index_Ok & H).
  apply bind_Ok in H as (b1 & H1 & H).
  assert (sound pe (erased b pair)) as Hs0 by done.
  assert (is_Some (product_map b1 !! pair)) as Hpair1.
  { apply (classic_steps_sound lhs rhs) in H1 as [? _]; [|done].
    by eapply ext_is_Some. }
  assert (sound pe b1) as Hs1.
  { eapply classic_steps_keeps_sound; [| |exact H1|exact Hs0]; [done|].
    intros m1 m2 p' q' Hm Hp' Hq'. left.
    pose proof (synchronize_symbol _ _ _ _ Hm) as Hsy.
    apply synchronize_elem in Hm as [Hm1 Hm2].
    by exists lhs_moves, rhs_moves, m1, m2. }
  destruct pe; [|by injection H as <-].
  apply bind_Ok in H as (b2 & H2 & H3).
  assert (is_Some (product_map b2 !! pair)) as Hpair2.
  { apply (epsilon_step_sound EPSILON lhs rhs) in H2 as [? _]; [|done].
    by eapply ext_is_Some. }
  eapply epsilon_step_keeps_sound; [exact Hpair2| |exact H3|].
  { intros mv x Hlast Hsy Hx. right. split; [done|]. right.
    split; [done|]. split; [done|]. by exists rhs_moves, mv. }
  eapply epsilon_step_keeps_sound; [exact Hpair1| |exact H2|exact Hs1].
  intros mv x Hlast Hsy Hx. right. split; [done|]. left.
  split; [done|]. split; [done|]. by exists lhs_moves, mv.
Qed.

Lemma init_build_sound pe : sound pe (init_build lhs rhs).
Proof.
  destruct (init_pairs_shape (initial_pairs lhs rhs))
    as (_ & _ & Hrows & _).
  fold (init_build lhs rhs) in *.
  intros r sy r' (row & mv & ->%Hrows & Hmv & _).
  by apply elem_of_nil in Hmv.
Qed.

Lemma reachable_sound pe b :
  reachable EPSILON lhs rhs pe b → sound pe b.
Proof.
  unfold reachable. apply (rtc_ind_r (λ b, sound pe b)).
  - apply init_build_sound.
  - intros b1 b2 Hreach (pair & Hin & Hstep) Hs.
    eapply process_pair_keeps_sound; [|exact Hstep|done].
    apply (reachable_inv EPSILON lhs rhs pe b1) in Hreach as [Hinv _].
    by apply (inv_pending _ _ _ Hinv).
Qed.

(** *** Every synchronous move of a processed pair is in the product *)

Lemma sorted_moves_cons m row :
  sorted_moves (m :: row) ↔
  (∀ m', m' ∈ row → symbol m < symbol m') ∧ sorted_moves row.
Proof.
  unfold sorted_moves. split.
  - intros [? Hall]%StronglySorted_inv. split; [|done].
    by apply Forall_forall.
  - intros [Hall ?]. constructor; [done|]. by apply Forall_forall.
Qed.

Lemma synchronize_complete l1 l2 m1 m2 :
  sorted_moves l1 → sorted_moves l2 →
  m1 ∈ l1 → m2 ∈ l2 → symbol m1 = symbol m2 →
  (m1, m2) ∈ synchronize l1 l2.
Proof.
  intros H1 H2 Hm1 Hm2 Hsy. revert l2 H2 Hm2.
  induction l1 as [|a l1 IH1]; intros l2 H2 Hm2;
    [by apply elem_of_nil in Hm1|].
  apply sorted_moves_cons in H1 as [Ha H1].
  induction l2 as [|c l2 IH2]; [by apply elem_of_nil in Hm2|].
  pose proof H2 as H2'. apply sorted_moves_cons in H2' as [Hc H2'].
  simpl. destruct (Nat.compare_spec (symbol a) (symbol c)) as [E|E|E].
  - apply elem_of_cons in Hm1 as [->|Hm1];
      apply elem_of_cons in Hm2 as [->|Hm2].
    + by left.
    + apply Hc in Hm2. lia.
    + apply Ha in Hm1. lia.
    + right. by apply IH1.
  - apply elem_of_cons in Hm1 as [->|Hm1].
    + apply elem_of_cons in Hm2 as [->|Hm2]; [lia|]. apply Hc in Hm2. lia.
    + by apply IH1.
  - apply elem_of_cons in Hm2 as [->|Hm2].
    + apply elem_of_cons in Hm1 as [->|Hm1]; [lia|]. apply Ha in Hm1. lia.
    + by apply IH2.
Qed.

Lemma classic_done_ext b b' p q :
  ext b b' → classic_done b p q → classic_done b' p q.
Proof.
  intros He H sy p' q' Hmove.
  destruct (H sy p' q' Hmove) as (r & r' & ? & ? & ?).
  exists r, r'. split; [by eapply ext_map|]. split; [by eapply ext_map|].
  by eapply ext_transition.
Qed.

Lemma classic_step_complete pair b m1 m2 b' p' q' :
  is_Some (product_map b !! pair) →
  classic_step lhs rhs pair b (m1, m2) = Ok b' →
  p' ∈ states_to m1 → q' ∈ states_to m2 →
  ∃ r r', product_map b' !! pair = Some r ∧
          product_map b' !! (p', q') = Some r' ∧
          has_transition (product b') r (symbol m1) r'.
Proof.
  intros Hpair. unfold classic_step.
  match goal with
  | |- context [create_all lhs rhs b ?ts ?it] =>
      pose proof (create_all_ext lhs rhs b ts it) as Hext;
      pose proof (create_all_mapped lhs rhs b ts it) as (Hsy & _ & Hmapped);
      destruct (create_all lhs rhs b ts it) as [b1 it1]
  end.
  simpl in *. intros Hadd Hp' Hq'.
  apply (add_product_transition_sound lhs rhs) in Hadd
    as (Hext' & _ & Hnew); [|by eapply ext_is_Some].
  destruct (Hmapped (p', q')) as (s & Hs & Hin).
  { apply list_elem_of_bind. exists p'. split; [|done].
    apply list_elem_of_bind. exists q'. split; [by left|done]. }
  destruct (Hnew s Hin) as (r & Hr & Ht).
  exists r, s. split; [done|]. split; [by eapply ext_map|].
  by rewrite <- Hsy.
Qed.

Lemma classic_steps_complete pair b groups b' m1 m2 p' q' :
  is_Some (product_map b !! pair) →
  classic_steps lhs rhs pair b groups = Ok b' →
  (m1, m2) ∈ groups → p' ∈ states_to m1 → q' ∈ states_to m2 →
  ∃ r r', product_map b' !! pair = Some r ∧
          product_map b' !! (p', q') = Some r' ∧
          has_transition (product b') r (symbol m1) r'.
Proof.
  revert b. induction groups as [|g groups IH]; intros b Hpair; simpl;
    [by intros _ ?%elem_of_nil|].
  intros (b1 & H1 & H2)%bind_Ok Hg Hp' Hq'.
  pose proof (classic_step_sound lhs rhs pair b g b1 Hpair H1) as [Hext1 _].
  assert (is_Some (product_map b1 !! pair)) as Hpair1
    by by eapply ext_is_Some.
  apply elem_of_cons in Hg as [<-|Hg]; [|by apply (IH b1)].
  destruct (classic_step_complete pair b m1 m2 b1 p' q' Hpair H1 Hp' Hq')
    as (r & r' & ? & ? & ?).
  pose proof (classic_steps_sound lhs rhs pair b1 groups b' Hpair1 H2)
    as [Hext2 _].
  exists r, r'. split; [by eapply ext_map|]. split; [by eapply ext_map|].
  by eapply ext_transition.
Qed.

Lemma process_pair_complete pe pair b b' :
  (∀ row, row ∈ transition_relation lhs → sorted_moves row) →
  (∀ row, row ∈ transition_relation rhs → sorted_moves row) →
  inv b → pair ∈ pairs_to_process b →
  process_pair EPSILON lhs rhs pe pair b = Ok b' →
  classic_done b' pair.1 pair.2.
Proof.
  intros Hsl Hsr Hinv Hin. unfold process_pair. fold (erased b pair).
  assert (is_Some (product_map (erased b pair) !! pair)) as Hpair0
    by (simpl; by apply (inv_pending lhs rhs b Hinv)).
  intros (lhs_moves & Hl%index_Ok & H)%bind_Ok.
  apply bind_Ok in H as (rhs_moves & Hr%index_Ok & H).
  apply bind_Ok in H as (b1 & H1 & H).
  assert (classic_done b1 pair.1 pair.2) as Hdone.
  { intros sy p' q' (lrow & rrow & m1 & m2 & Hlrow & Hrrow & Hm1 & Hm2
                     & Hsy1 & Hsy2 & Hp' & Hq').
    rewrite Hl in Hlrow. injection Hlrow as <-.
    rewrite Hr in Hrrow. injection Hrrow as <-.
    destruct (classic_steps_complete pair (erased b pair)
                (synchronize lhs_moves rhs_moves) b1 m1 m2 p' q')
      as (r & r' & ? & ? & ?); try done.
    - apply synchronize_complete; try done.
      + apply Hsl. by eapply list_elem_of_lookup_2.
      + apply Hsr. by eapply list_elem_of_lookup_2.
      + congruence.
    - exists r, r'. split; [by destruct pair|]. split; [done|]. congruence. }
  assert (is_Some (product_map b1 !! pair)) as Hpair1.
  { apply (classic_steps_sound lhs rhs) in H1 as [? _]; [|done].
    by eapply ext_is_Some. }
  destruct pe; [|by injection H as <-].
  apply bind_Ok in H as (b2 & H2 & H3).
  apply (epsilon_step_sound EPSILON lhs rhs) in H2 as (Hext2 & _); [|done].
  apply (epsilon_step_sound EPSILON lhs rhs) in H3 as (Hext3 & _);
    [|by eapply ext_is_Some].
  apply (classic_done_ext b2); [done|]. by apply (classic_done_ext b1).
Qed.

Lemma reachable_complete pe b :
  (∀ row, row ∈ transition_relation lhs → sorted_moves row) →
  (∀ row, row ∈ transition_relation rhs → sorted_moves row) →
  reachable EPSILON lhs rhs pe b →
  ∀ p q, is_Some (product_map b !! (p, q)) → (p, q) ∉ pairs_to_process b →
         classic_done b p q.
Proof.
  intros Hsl Hsr. unfold reachable.
  apply (rtc_ind_r (λ b, ∀ p q, is_Some (product_map b !! (p, q)) →
                          (p, q) ∉ pairs_to_process b → classic_done b p q)).
  - intros p q Hsome Hnot. destruct Hnot.
    by apply (init_build_inv lhs rhs).
  - intros b1 b2 Hreach (pair & Hin & Hstep) IH p q Hsome Hnot.
    apply (reachable_inv EPSILON lhs rhs pe b1) in Hreach as [Hinv _].
    pose proof (process_pair_sound EPSILON lhs rhs pe pair b1 b2 Hinv Hin Hstep)
      as (_ & Hext & _).
    destruct (decide ((p, q) = pair)) as [<-|Hne].
    + by apply (process_pair_complete pe (p, q) b1 b2).
    + destruct (product_map b1 !! (p, q)) as [v|] eqn:E.
      * apply (classic_done_ext (erased b1 pair)); [done|].
        apply IH; [by rewrite E|].
        intros Hb. apply Hnot. apply (ext_pending _ _ Hext). simpl.
        set_solver.
      * destruct Hnot. by apply (ext_new _ _ Hext).
Qed.

(** *** The product in every state of the construction *)


(** X17: two pairs of states are never mapped to the same state of the
    product. *)
Theorem product_map_injective (pe : bool) (b : Build) (k1 k2 : State * State)
    (r : State) :
  reachable EPSILON lhs rhs pe b →
  product_map b !! k1 = Some r → product_map b !! k2 = Some r → k1 = k2.
Proof.
  intros (_ & Hs & _)%reachable_shape. apply (shape_inj lhs rhs b Hs).
Qed.

(** X18: when no initial state is listed twice, the states of the product
    are exactly the states the map gives to the pairs. *)
Theorem product_states_mapped (pe : bool) (b : Build) (r : State) :
  NoDup (initial_states lhs) → NoDup (initial_states rhs) →
  reachable EPSILON lhs rhs pe b →
  r < length (transition_relation (product b)) ↔
    ∃ k, product_map b !! k = Some r.
Proof.
  intros Hl Hr (_ & Hs & Ho)%reachable_shape. split.
  - by apply Ho.
  - intros [k Hk]. by apply (shape_bound lhs rhs b Hs k).
Qed.

(** X19: the initial states of the product are the states of the pairs
    of initial states: every such pair is in the map, and the state of a
    pair is initial in the product exactly when both components are
    initial. *)
Theorem product_initial_states (pe : bool) (b : Build) :
  reachable EPSILON lhs rhs pe b →
  (∀ p q, p ∈ initial_states lhs → q ∈ initial_states rhs →
          is_Some (product_map b !! (p, q))) ∧
  (∀ p q r, product_map b !! (p, q) = Some r →
            r ∈ initial_states (product b) ↔
              p ∈ initial_states lhs ∧ q ∈ initial_states rhs).
Proof.
  intros (Him & Hs & _)%reachable_shape. split; [exact Him|].
  apply (shape_initial lhs rhs b Hs).
Qed.

(** X20: every transition of the product leads from the state of a pair
    to the state of a pair and is a synchronous move of the two automata
    or, when epsilon moves are preserved, an epsilon move of one of them
    with the other one staying. *)
Theorem product_transitions_justified (pe : bool) (b : Build)
    (r : State) (sy : Symbol) (r' : State) :
  reachable EPSILON lhs rhs pe b →
  has_transition (product b) r sy r' →
  ∃ p q p' q',
    product_map b !! (p, q) = Some r ∧ product_map b !! (p', q') = Some r' ∧
    justified pe p q sy p' q'.
Proof. intros Hs%reachable_sound. apply Hs. Qed.

(** X21: when the rows of both automata are ordered by symbol, every
    synchronous move of a pair that has been processed is a transition of
    the product. *)
Theorem product_transitions_complete (pe : bool) (b : Build)
    (p q : State) (sy : Symbol) (p' q' : State) :
  (∀ row, row ∈ transition_relation lhs → sorted_moves row) →
  (∀ row, row ∈ transition_relation rhs → sorted_moves row) →
  reachable EPSILON lhs rhs pe b →
  is_Some (product_map b !! (p, q)) → (p, q) ∉ pairs_to_process b →
  classic_move lhs rhs p q sy p' q' →
  ∃ r r',
    product_map b !! (p, q) = Some r ∧ product_map b !! (p', q') = Some r' ∧
    has_transition (product b) r sy r'.
Proof.
  intros Hsl Hsr Hreach Hsome Hnot.
  apply (reachable_complete pe b Hsl Hsr Hreach p q Hsome Hnot).
Qed.

End shape.


Lemma product_map_injective_witness :
  ∃ b, worklist_loop eps one_move one_move 5 false
         (init_build one_move one_move) = Ok b ∧
       ∀ k, product_map b !! k = Some 1 → (1, 1) = k.
Proof.
  eexists. split; [vm_compute; reflexivity|]. intros k.
  apply (product_map_injective eps one_move one_move false _ (1, 1) k 1).
  - apply (worklist_loop_steps eps one_move one_move 5 false).
    vm_compute. reflexivity.
  - vm_compute. reflexivity.
Defined.

Lemma product_states_mapped_witness :
  ∃ b, worklist_loop eps one_move one_move 5 false
         (init_build one_move one_move) = Ok b ∧
       (1 < length (transition_relation (product b)) ↔
          ∃ k, product_map b !! k = Some 1).
Proof.
  eexists. split; [vm_compute; reflexivity|].
  apply (product_states_mapped eps one_move one_move false _ 1).
  - apply NoDup_singleton.
  - apply NoDup_singleton.
  - apply (worklist_loop_steps eps one_move one_move 5 false).
    vm_compute. reflexivity.
Defined.

Lemma product_initial_states_witness :
  ∃ b, worklist_loop eps one_epsilon one_state 5 true
         (init_build one_epsilon one_state) = Ok b ∧
       (∀ p q, p ∈ initial_states one_epsilon → q ∈ initial_states one_state →
               is_Some (product_map b !! (p, q))) ∧
       (∀ p q r, product_map b !! (p, q) = Some r →
                 r ∈ initial_states (product b) ↔
                   p ∈ initial_states one_epsilon ∧
                   q ∈ initial_states one_state).
Proof.
  eexists. split; [vm_compute; reflexivity|].
  apply (product_initial_states eps one_epsilon one_state true).
  apply (worklist_loop_steps eps one_epsilon one_state 5 true).
  vm_compute. reflexivity.
Defined.

Lemma product_transitions_justified_witness :
  ∃ b, worklist_loop eps one_epsilon one_state 5 true
         (init_build one_epsilon one_state) = Ok b ∧
       ∃ p q p' q',
         product_map b !! (p, q) = Some 0 ∧
         product_map b !! (p', q') = Some 1 ∧
         justified eps one_epsilon one_state true p q eps p' q'.
Proof.
  eexists. split; [vm_compute; reflexivity|].
  apply (product_transitions_justified eps one_epsilon one_state true _
           0 eps 1).
  - apply (worklist_loop_steps eps one_epsilon one_state 5 true).
    vm_compute. reflexivity.
  - exists [mkMove eps [1]], (mkMove eps [1]).
    split; [vm_compute; reflexivity|]. split; [by left|].
    split; [done|by left].
Defined.

Lemma sorted_rows_one_move row :
  row ∈ transition_relation one_move → sorted_moves row.
Proof.
  intros [->|[->|[]%elem_of_nil]%elem_of_cons]%elem_of_cons;
    repeat constructor.
Qed.

Lemma product_transitions_complete_witness :
  ∃ b, worklist_loop eps one_move one_move 5 false
         (init_build one_move one_move) = Ok b ∧
       ∃ r r',
         product_map b !! (0, 0) = Some r ∧
         product_map b !! (1, 1) = Some r' ∧
         has_transition (product b) r 5 r'.
Proof.
  eexists. split; [vm_compute; reflexivity|].
  apply (product_transitions_complete eps one_move one_move false _ 0 0 5 1 1).
  - apply sorted_rows_one_move.
  - apply sorted_rows_one_move.
  - apply (worklist_loop_steps eps one_move one_move 5 false).
    vm_compute. reflexivity.
  - vm_compute. eauto.
  - vm_compute. set_solver.
  - exists [mkMove 5 [1]], [mkMove 5 [1]], (mkMove 5 [1]), (mkMove 5 [1]).
    repeat split; try reflexivity; by left.
Defined.

Lemma well_formed_one_move : well_formed one_move.
Proof.
  split.
  - intros s ->%list_elem_of_singleton. simpl. lia.
  - intros row mv s [->|[->|[]%elem_of_nil]%elem_of_cons]%elem_of_cons;
      [|by intros ?%elem_of_nil].
    intros ->%list_elem_of_singleton ->%list_elem_of_singleton. simpl. lia.
Qed.

Lemma intersection_terminates_witness :
  ∃ prod pm,
    intersection eps one_move one_move (size (universe one_move one_move))
      false = Ok (prod, pm).
Proof.
  apply (intersection_terminates eps one_move one_move false);
    apply well_formed_one_move.
Defined.

End NfaShape.

(** ** The section written by [serialize] *)

Module Serialization.
Import Afa AfaFacts.

Lemma name_states_Ok namer sts names out :
  name_states namer sts names = Ok out →
  out = names ++ ((λ s, (namer s).2) <$> sts).
Proof.
  revert names. induction sts as [|s sts IH]; intros names; simpl.
  - intros [= <-]. by rewrite app_nil_r.
  - destruct (namer s).1; simpl; [|done].
    intros ->%IH. by rewrite <- app_assoc.
Qed.

(** the loop stops at the first state that has no name *)
Lemma name_states_first namer l1 s l2 names :
  (∀ s', s' ∈ l1 → (namer s').1 = true) → (namer s).1 = false →
  name_states namer (l1 ++ s :: l2) names
  = Thrown ("cannot translate state " +:+ to_string s).
Proof.
  revert names. induction l1 as [|x l1 IH]; intros names Hall Hs; simpl.
  - by rewrite Hs.
  - rewrite (Hall x) by by left. simpl. apply IH; [|done].
    intros s' ?. apply Hall. by right.
Qed.

Lemma in_order_split (X : gset State) s :
  s ∈ X →
  ∃ l1 l2, in_order X = l1 ++ s :: l2 ∧ ∀ s', s' ∈ l1 → s' ∈ X ∧ s' < s.
Proof.
  intros Hs. assert (s ∈ in_order X) as Hin by by apply elem_of_in_order.
  apply list_elem_of_split in Hin as (l1 & l2 & Heq).
  exists l1, l2. split; [done|]. intros s' Hs'.
  assert (s' ∈ in_order X) as Hin'.
  { rewrite Heq. apply elem_of_app. by left. }
  split; [by apply elem_of_in_order|].
  assert (StronglySorted (≤) (in_order X)) as Hsorted
    by apply (StronglySorted_merge_sort (≤)).
  assert (NoDup (in_order X)) as Hnd.
  { unfold in_order. rewrite merge_sort_Permutation. apply NoDup_elements. }
  rewrite Heq in Hsorted, Hnd.
  assert (s' ≤ s).
  { eapply (StronglySorted_app_1_elem_of (≤)); [exact Hsorted|done|by left]. }
  apply NoDup_app in Hnd as (_ & Hne & _).
  assert (s' ≠ s); [|lia]. intros ->. apply (Hne s); [done|by left].
Qed.

Lemma name_states_least namer (X : gset State) s :
  s ∈ X → (namer s).1 = false →
  (∀ s', s' ∈ X → s' < s → (namer s').1 = true) →
  name_states namer (in_order X) []
  = Thrown ("cannot translate state " +:+ to_string s).
Proof.
  intros Hs Hn Hless.
  destruct (in_order_split X s Hs) as (l1 & l2 & -> & Hl1).
  apply name_states_first; [|done].
  intros s' [? ?]%Hl1. by apply Hless.
Qed.

Lemma name_states_all namer sts :
  (∀ s, s ∈ sts → (namer s).1 = true) →
  name_states namer sts [] = Ok ((λ s, (namer s).2) <$> sts).
Proof.
  intros Hall.
  destruct (name_states_cases namer sts [])
    as [(out & Hout & _)|(s & Hs & Hn & _)].
  - rewrite Hout. by apply name_states_Ok in Hout as ->.
  - rewrite Hall in Hn; done.
Qed.

(** X23: the exception of [serialize] names the least initial state that
    has no name and, when all initial states are named, the least final
    state that has none. *)
Theorem serialize_throws (aut : Afa)
    (symbol_map : option (gmap Symbol string))
    (state_map : option (gmap State string)) (s : State) :
  (state_namer state_map s).1 = false →
  (s ∈ initialstates aut ∧
   ∀ s', s' ∈ initialstates aut → s' < s →
         (state_namer state_map s').1 = true) ∨
  ((∀ s', s' ∈ initialstates aut → (state_namer state_map s').1 = true) ∧
   s ∈ finalstates aut ∧
   ∀ s', s' ∈ finalstates aut → s' < s →
         (state_namer state_map s').1 = true) →
  serialize aut symbol_map state_map
  = Thrown ("cannot translate state " +:+ to_string s).
Proof.
  intros Hn [[Hs Hless]|(Hall & Hs & Hless)]; unfold serialize.
  - by rewrite (name_states_least _ _ s Hs Hn Hless).
  - rewrite (name_states_all _ (in_order (initialstates aut)));
      [|by intros s' ?%elem_of_in_order%Hall].
    simpl. by rewrite (name_states_least _ _ s Hs Hn Hless).
Qed.

(** X24: in a section returned by [serialize] the lists under Initial and
    Final hold the names of the initial and of the final states, in
    increasing order of the states. *)
Theorem serialize_names (aut : Afa)
    (symbol_map : option (gmap Symbol string))
    (state_map : option (gmap State string)) (parsec : ParsedSection) :
  serialize aut symbol_map state_map = Ok parsec →
  dict parsec !! "Initial"
  = Some ((λ s, (state_namer state_map s).2) <$> in_order (initialstates aut))
  ∧
  dict parsec !! "Final"
  = Some ((λ s, (state_namer state_map s).2) <$> in_order (finalstates aut)).
Proof.
  unfold serialize.
  intros (init & ->%name_states_Ok & H)%bind_Ok.
  apply bind_Ok in H as (fin & ->%name_states_Ok & [= <-]). simpl.
  split; [|apply lookup_insert_eq].
  rewrite lookup_insert_ne by done. apply lookup_insert_eq.
Qed.

(** X25: without a state map [serialize] never throws: it names state
    [s] by the letter q followed by the number [s]. *)
Theorem serialize_default_names (aut : Afa)
    (symbol_map : option (gmap Symbol string)) :
  serialize aut symbol_map None
  = Ok (mkParsedSection TYPE_AFA
          (<["Final" := (λ s, "q" +:+ to_string s)
                          <$> in_order (finalstates aut)]>
             (<["Initial" := (λ s, "q" +:+ to_string s)
                               <$> in_order (initialstates aut)]> ∅))
          []).
Proof.
  unfold serialize. by rewrite !name_states_all.
Qed.

Lemma serialize_throws_witness :
  serialize (mkAfa [[]; []] [[]; []] {[0; 1]} ∅) None (Some {[0 := "zero"]})
  = Thrown ("cannot translate state " +:+ to_string 1).
Proof.
  apply (serialize_throws (mkAfa [[]; []] [[]; []] {[0; 1]} ∅) None
           (Some {[0 := "zero"]}) 1).
  - vm_compute. reflexivity.
  - left. split; [set_solver|]. intros s' _ Hlt.
    assert (s' = 0) as -> by lia. vm_compute. reflexivity.
Defined.

Lemma serialize_names_witness :
  dict (mkParsedSection TYPE_AFA
          {[ "Initial" := ["q0"]; "Final" := ["q0"] ]} []) !! "Initial"
  = Some ((λ s, (state_namer None s).2) <$> in_order (initialstates one_accepting))
  ∧
  dict (mkParsedSection TYPE_AFA
          {[ "Initial" := ["q0"]; "Final" := ["q0"] ]} []) !! "Final"
  = Some ((λ s, (state_namer None s).2) <$> in_order (finalstates one_accepting)).
Proof.
  apply (serialize_names one_accepting None None).
  vm_compute. reflexivity.
Defined.

End Serialization.
